(** * RbmMultival: a shallow embedding of Sources/Machine/rbm_multival.cc

    The restricted Boltzmann machine for sites with several local values:
    parameters [a_], [b_], [W_], the cached pre-activations ("theta", the
    lookup), the amplitude ratios, the gradient and the (de)serialisation.

    Conventions of the embedding.
    - [double] and [std::complex<double>] are one type [K] of exact scalars
      (a real is a complex scalar with no imaginary part); rounding is not
      modelled, so "equal within floating tolerance" reads as equality in a
      commutative ring.  The ring laws are a hypothesis of the section and
      are used only where a proof names them.
    - [int] is [Z].  Where the code makes a new [int] out of others that
      need not fit (the counts of [Init], the hidden count of the
      constructor, a number of the json record that is assigned to an [int]
      member), the result is reduced to the 32-bit range by [int_of], the
      wrap-around of the machine; the index arithmetic of the evaluations
      stays inside containers that exist.  Loop counters that start at 0
      and count up are [nat].
    - An Eigen vector is a [list K], a matrix the list of its rows.
    - A method that writes members is a state transformer that can fail,
      [Method A]; an access outside a container (which C++ leaves undefined)
      is the error [OutOfRange].
    - [tanh] and [SumLogCosh] (Utils/log_cosh.hpp) are fields of the class
      [Scalar], with the ring operations.

    The file has four parts: the embedding of the source (section
    [RbmMultival]), an instance over the integers with the scenario of
    spec.md, section 8, the properties (section [Properties]), and the
    properties at the scenario. *)

From Stdlib Require Import ZArith Ring.
From stdpp Require Import base gmap list strings.

Local Open Scope Z_scope.

(** ** Errors and fallible results *)

Inductive error : Type :=
| InvalidInputError (msg : string)  (* netket::InvalidInputError *)
| JsonError                         (* thrown by the json library *)
| BadAnyCast                        (* the typed view of an empty [any] *)
| OutOfRange                        (* access outside a container or a bad size *)
| Diverges.                         (* a loop that does not end *)

Inductive result (A : Type) : Type :=
| Ok (a : A)
| Err (e : error).
Arguments Ok {A} a.
Arguments Err {A} e.

Definition rbind {A B} (c : result A) (f : A → result B) : result B :=
  match c with Ok a => f a | Err e => Err e end.

Notation "'let?' x ':=' c 'in' k" := (rbind c (fun x => k))
  (at level 10, x pattern, c at level 100, k at level 200).

Definition is_Err {A} (r : result A) : Prop := ∃ e, r = Err e.

(** [for (int i = lo; i < lo + n; i++) body], threading the loop state. *)
Fixpoint for_loop {S : Type} (body : nat → S → result S) (lo n : nat) (s : S)
  : result S :=
  match n with
  | O => Ok s
  | Datatypes.S n' => let? s' := body lo s in for_loop body (Datatypes.S lo) n' s'
  end.

(** [for (int i = i0; i < bound; i += step) body]; the fuel stands for the
    iterations the loop may take and [Diverges] for a loop that needs more. *)
Fixpoint step_loop {S : Type} (fuel : nat) (body : Z → S → result S)
    (i bound step : Z) (s : S) : result S :=
  if decide (i < bound) then
    match fuel with
    | O => Err Diverges
    | Datatypes.S fuel' =>
        let? s' := body i s in step_loop fuel' body (i + step) bound step s'
    end
  else Ok s.

(** ** Containers *)

(** [l(i)] and [l[i]] with a counter. *)
Definition at_ {A} (l : list A) (i : nat) : result A :=
  match l !! i with Some x => Ok x | None => Err OutOfRange end.

(** [l(i)] and [l[i]] with an [int]. *)
Definition atZ {A} (l : list A) (i : Z) : result A :=
  if decide (0 ≤ i) then at_ l (Z.to_nat i) else Err OutOfRange.

(** [l(i) = x]. *)
Definition put {A} (l : list A) (i : nat) (x : A) : result (list A) :=
  if decide (i < length l)%nat then Ok (<[i := x]> l) else Err OutOfRange.

Definition putZ {A} (l : list A) (i : Z) (x : A) : result (list A) :=
  if decide (0 ≤ i) then put l (Z.to_nat i) x else Err OutOfRange.

(** [M(i, j) = x]. *)
Definition put2 {A} (M : list (list A)) (i : nat) (j : Z) (x : A)
  : result (list (list A)) :=
  let? row := at_ M i in
  let? row' := putZ row j x in
  put M i row'.

(** The size of a container, from an [int]. *)
Definition size_of (n : Z) : result nat :=
  if decide (0 ≤ n) then Ok (Z.to_nat n) else Err OutOfRange.

(** ** int

    The values of [int], and the [int] that a wider integer becomes: the
    two's complement wrap-around to 32 bits. *)
Definition int_range (z : Z) : Prop := (-2147483648) ≤ z ∧ z ≤ 2147483647.

Definition int_of (z : Z) : Z :=
  (z + 2147483648) `mod` 4294967296 - 2147483648.
Arguments int_of : simpl never.

(** ** The json record read by [Load] and written by [Save] *)

Inductive json_value (K : Type) : Type :=
| JBool (b : bool)
| JInt (z : Z)
| JNum (x : K)
| JString (s : string)
| JVec (l : list K)
| JMat (M : list (list K)).
Arguments JBool {K} b.
Arguments JInt {K} z.
Arguments JNum {K} x.
Arguments JString {K} s.
Arguments JVec {K} l.
Arguments JMat {K} M.

#[global] Instance json_value_eq_dec {K} `{EqDecision K} :
  EqDecision (json_value K).
Proof. solve_decision. Defined.

(** ** Scalars

    The operations of the scalars, the two external functions, the content
    of memory that was allocated and not yet written, and the conversions
    between [int] and [double]. *)

Class Scalar (K : Type) : Type := {
  K0 : K;
  K1 : K;
  Kadd : K → K → K;
  Kmul : K → K → K;
  Ksub : K → K → K;
  Kopp : K → K;
  Ktanh : K → K;
  SumLogCosh : list K → K;
  uninit : K;
  KofZ : Z → K;
  Ktrunc : K → Z
}.

Infix "⊕" := Kadd (at level 50, left associativity).
Infix "⊖" := Ksub (at level 50, left associativity).
Infix "⊗" := Kmul (at level 40, left associativity).

#[global] Instance Scalar_inhabited {K} `{Scalar K} : Inhabited K :=
  populate K0.

Section RbmMultival.

Context {K : Type} {KEq : EqDecision K} {KCount : Countable K}
  {KScalar : Scalar K}.

(** ** Vectors *)

Definition same_size {A B} (x : list A) (y : list B) : result unit :=
  if decide (length x = length y) then Ok tt else Err OutOfRange.

(** [x + y], [x - y] on vectors of one size. *)
Definition vadd (x y : list K) : result (list K) :=
  let? _ := same_size x y in Ok (zip_with Kadd x y).
Definition vsub (x y : list K) : result (list K) :=
  let? _ := same_size x y in Ok (zip_with Ksub x y).

(** [M.row(i)] with an [int] index. *)
Definition row (M : list (list K)) (i : Z) : result (list K) := atZ M i.

(** The dot product of two vectors of one size. *)
Definition dot (x y : list K) : K :=
  foldr (λ p acc, (p.1 ⊗ p.2) ⊕ acc) K0 (zip x y).

(** [M * x]: every row of [M] has the size of [x]. *)
Definition mat_vec (M : list (list K)) (x : list K) : result (list K) :=
  if decide (Forall (λ r, length r = length x) M)
  then Ok (map (λ r, dot r x) M) else Err OutOfRange.

(** [M.transpose() * x] for a matrix of [n] columns, as the sum over the
    rows [i] of [x(i) * M.row(i)]. *)
Definition scale (c : K) (r : list K) : list K := map (λ w, w ⊗ c) r.

Definition rows_sum (n : nat) (M : list (list K)) (x : list K) : list K :=
  foldr (λ p acc, zip_with Kadd (scale p.2 p.1) acc) (replicate n K0) (zip M x).

Definition tmat_vec (n : nat) (M : list (list K)) (x : list K)
  : result (list K) :=
  if decide (length M = length x ∧ Forall (λ r, length r = n) M)
  then Ok (rows_sum n M x) else Err OutOfRange.

(** [v.resize(n)]: the content is kept when the size does not change and
    is unwritten memory otherwise. *)
Definition resize_vec (n : Z) (old : list K) : result (list K) :=
  let? n' := size_of n in
  Ok (if decide (length old = n') then old else replicate n' uninit).

(** [M.resize(r, c)], likewise.  (Eigen also keeps the coefficients when
    only the product [r * c] is unchanged; nothing below reads them.) *)
Definition resize_mat (r c : Z) (old : list (list K))
  : result (list (list K)) :=
  let? r' := size_of r in
  let? c' := size_of c in
  Ok (if decide (length old = r' ∧ Forall (λ x, length x = c') old)
      then old else replicate r' (replicate c' uninit)).

Definition setZero (x : list K) : list K := replicate (length x) K0.

(** ** The configuration space (AbstractHilbert), read only *)

Record Hilbert : Type := {
  Size : Z;
  LocalSize : Z;
  LocalStates : list K
}.

(** ** The machine *)

Record Machine : Type := {
  nv_ : Z;
  ls_ : Z;
  nh_ : Z;
  usea_ : bool;
  useb_ : bool;
  npar_ : Z;
  W_ : list (list K);
  a_ : list K;
  b_ : list K;
  thetas_ : list K;
  lnthetas_ : list K;
  thetasnew_ : list K;
  lnthetasnew_ : list K;
  localconfs_ : list K;
  mask_ : list (list K);
  confindex_ : gmap K Z;
  vtilde_ : list K
}.

(** Assignment to one member. *)

Definition set_nv (x : Z) (m : Machine) : Machine :=
  {| nv_ := x; ls_ := ls_ m; nh_ := nh_ m; usea_ := usea_ m;
     useb_ := useb_ m; npar_ := npar_ m; W_ := W_ m; a_ := a_ m; b_ := b_ m;
     thetas_ := thetas_ m; lnthetas_ := lnthetas_ m;
     thetasnew_ := thetasnew_ m; lnthetasnew_ := lnthetasnew_ m;
     localconfs_ := localconfs_ m; mask_ := mask_ m;
     confindex_ := confindex_ m; vtilde_ := vtilde_ m |}.

Definition set_ls (x : Z) (m : Machine) : Machine :=
  {| nv_ := nv_ m; ls_ := x; nh_ := nh_ m; usea_ := usea_ m;
     useb_ := useb_ m; npar_ := npar_ m; W_ := W_ m; a_ := a_ m; b_ := b_ m;
     thetas_ := thetas_ m; lnthetas_ := lnthetas_ m;
     thetasnew_ := thetasnew_ m; lnthetasnew_ := lnthetasnew_ m;
     localconfs_ := localconfs_ m; mask_ := mask_ m;
     confindex_ := confindex_ m; vtilde_ := vtilde_ m |}.

Definition set_nh (x : Z) (m : Machine) : Machine :=
  {| nv_ := nv_ m; ls_ := ls_ m; nh_ := x; usea_ := usea_ m;
     useb_ := useb_ m; npar_ := npar_ m; W_ := W_ m; a_ := a_ m; b_ := b_ m;
     thetas_ := thetas_ m; lnthetas_ := lnthetas_ m;
     thetasnew_ := thetasnew_ m; lnthetasnew_ := lnthetasnew_ m;
     localconfs_ := localconfs_ m; mask_ := mask_ m;
     confindex_ := confindex_ m; vtilde_ := vtilde_ m |}.

Definition set_usea (x : bool) (m : Machine) : Machine :=
  {| nv_ := nv_ m; ls_ := ls_ m; nh_ := nh_ m; usea_ := x; useb_ := useb_ m;
     npar_ := npar_ m; W_ := W_ m; a_ := a_ m; b_ := b_ m;
     thetas_ := thetas_ m; lnthetas_ := lnthetas_ m;
     thetasnew_ := thetasnew_ m; lnthetasnew_ := lnthetasnew_ m;
     localconfs_ := localconfs_ m; mask_ := mask_ m;
     confindex_ := confindex_ m; vtilde_ := vtilde_ m |}.

Definition set_useb (x : bool) (m : Machine) : Machine :=
  {| nv_ := nv_ m; ls_ := ls_ m; nh_ := nh_ m; usea_ := usea_ m; useb_ := x;
     npar_ := npar_ m; W_ := W_ m; a_ := a_ m; b_ := b_ m;
     thetas_ := thetas_ m; lnthetas_ := lnthetas_ m;
     thetasnew_ := thetasnew_ m; lnthetasnew_ := lnthetasnew_ m;
     localconfs_ := localconfs_ m; mask_ := mask_ m;
     confindex_ := confindex_ m; vtilde_ := vtilde_ m |}.

Definition set_npar (x : Z) (m : Machine) : Machine :=
  {| nv_ := nv_ m; ls_ := ls_ m; nh_ := nh_ m; usea_ := usea_ m;
     useb_ := useb_ m; npar_ := x; W_ := W_ m; a_ := a_ m; b_ := b_ m;
     thetas_ := thetas_ m; lnthetas_ := lnthetas_ m;
     thetasnew_ := thetasnew_ m; lnthetasnew_ := lnthetasnew_ m;
     localconfs_ := localconfs_ m; mask_ := mask_ m;
     confindex_ := confindex_ m; vtilde_ := vtilde_ m |}.

Definition set_W (x : list (list K)) (m : Machine) : Machine :=
  {| nv_ := nv_ m; ls_ := ls_ m; nh_ := nh_ m; usea_ := usea_ m;
     useb_ := useb_ m; npar_ := npar_ m; W_ := x; a_ := a_ m; b_ := b_ m;
     thetas_ := thetas_ m; lnthetas_ := lnthetas_ m;
     thetasnew_ := thetasnew_ m; lnthetasnew_ := lnthetasnew_ m;
     localconfs_ := localconfs_ m; mask_ := mask_ m;
     confindex_ := confindex_ m; vtilde_ := vtilde_ m |}.

Definition set_a (x : list K) (m : Machine) : Machine :=
  {| nv_ := nv_ m; ls_ := ls_ m; nh_ := nh_ m; usea_ := usea_ m;
     useb_ := useb_ m; npar_ := npar_ m; W_ := W_ m; a_ := x; b_ := b_ m;
     thetas_ := thetas_ m; lnthetas_ := lnthetas_ m;
     thetasnew_ := thetasnew_ m; lnthetasnew_ := lnthetasnew_ m;
     localconfs_ := localconfs_ m; mask_ := mask_ m;
     confindex_ := confindex_ m; vtilde_ := vtilde_ m |}.

Definition set_b (x : list K) (m : Machine) : Machine :=
  {| nv_ := nv_ m; ls_ := ls_ m; nh_ := nh_ m; usea_ := usea_ m;
     useb_ := useb_ m; npar_ := npar_ m; W_ := W_ m; a_ := a_ m; b_ := x;
     thetas_ := thetas_ m; lnthetas_ := lnthetas_ m;
     thetasnew_ := thetasnew_ m; lnthetasnew_ := lnthetasnew_ m;
     localconfs_ := localconfs_ m; mask_ := mask_ m;
     confindex_ := confindex_ m; vtilde_ := vtilde_ m |}.

Definition set_thetas (x : list K) (m : Machine) : Machine :=
  {| nv_ := nv_ m; ls_ := ls_ m; nh_ := nh_ m; usea_ := usea_ m;
     useb_ := useb_ m; npar_ := npar_ m; W_ := W_ m; a_ := a_ m; b_ := b_ m;
     thetas_ := x; lnthetas_ := lnthetas_ m; thetasnew_ := thetasnew_ m;
     lnthetasnew_ := lnthetasnew_ m; localconfs_ := localconfs_ m;
     mask_ := mask_ m; confindex_ := confindex_ m; vtilde_ := vtilde_ m |}.

Definition set_lnthetas (x : list K) (m : Machine) : Machine :=
  {| nv_ := nv_ m; ls_ := ls_ m; nh_ := nh_ m; usea_ := usea_ m;
     useb_ := useb_ m; npar_ := npar_ m; W_ := W_ m; a_ := a_ m; b_ := b_ m;
     thetas_ := thetas_ m; lnthetas_ := x; thetasnew_ := thetasnew_ m;
     lnthetasnew_ := lnthetasnew_ m; localconfs_ := localconfs_ m;
     mask_ := mask_ m; confindex_ := confindex_ m; vtilde_ := vtilde_ m |}.

Definition set_thetasnew (x : list K) (m : Machine) : Machine :=
  {| nv_ := nv_ m; ls_ := ls_ m; nh_ := nh_ m; usea_ := usea_ m;
     useb_ := useb_ m; npar_ := npar_ m; W_ := W_ m; a_ := a_ m; b_ := b_ m;
     thetas_ := thetas_ m; lnthetas_ := lnthetas_ m; thetasnew_ := x;
     lnthetasnew_ := lnthetasnew_ m; localconfs_ := localconfs_ m;
     mask_ := mask_ m; confindex_ := confindex_ m; vtilde_ := vtilde_ m |}.

Definition set_lnthetasnew (x : list K) (m : Machine) : Machine :=
  {| nv_ := nv_ m; ls_ := ls_ m; nh_ := nh_ m; usea_ := usea_ m;
     useb_ := useb_ m; npar_ := npar_ m; W_ := W_ m; a_ := a_ m; b_ := b_ m;
     thetas_ := thetas_ m; lnthetas_ := lnthetas_ m;
     thetasnew_ := thetasnew_ m; lnthetasnew_ := x;
     localconfs_ := localconfs_ m; mask_ := mask_ m;
     confindex_ := confindex_ m; vtilde_ := vtilde_ m |}.

Definition set_localconfs (x : list K) (m : Machine) : Machine :=
  {| nv_ := nv_ m; ls_ := ls_ m; nh_ := nh_ m; usea_ := usea_ m;
     useb_ := useb_ m; npar_ := npar_ m; W_ := W_ m; a_ := a_ m; b_ := b_ m;
     thetas_ := thetas_ m; lnthetas_ := lnthetas_ m;
     thetasnew_ := thetasnew_ m; lnthetasnew_ := lnthetasnew_ m;
     localconfs_ := x; mask_ := mask_ m; confindex_ := confindex_ m;
     vtilde_ := vtilde_ m |}.

Definition set_mask (x : list (list K)) (m : Machine) : Machine :=
  {| nv_ := nv_ m; ls_ := ls_ m; nh_ := nh_ m; usea_ := usea_ m;
     useb_ := useb_ m; npar_ := npar_ m; W_ := W_ m; a_ := a_ m; b_ := b_ m;
     thetas_ := thetas_ m; lnthetas_ := lnthetas_ m;
     thetasnew_ := thetasnew_ m; lnthetasnew_ := lnthetasnew_ m;
     localconfs_ := localconfs_ m; mask_ := x; confindex_ := confindex_ m;
     vtilde_ := vtilde_ m |}.

Definition set_confindex (x : gmap K Z) (m : Machine) : Machine :=
  {| nv_ := nv_ m; ls_ := ls_ m; nh_ := nh_ m; usea_ := usea_ m;
     useb_ := useb_ m; npar_ := npar_ m; W_ := W_ m; a_ := a_ m; b_ := b_ m;
     thetas_ := thetas_ m; lnthetas_ := lnthetas_ m;
     thetasnew_ := thetasnew_ m; lnthetasnew_ := lnthetasnew_ m;
     localconfs_ := localconfs_ m; mask_ := mask_ m; confindex_ := x;
     vtilde_ := vtilde_ m |}.

Definition set_vtilde (x : list K) (m : Machine) : Machine :=
  {| nv_ := nv_ m; ls_ := ls_ m; nh_ := nh_ m; usea_ := usea_ m;
     useb_ := useb_ m; npar_ := npar_ m; W_ := W_ m; a_ := a_ m; b_ := b_ m;
     thetas_ := thetas_ m; lnthetas_ := lnthetas_ m;
     thetasnew_ := thetasnew_ m; lnthetasnew_ := lnthetasnew_ m;
     localconfs_ := localconfs_ m; mask_ := mask_ m;
     confindex_ := confindex_ m; vtilde_ := x |}.

(** ** Methods: state and failure *)

Definition Method (A : Type) : Type := Machine → Machine * result A.

Definition ret {A} (a : A) : Method A := λ m, (m, Ok a).
Definition bind {A B} (c : Method A) (f : A → Method B) : Method B :=
  λ m, match c m with
       | (m', Ok a) => f a m'
       | (m', Err e) => (m', Err e)
       end.
Definition get : Method Machine := λ m, (m, Ok m).
Definition modify (f : Machine → Machine) : Method unit := λ m, (f m, Ok tt).
Definition throw {A} (e : error) : Method A := λ m, (m, Err e).
Definition lift {A} (r : result A) : Method A := λ m, (m, r).
(** A member function given as the new state it leaves. *)
Definition run (f : Machine → result Machine) : Method unit :=
  λ m, match f m with Ok m' => (m', Ok tt) | Err e => (m, Err e) end.

Notation "'let!' x ':=' c 'in' k" := (bind c (fun x => k))
  (at level 10, x pattern, c at level 100, k at level 200).

Fixpoint for_M {S : Type} (body : nat → S → Method S) (lo n : nat) (s : S)
  : Method S :=
  match n with
  | O => ret s
  | Datatypes.S n' => let! s' := body lo s in for_M body (Datatypes.S lo) n' s'
  end.

(** ** Init (lines 39-90) *)

(** [confindex_[x]] as a read: [std::map::operator[]] enters the key with
    the value 0 when it is absent. *)
Definition confindex_at (x : K) : Method Z :=
  λ m, match confindex_ m !! x with
       | Some i => (m, Ok i)
       | None => (set_confindex (<[x := 0]> (confindex_ m)) m, Ok 0)
       end.

(** The loops of [Init]; [rows] is the [int] that [nv_ * ls_] gives. *)
Definition Init_localconfs (rows ls : Z) (localstates lc : list K)
  : result (list K) :=
  step_loop (Z.to_nat rows)
    (λ i lc, for_loop (λ j lc, let? x := at_ localstates j in
                               putZ lc (i + Z.of_nat j) x)
                      0 (Z.to_nat ls) lc)
    0 rows ls lc.

Definition Init_mask (rows ls : Z) (M : list (list K))
  : result (list (list K)) :=
  for_loop (λ i M, put2 M i (Z.quot (Z.of_nat i) ls) K1)
           0 (Z.to_nat rows) M.

Definition Init_confindex (ls : Z) (localstates : list K) (ci : gmap K Z)
  : result (gmap K Z) :=
  for_loop (λ i ci, let? x := at_ localstates i in Ok (<[x := Z.of_nat i]> ci))
           0 (Z.to_nat ls) ci.

(** Every product and sum of [int]s is an [int]: [rows] is what
    [nv_ * ls_] gives at each of its places. *)
Definition Init (h : Hilbert) (m : Machine) : result Machine :=
  let nv := nv_ m in let ls := ls_ m in let nh := nh_ m in
  let rows := int_of (nv * ls) in
  let? W := resize_mat rows nh (W_ m) in
  let? a := resize_vec rows (a_ m) in
  let? b := resize_vec nh (b_ m) in
  let? thetas := resize_vec nh (thetas_ m) in
  let? lnthetas := resize_vec nh (lnthetas_ m) in
  let? thetasnew := resize_vec nh (thetasnew_ m) in
  let? lnthetasnew := resize_vec nh (lnthetasnew_ m) in
  let npar := int_of (int_of (nv * nh) * ls) in
  let npar := if usea_ m then int_of (npar + rows) else npar in
  let a := if usea_ m then a else setZero a in
  let npar := if useb_ m then int_of (npar + nh) else npar in
  let b := if useb_ m then b else setZero b in
  let localstates := LocalStates h in
  let? localconfs := resize_vec rows (localconfs_ m) in
  let? localconfs := Init_localconfs rows ls localstates localconfs in
  let? mask := resize_mat rows nv (mask_ m) in
  let mask := map setZero mask in
  let? mask := Init_mask rows ls mask in
  let? confindex := Init_confindex ls localstates (confindex_ m) in
  let? vtilde := resize_vec rows (vtilde_ m) in
  Ok {| nv_ := nv; ls_ := ls; nh_ := nh; usea_ := usea_ m; useb_ := useb_ m;
        npar_ := npar; W_ := W; a_ := a; b_ := b; thetas_ := thetas;
        lnthetas_ := lnthetas; thetasnew_ := thetasnew;
        lnthetasnew_ := lnthetasnew; localconfs_ := localconfs;
        mask_ := mask; confindex_ := confindex; vtilde_ := vtilde |}.

(** The constructor (lines 28-37): members start empty.  [Size()] and
    [LocalSize()] return an [int], and [alpha * nv_] is one. *)
Definition RbmMultival (h : Hilbert) (nhidden alpha : Z) (usea useb : bool)
  : result Machine :=
  let nv := int_of (Size h) in
  Init h {| nv_ := nv; ls_ := int_of (LocalSize h);
            nh_ := Z.max nhidden (int_of (alpha * nv));
            usea_ := usea; useb_ := useb; npar_ := 0; W_ := []; a_ := [];
            b_ := []; thetas_ := []; lnthetas_ := []; thetasnew_ := [];
            lnthetasnew_ := []; localconfs_ := []; mask_ := [];
            confindex_ := ∅; vtilde_ := [] |}.

Definition Nvisible (m : Machine) : Z := nv_ m.
Definition Npar (m : Machine) : Z := npar_ m.

(** ** ComputeVtilde and ComputeTheta

    Their text is the one kept at lines 257-269 of the source file (between
    [#if 0] and [#endif]; the copy that is compiled is the inline one of
    rbm_multival.hpp).  The out-parameter is returned; every caller passes
    the member [vtilde_], resp. a vector it then stores. *)

Definition ComputeVtilde (m : Machine) (v : list K) : result (list K) :=
  let? mv := mat_vec (mask_ m) v in
  let? _ := same_size (localconfs_ m) mv in
  Ok (zip_with (λ x y, if decide (x = y) then K1 else K0) (localconfs_ m) mv).

Definition ComputeTheta (v : list K) : Method (list K) :=
  let! m := get in
  let! vt := lift (ComputeVtilde m v) in
  let! _ := modify (set_vtilde vt) in
  lift (let? p := tmat_vec (length (b_ m)) (W_ m) vt in vadd p (b_ m)).

(** ** The lookup (lines 96-118) *)

(** Modelled from the spec: [any_cast_ref<LookupType>(lookup)] is a helper
    of Utils that is not among the sources; the holder is "recovered via
    an unchecked downcast at each use site" (spec.md, section 9): the
    vector it holds, and no defined result on an empty holder. *)
Definition any_cast_ref (lookup : option (list K)) : result (list K) :=
  match lookup with Some lt => Ok lt | None => Err BadAnyCast end.

Definition InitLookup (v : list K) : Method (option (list K)) :=
  let! lt := ComputeTheta v in
  ret (Some lt).

Definition UpdateLookup (v : list K) (tochange : list Z) (newconf : list K)
    (lookup : option (list K)) : Method (option (list K)) :=
  if decide (length tochange ≠ 0%nat) then
    let! lt := lift (any_cast_ref lookup) in
    let! lt := for_M (λ s lt,
        let! sf := lift (at_ tochange s) in
        let! vsf := lift (atZ v sf) in
        let! oldtilde := confindex_at vsf in
        let! ncs := lift (at_ newconf s) in
        let! newtilde := confindex_at ncs in
        let! m := get in
        let! r := lift (row (W_ m) (ls_ m * sf + oldtilde)) in
        let! lt := lift (vsub lt r) in
        let! r := lift (row (W_ m) (ls_ m * sf + newtilde)) in
        lift (vadd lt r)) 0 (length tochange) lt in
    ret (Some lt)
  else ret lookup.

(** ** The gradient (lines 120-156) *)

(** [x(k) = c; k++] on the pair of the vector and the counter. *)
Definition assign_next (c : K) (st : list K * nat) : result (list K * nat) :=
  let? x := put st.1 st.2 c in Ok (x, S st.2).

Definition DerLogSingleImpl (v : list K) (lookup : option (list K))
  : Method (list K) :=
  let! m := get in
  let! n := lift (size_of (npar_ m)) in
  let der := replicate n K0 in
  let! vt := lift (ComputeVtilde m v) in
  let! _ := modify (set_vtilde vt) in
  let! st := lift (
    if usea_ m then
      for_loop (λ _ st, let? c := at_ vt st.2 in assign_next c st)
               0 (Z.to_nat (nv_ m * ls_ m)) (der, 0%nat)
    else Ok (der, 0%nat)) in
  let! lt := lift (any_cast_ref lookup) in
  let lnthetas := map Ktanh lt in
  let! _ := modify (set_lnthetas lnthetas) in
  let! st := lift (
    if useb_ m then
      for_loop (λ p st, let? c := at_ lnthetas p in assign_next c st)
               0 (Z.to_nat (nh_ m)) st
    else Ok st) in
  let! st := lift (
    for_loop (λ i st,
      for_loop (λ j st, let? t := at_ lnthetas j in
                        let? x := at_ vt i in
                        assign_next (t ⊗ x) st)
               0 (Z.to_nat (nh_ m)) st)
      0 (Z.to_nat (nv_ m * ls_ m)) st) in
  ret st.1.

Definition DerLogSingle (v : list K) (lookup : option (list K))
  : Method (list K) :=
  match lookup with
  | None => let! lt := InitLookup v in DerLogSingleImpl v lt
  | Some _ => DerLogSingleImpl v lookup
  end.

(** ** The parameters as one vector (lines 158-208) *)

(** [M(i, j)]. *)
Definition at2 (M : list (list K)) (i j : nat) : result K :=
  let? r := at_ M i in at_ r j.

Definition GetParameters (m : Machine) : result (list K) :=
  let? n := size_of (npar_ m) in
  let pars := replicate n uninit in
  let? st :=
    if usea_ m then
      for_loop (λ _ st, let? c := at_ (a_ m) st.2 in assign_next c st)
               0 (Z.to_nat (nv_ m * ls_ m)) (pars, 0%nat)
    else Ok (pars, 0%nat) in
  let? st :=
    if useb_ m then
      for_loop (λ p st, let? c := at_ (b_ m) p in assign_next c st)
               0 (Z.to_nat (nh_ m)) st
    else Ok st in
  let? st :=
    for_loop (λ i st,
      for_loop (λ j st, let? c := at2 (W_ m) i j in assign_next c st)
               0 (Z.to_nat (nh_ m)) st)
      0 (Z.to_nat (nv_ m * ls_ m)) st in
  Ok st.1.

(** [x(i) = pars(k); k++] on the pair of the member and the counter. *)
Definition read_next (pars : list K) (i : nat) (st : list K * nat)
  : result (list K * nat) :=
  let? c := at_ pars st.2 in
  let? x := put st.1 i c in Ok (x, S st.2).

Definition read_next2 (pars : list K) (i j : nat) (st : list (list K) * nat)
  : result (list (list K) * nat) :=
  let? c := at_ pars st.2 in
  let? M := put2 st.1 i (Z.of_nat j) c in Ok (M, S st.2).

Definition SetParameters (pars : list K) (m : Machine) : result Machine :=
  let? ak :=
    if usea_ m then
      for_loop (λ _ st, read_next pars st.2 st)
               0 (Z.to_nat (nv_ m * ls_ m)) (a_ m, 0%nat)
    else Ok (a_ m, 0%nat) in
  let? bk :=
    if useb_ m then
      for_loop (λ p st, read_next pars p st) 0 (Z.to_nat (nh_ m)) (b_ m, ak.2)
    else Ok (b_ m, ak.2) in
  let? Wk :=
    for_loop (λ i st,
      for_loop (λ j st, read_next2 pars i j st) 0 (Z.to_nat (nh_ m)) st)
      0 (Z.to_nat (nv_ m * ls_ m)) (W_ m, bk.2) in
  Ok (set_W Wk.1 (set_b bk.1 (set_a ak.1 m))).

(** ** The amplitude and its ratios (lines 210-255) *)

Definition LogValSingle (v : list K) (lt : option (list K)) : Method K :=
  match lt with
  | None =>
      let! th := ComputeTheta v in
      let! _ := modify (set_thetas th) in
      let! m := get in
      let! _ := lift (same_size (vtilde_ m) (a_ m)) in
      ret (dot (vtilde_ m) (a_ m) ⊕ SumLogCosh th)
  | Some th =>
      let! m := get in
      let! vt := lift (ComputeVtilde m v) in
      let! _ := modify (set_vtilde vt) in
      let! _ := lift (same_size vt (a_ m)) in
      ret (dot vt (a_ m) ⊕ SumLogCosh th)
  end.

(** [x(k) -= c], [x(k) += c]. *)
Definition sub_at (x : list K) (k : nat) (c : K) : result (list K) :=
  let? old := at_ x k in put x k (old ⊖ c).
Definition add_at (x : list K) (k : nat) (c : K) : result (list K) :=
  let? old := at_ x k in put x k (old ⊕ c).

Definition LogValDiff (v : list K) (tochange : list (list Z))
    (newconf : list (list K)) : Method (list K) :=
  let nconn := length tochange in
  let logvaldiffs := replicate nconn K0 in
  let! th := ComputeTheta v in
  let! _ := modify (set_thetas th) in
  let logtsum := SumLogCosh th in
  for_M (λ k logvaldiffs,
    let! tc := lift (at_ tochange k) in
    if decide (length tc ≠ 0%nat) then
      let! m := get in
      let! _ := modify (set_thetasnew (thetas_ m)) in
      let! logvaldiffs := for_M (λ s logvaldiffs,
          let! sf := lift (at_ tc s) in
          let! vsf := lift (atZ v sf) in
          let! oldtilde := confindex_at vsf in
          let! nck := lift (at_ newconf k) in
          let! ncs := lift (at_ nck s) in
          let! newtilde := confindex_at ncs in
          let! m := get in
          let! c := lift (atZ (a_ m) (ls_ m * sf + oldtilde)) in
          let! logvaldiffs := lift (sub_at logvaldiffs k c) in
          let! c := lift (atZ (a_ m) (ls_ m * sf + newtilde)) in
          let! logvaldiffs := lift (add_at logvaldiffs k c) in
          let! r := lift (row (W_ m) (ls_ m * sf + oldtilde)) in
          let! tn := lift (vsub (thetasnew_ m) r) in
          let! r := lift (row (W_ m) (ls_ m * sf + newtilde)) in
          let! tn := lift (vadd tn r) in
          let! _ := modify (set_thetasnew tn) in
          ret logvaldiffs) 0 (length tc) logvaldiffs in
      let! m := get in
      lift (add_at logvaldiffs k (SumLogCosh (thetasnew_ m) ⊖ logtsum))
    else ret logvaldiffs) 0 nconn logvaldiffs.

(** ** Save and Load (lines 271-335) *)

Definition Save (m : Machine) : gmap string (json_value K) :=
  <["W" := JMat (W_ m)]> (<["b" := JVec (b_ m)]> (<["a" := JVec (a_ m)]> (
  <["UseHiddenBias" := JBool (useb_ m)]> (
  <["UseVisibleBias" := JBool (usea_ m)]> (
  <["LocalSize" := JInt (ls_ m)]> (<["Nhidden" := JInt (nh_ m)]> (
  <["Nvisible" := JInt (nv_ m)]> (
  <["Name" := JString "RbmMultival"]> ∅)))))))).

(** The conversions of a json value to the scalar type it is assigned to
    (the json library): a number converts to [int] and [double], a boolean
    too; anything else throws.  A json integer is wider than [int], and the
    [int] it is assigned to holds its low 32 bits. *)
Definition to_int (j : json_value K) : result Z :=
  match j with
  | JInt z => Ok (int_of z)
  | JNum x => Ok (int_of (Ktrunc x))
  | JBool b => Ok (if b then 1 else 0)
  | _ => Err JsonError
  end.
Definition to_double (j : json_value K) : result K :=
  match j with
  | JInt z => Ok (KofZ z)
  | JNum x => Ok x
  | JBool b => Ok (KofZ (if b then 1 else 0))
  | _ => Err JsonError
  end.
Definition to_bool (j : json_value K) : result bool :=
  match j with JBool b => Ok b | _ => Err JsonError end.
(** Modelled from the spec: the conversions of a json array to an Eigen
    vector and to an Eigen matrix are helpers of Utils/json_helper.hpp,
    which is not among the sources.  The record holds "the [a], [b], [W]
    arrays" and [Load] is "populating [a]/[b]/[W] from the record"
    (spec.md, section 4.6), with "[Load(Save(params, dims)) == (params,
    dims)]" (section 7): an array of numbers is the vector with these
    entries, an array of rows of one length is the matrix with these rows.
    Anything else is no vector, resp. no matrix, and the conversion throws;
    the sources do not say what, and nothing below depends on it. *)
Definition to_vec (j : json_value K) : result (list K) :=
  match j with JVec l => Ok l | _ => Err JsonError end.
Definition to_mat (j : json_value K) : result (list (list K)) :=
  match j with
  | JMat M =>
      if decide (Forall (λ r, length r = length (default [] (head M))) M)
      then Ok M else Err JsonError
  | _ => Err JsonError
  end.

(** [pars.at(key)] throws when the key is absent. *)
Definition json_at (pars : gmap string (json_value K)) (key : string)
  : result (json_value K) :=
  match pars !! key with Some j => Ok j | None => Err JsonError end.

(** Modelled from the spec: [FieldExists], [FieldVal] and
    [FieldOrDefaultVal] are helpers of Utils/json_helper.hpp, which is not
    among the sources.  A field is "present" or "absent" in the record;
    [FieldVal] is the read of a field that has to be there (the hidden
    count comes "from an explicit field or, if absent, ... from a legacy
    field"), [FieldOrDefaultVal] the read that "defaults ... if absent". *)
Definition FieldExists (pars : gmap string (json_value K)) (field : string)
  : bool := bool_decide (is_Some (pars !! field)).

Definition FieldVal (pars : gmap string (json_value K)) (field : string)
  : result (json_value K) :=
  match pars !! field with
  | Some j => Ok j
  | None => Err (InvalidInputError ("Field '" +:+ field +:+ "' is not defined in the input"))
  end.

Definition FieldOrDefaultVal (pars : gmap string (json_value K))
    (field : string) (defval : json_value K) : json_value K :=
  match pars !! field with Some j => j | None => defval end.

Definition incompatible : error :=
  InvalidInputError "Loaded wave-function has incompatible Hilbert space".

Definition Load (h : Hilbert) (pars : gmap string (json_value K))
  : Method unit :=
  let! name := lift (json_at pars "Name") in
  if decide (name ≠ JString "RbmMultival") then
    throw (InvalidInputError
             "Error while constructing RbmMultival from Json input")
  else
  let! _ := if FieldExists pars "Nvisible" then
              let! z := lift (let? j := json_at pars "Nvisible" in to_int j) in
              modify (set_nv z)
            else ret tt in
  let! m := get in
  if decide (nv_ m ≠ int_of (Size h)) then throw incompatible else
  let! _ := if FieldExists pars "LocalSize" then
              let! z := lift (let? j := json_at pars "LocalSize" in to_int j) in
              modify (set_ls z)
            else ret tt in
  let! m := get in
  if decide (ls_ m ≠ int_of (LocalSize h)) then throw incompatible else
  let! nh := if FieldExists pars "Nhidden" then
               lift (let? j := FieldVal pars "Nhidden" in to_int j)
             else
               lift (let? j := FieldVal pars "Alpha" in
                     let? alpha := to_double j in
                     Ok (int_of (Ktrunc (KofZ (nv_ m) ⊗ alpha)))) in
  let! _ := modify (set_nh nh) in
  let! usea := lift (to_bool (FieldOrDefaultVal pars "UseVisibleBias"
                                                (JBool true))) in
  let! _ := modify (set_usea usea) in
  let! useb := lift (to_bool (FieldOrDefaultVal pars "UseHiddenBias"
                                                (JBool true))) in
  let! _ := modify (set_useb useb) in
  let! _ := run (Init h) in
  let! _ := if FieldExists pars "a" then
              let! a := lift (let? j := json_at pars "a" in to_vec j) in
              modify (set_a a)
            else modify (λ m, set_a (setZero (a_ m)) m) in
  let! _ := if FieldExists pars "b" then
              let! b := lift (let? j := json_at pars "b" in to_vec j) in
              modify (set_b b)
            else modify (λ m, set_b (setZero (b_ m)) m) in
  if FieldExists pars "W" then
    let! W := lift (let? j := json_at pars "W" in to_mat j) in
    modify (set_W W)
  else ret tt.

Definition IsHolomorphic : bool := true.

(** ** What the operations are meant to compute (spec.md, sections 3 and 4) *)

(** The vector with a 1 at [i] and 0 elsewhere. *)
Definition onehot (n i : nat) : list K := <[i := K1]> (replicate n K0).

(** [IndexOf]: the position of a local value among the legal ones. *)
Definition IndexOf (states : list K) (x : K) : option nat :=
  fst <$> list_find (λ s, s = x) states.

(** [Encode]: one block per site, with a 1 at the index of the site's value
    (a value that is not legal leaves its block at 0). *)
Definition block (states : list K) (x : K) : list K :=
  match IndexOf states x with
  | Some i => onehot (length states) i
  | None => replicate (length states) K0
  end.

Definition Encode (h : Hilbert) (v : list K) : list K :=
  flat_map (block (LocalStates h)) v.

(** [theta = W^T . vtilde + b]. *)
Definition theta (h : Hilbert) (m : Machine) (v : list K) : list K :=
  zip_with Kadd (rows_sum (length (b_ m)) (W_ m) (Encode h v)) (b_ m).

(** The extended index [ls * s + IndexOf x] of the value [x] at the site [s]. *)
Definition ext_index (h : Hilbert) (s : Z) (x : K) : nat :=
  Z.to_nat (LocalSize h * s
            + Z.of_nat (default 0%nat (IndexOf (LocalStates h) x))).

(** One change [(s, x)] of a move on a cached vector: minus the row of the
    value that the base configuration [v] has at [s], plus the row of [x]. *)
Definition row_change (h : Hilbert) (W : list (list K)) (v th : list K)
    (c : Z * K) : list K :=
  zip_with Kadd
    (zip_with Ksub th (W !!! ext_index h c.1 (v !!! Z.to_nat c.1)))
    (W !!! ext_index h c.1 c.2).

Definition row_updates (h : Hilbert) (W : list (list K)) (v : list K)
    (changes : list (Z * K)) (th : list K) : list K :=
  foldl (row_change h W v) th changes.

(** The sum over the changed sites of [a[new] - a[old]]. *)
Definition bias_delta (h : Hilbert) (a v : list K) (changes : list (Z * K))
  : K :=
  foldr (λ c acc, (a !!! ext_index h c.1 c.2
                   ⊖ a !!! ext_index h c.1 (v !!! Z.to_nat c.1)) ⊕ acc)
        K0 changes.

(** [biasDelta + SumLogCosh(theta') - SumLogCosh(theta_base)]. *)
Definition log_ratio (h : Hilbert) (m : Machine) (v : list K)
    (changes : list (Z * K)) : K :=
  bias_delta h (a_ m) v changes
  ⊕ SumLogCosh (row_updates h (W_ m) v changes (theta h m v))
  ⊖ SumLogCosh (theta h m v).

(** The configuration after a move. *)
Definition apply_changes (v : list K) (changes : list (Z * K)) : list K :=
  foldl (λ v c, <[Z.to_nat c.1 := c.2]> v) v changes.

(** The flatten order: [a] if enabled, [b] if enabled, [W] row by row. *)
Definition flatten (usea useb : bool) (a b : list K) (W : list (list K))
  : list K :=
  (if usea then a else []) ++ (if useb then b else []) ++ concat W.

Definition npar_formula (nv ls nh : Z) (usea useb : bool) : Z :=
  nv * ls * nh + (if usea then nv * ls else 0) + (if useb then nh else 0).

(** The entries of the gradient for [W]: [tanh(theta_j) * vtilde_i]. *)
Definition der_W (lnthetas vt : list K) : list (list K) :=
  map (λ x, map (λ t, t ⊗ x) lnthetas) vt.

(** A walk of the sampler: each move updates the lookup against the
    current configuration and then the configuration itself. *)
Fixpoint UpdateLookups (moves : list (list Z * list K)) (v : list K)
    (lookup : option (list K)) : Method (list K * option (list K)) :=
  match moves with
  | [] => ret (v, lookup)
  | mv :: moves =>
      let! lookup := UpdateLookup v mv.1 mv.2 lookup in
      UpdateLookups moves (apply_changes v (zip mv.1 mv.2)) lookup
  end.

(** ** Invariants *)

(** The configuration space is consistent: [LocalSize] counts the distinct
    [LocalStates]. *)
Definition hilbert_ok (h : Hilbert) : Prop :=
  0 ≤ Size h ∧ 0 ≤ LocalSize h
  ∧ length (LocalStates h) = Z.to_nat (LocalSize h)
  ∧ NoDup (LocalStates h).

(** The parameters have the sizes that the dimensions give. *)
Record Sized (m : Machine) : Prop := {
  sized_rows : 0 ≤ nv_ m * ls_ m;
  sized_nh : 0 ≤ nh_ m;
  sized_npar :
    npar_ m = npar_formula (nv_ m) (ls_ m) (nh_ m) (usea_ m) (useb_ m);
  sized_W : length (W_ m) = Z.to_nat (nv_ m * ls_ m);
  sized_W_rows : Forall (λ r, length r = Z.to_nat (nh_ m)) (W_ m);
  sized_a : length (a_ m) = Z.to_nat (nv_ m * ls_ m);
  sized_b : length (b_ m) = Z.to_nat (nh_ m)
}.

(** What [Init] establishes and every method keeps. *)
Record Inv (h : Hilbert) (m : Machine) : Prop := {
  inv_hilbert : hilbert_ok h;
  inv_sized : Sized m;
  inv_nv : nv_ m = Size h;
  inv_ls : ls_ m = LocalSize h;
  inv_localconfs :
    localconfs_ m = concat (replicate (Z.to_nat (nv_ m)) (LocalStates h));
  inv_mask :
    mask_ m = map (λ i, onehot (Z.to_nat (nv_ m)) (i `div` Z.to_nat (ls_ m)))
                  (seq 0 (Z.to_nat (nv_ m * ls_ m)));
  inv_confindex :
    ∀ i x, LocalStates h !! i = Some x → confindex_ m !! x = Some (Z.of_nat i)
}.

(** The dimensions are numbers of [int], and so are the two counts that
    the code computes from them in [int]: the rows [nv * ls] and the
    number of parameters. *)
Definition dims_fit (nv ls nh : Z) (usea useb : bool) : Prop :=
  int_range nv ∧ int_range ls ∧ int_range nh ∧ int_range (nv * ls)
  ∧ int_range (npar_formula nv ls nh usea useb).

(** A configuration: one legal value per site. *)
Definition legal (h : Hilbert) (v : list K) : Prop :=
  length v = Z.to_nat (Size h) ∧ Forall (λ x, x ∈ LocalStates h) v.

(** A move: sites of the lattice, each with a legal new value. *)
Definition valid_move (h : Hilbert) (tochange : list Z) (newconf : list K)
  : Prop :=
  length tochange = length newconf
  ∧ Forall (λ s, 0 ≤ s < Size h) tochange
  ∧ Forall (λ x, x ∈ LocalStates h) newconf.

(** ** Auxiliary definitions of the proofs *)

(** The parameter count as [Init] computes it. *)
Definition Init_npar (nv ls nh : Z) (usea useb : bool) : Z :=
  let npar := int_of (int_of (nv * nh) * ls) in
  let npar := if usea then int_of (npar + int_of (nv * ls)) else npar in
  if useb then int_of (npar + nh) else npar.

(** The rows that the last loop of [SetParameters] reads, from position [k]. *)
Definition rows_of (pars : list K) (k c n : nat) : list (list K) :=
  map (λ t, take c (drop (k + t * c) pars)) (seq 0 n).

(** The members after [SetParameters pars]. *)
Definition a_of (m : Machine) (pars : list K) : list K :=
  if usea_ m then take (Z.to_nat (nv_ m * ls_ m)) pars else a_ m.
Definition b_pos (m : Machine) : nat :=
  if usea_ m then Z.to_nat (nv_ m * ls_ m) else 0%nat.
Definition b_of (m : Machine) (pars : list K) : list K :=
  if useb_ m then take (Z.to_nat (nh_ m)) (drop (b_pos m) pars) else b_ m.
Definition W_pos (m : Machine) : nat :=
  (b_pos m + if useb_ m then Z.to_nat (nh_ m) else 0)%nat.
Definition W_of (m : Machine) (pars : list K) : list (list K) :=
  rows_of pars (W_pos m) (Z.to_nat (nh_ m)) (Z.to_nat (nv_ m * ls_ m)).

(** A move is a list of changes of distinct sites. *)
Definition valid_changes (h : Hilbert) (changes : list (Z * K)) : Prop :=
  Forall (λ c, 0 ≤ c.1 < Size h ∧ c.2 ∈ LocalStates h) changes
  ∧ NoDup (changes.*1).

(** The configuration after a walk. *)
Definition walk (v : list K) (moves : list (list Z * list K)) : list K :=
  foldl (λ v mv, apply_changes v (zip mv.1 mv.2)) v moves.

(** The accumulation of the bias terms in the order of the code. *)
Definition bias_code (h : Hilbert) (a v : list K) (changes : list (Z * K)) (acc : K) : K :=
  foldl (λ acc c, (acc ⊖ a !!! ext_index h c.1 (v !!! Z.to_nat c.1))
                  ⊕ a !!! ext_index h c.1 c.2) acc changes.

(** The entry of [logvaldiffs] for one move, as the code computes it from
    the vector [th] that [ComputeTheta] returned. *)
Definition ratio_code (h : Hilbert) (m : Machine) (v th : list K) (mv : list Z * list K) : K :=
  if decide (mv.1 = []) then K0
  else bias_code h (a_ m) v (zip mv.1 mv.2) K0
       ⊕ (SumLogCosh (row_updates h (W_ m) v (zip mv.1 mv.2) th)
          ⊖ SumLogCosh th).

(** The members that the evaluations read, besides scratch members: two
    machines agree when these are equal and [confindex_] answers alike
    (an absent key answers 0, as it does once it was entered); at level 1
    also [thetas_], at level 2 also [thetasnew_]. *)
Definition agree (lvl : nat) (m m' : Machine) : Prop :=
  ls_ m = ls_ m' ∧ a_ m = a_ m' ∧ b_ m = b_ m' ∧ W_ m = W_ m'
  ∧ localconfs_ m = localconfs_ m' ∧ mask_ m = mask_ m'
  ∧ (∀ x, default 0 (confindex_ m !! x) = default 0 (confindex_ m' !! x))
  ∧ ((1 ≤ lvl)%nat → thetas_ m = thetas_ m')
  ∧ ((2 ≤ lvl)%nat → thetasnew_ m = thetasnew_ m').

(** A method keeps a property of the machine, however it ends. *)
Definition preserves {A} (P : Machine → Prop) (c : Method A) : Prop :=
  ∀ m, P m → P (c m).1.

(** Two runs from related machines end alike: both with related results
    and machines related by [R'], or both with the same error. *)
Definition rel {A} (R R' : Machine → Machine → Prop) (RA : A → A → Prop)
    (c c' : Method A) : Prop :=
  ∀ m m', R m m' →
    match (c m).2, (c' m').2 with
    | Ok a, Ok a' => RA a a' ∧ R' (c m).1 (c' m').1
    | Err e, Err e' => e = e'
    | _, _ => False
    end.

(** The dimensions, the flags, the parameters and the two tables of [m']
    are the ones of [m], and [confindex_] holds what it held, and besides
    at most keys it did not hold, with the value 0. *)
Definition same_model (m m' : Machine) : Prop :=
  nv_ m' = nv_ m ∧ ls_ m' = ls_ m ∧ nh_ m' = nh_ m
  ∧ usea_ m' = usea_ m ∧ useb_ m' = useb_ m ∧ npar_ m' = npar_ m
  ∧ W_ m' = W_ m ∧ a_ m' = a_ m ∧ b_ m' = b_ m
  ∧ localconfs_ m' = localconfs_ m ∧ mask_ m' = mask_ m
  ∧ ∀ x, confindex_ m' !! x = confindex_ m !! x
         ∨ (confindex_ m !! x = None ∧ confindex_ m' !! x = Some 0).

End RbmMultival.

Arguments Hilbert K : clear implicits.
Arguments Machine K {_ _}.
Arguments Method K {_ _} A.

Notation "'let!' x ':=' c 'in' k" := (bind c (fun x => k))
  (at level 10, x pattern, c at level 100, k at level 200).

(** ** An instance to run the machine: integers as scalars

    [tanh] and [SumLogCosh] are stand-ins; nothing is assumed about them. *)

#[global] Instance Z_scalar : Scalar Z := {|
  K0 := 0; K1 := 1; Kadd := Z.add; Kmul := Z.mul; Ksub := Z.sub;
  Kopp := Z.opp; Ktanh := Z.sgn; SumLogCosh := foldr (λ x acc, Z.abs x + acc) 0;
  uninit := 0; KofZ := id; Ktrunc := id |}.

(** The scenario of spec.md, section 8: two sites with the local values
    -1 and +1, two hidden units, both biases. *)
Definition spin_half : Hilbert Z :=
  {| Size := 2; LocalSize := 2; LocalStates := [-1; 1] |}.

Definition example_pars : list Z :=
  [1; 2; 3; 4; 5; 6; 10; 11; 12; 13; 14; 15; 16; 17].

Definition example_machine : Machine Z :=
  {| nv_ := 2; ls_ := 2; nh_ := 2; usea_ := true; useb_ := true; npar_ := 14;
     W_ := [[10; 11]; [12; 13]; [14; 15]; [16; 17]]; a_ := [1; 2; 3; 4];
     b_ := [5; 6]; thetas_ := [0; 0]; lnthetas_ := [0; 0];
     thetasnew_ := [0; 0]; lnthetasnew_ := [0; 0];
     localconfs_ := [-1; 1; -1; 1];
     mask_ := [[1; 0]; [1; 0]; [0; 1]; [0; 1]];
     confindex_ := <[1 := 1]> (<[-1 := 0]> ∅); vtilde_ := [0; 0; 0; 0] |}.

(** * Properties *)

(** ** Loops *)

Lemma rbind_Ok {A B} (c : result A) (f : A → result B) (b : B) :
  rbind c f = Ok b → ∃ a, c = Ok a ∧ f a = Ok b.
Proof. destruct c as [a|e]; simpl; [eauto | discriminate]. Qed.

Lemma for_loop_add {St} (body : nat → St → result St) (n1 n2 lo : nat) (s : St) :
  for_loop body lo (n1 + n2) s
  = let? s' := for_loop body lo n1 s in for_loop body (lo + n1) n2 s'.
Proof.
  revert lo s. induction n1 as [|n1 IH]; intros lo s; simpl.
  - by rewrite Nat.add_0_r.
  - destruct (body lo s) as [s'|e]; simpl; [|done].
    rewrite IH. by replace (lo + S n1)%nat with (S lo + n1)%nat by lia.
Qed.

Lemma for_loop_ext {St} (f g : nat → St → result St) (lo n : nat) (s : St) :
  (∀ i s, (lo ≤ i < lo + n)%nat → f i s = g i s) →
  for_loop f lo n s = for_loop g lo n s.
Proof.
  revert lo s. induction n as [|n IH]; intros lo s Hfg; simpl; [done|].
  rewrite Hfg by lia. destruct (g lo s); simpl; [|done].
  apply IH. intros. apply Hfg. lia.
Qed.

(** An invariant of a loop that cannot fail while it holds. *)
Lemma for_loop_inv {St} (P : nat → St → Prop) (body : nat → St → result St)
    (n lo : nat) (s : St) :
  P lo s →
  (∀ i s, (lo ≤ i < lo + n)%nat → P i s →
          ∃ s', body i s = Ok s' ∧ P (S i) s') →
  ∃ s', for_loop body lo n s = Ok s' ∧ P (lo + n)%nat s'.
Proof.
  revert lo s. induction n as [|n IH]; intros lo s HP Hstep; simpl.
  - exists s. by rewrite Nat.add_0_r.
  - destruct (Hstep lo s) as (s' & -> & HP'); [lia|done|]. simpl.
    replace (lo + S n)%nat with (S lo + n)%nat by lia.
    apply IH; [done|]. intros. apply Hstep; [lia|done].
Qed.

Section Properties.

Context {K : Type} {KEq : EqDecision K} {KCount : Countable K}
  {KScalar : Scalar K}.

Implicit Types (m : Machine K) (h : Hilbert K) (v th a b : list K).
Implicit Types (W : list (list K)).

(** *** Loops that fill a vector: [x(k) = c; k++] *)

Lemma assign_next_Ok (c : K) (d : list K) (k : nat) :
  (k < length d)%nat → assign_next c (d, k) = Ok (<[k := c]> d, S k).
Proof. intros Hk. unfold assign_next, put. simpl. by rewrite decide_True. Qed.

Lemma assign_loop (body : nat → list K * nat → result (list K * nat))
    (xs : list K) (lo : nat) (d : list K) (k : nat) :
  (k + length xs ≤ length d)%nat →
  (∀ i x d', xs !! i = Some x → length d' = length d →
     body (lo + i)%nat (d', (k + i)%nat) = assign_next x (d', (k + i)%nat)) →
  for_loop body lo (length xs) (d, k)
  = Ok (take k d ++ xs ++ drop (k + length xs) d, (k + length xs)%nat).
Proof.
  revert lo d k. induction xs as [|x xs IH]; intros lo d k Hlen Hbody; simpl.
  - by rewrite !Nat.add_0_r, take_drop.
  - simpl in Hlen. pose proof (Hbody 0%nat x d eq_refl eq_refl) as H0.
    rewrite !Nat.add_0_r in H0. rewrite H0, assign_next_Ok by lia. simpl.
    rewrite IH.
    + rewrite (take_S_r _ _ x) by (apply list_lookup_insert_eq; lia).
      rewrite take_insert_ge, drop_insert_lt by lia.
      rewrite <- app_assoc. simpl.
      by replace (k + S (length xs))%nat with (S k + length xs)%nat by lia.
    + rewrite length_insert. lia.
    + intros i y d' Hy Hd'. rewrite length_insert in Hd'.
      replace (S lo + i)%nat with (lo + S i)%nat by lia.
      replace (S k + i)%nat with (k + S i)%nat by lia.
      by apply Hbody.
Qed.

(** The same for a matrix, row after row. *)
Lemma assign_loop_rows (body : nat → nat → list K * nat → result (list K * nat))
    (M : list (list K)) (c : nat) (lo : nat) (d : list K) (k : nat) :
  Forall (λ r, length r = c) M →
  (k + length (concat M) ≤ length d)%nat →
  (∀ i j r x d' k', M !! i = Some r → r !! j = Some x →
     length d' = length d →
     body (lo + i)%nat j (d', k') = assign_next x (d', k')) →
  for_loop (λ i st, for_loop (body i) 0 c st) lo (length M) (d, k)
  = Ok (take k d ++ concat M ++ drop (k + length (concat M)) d,
        (k + length (concat M))%nat).
Proof.
  revert lo d k. induction M as [|r M IH]; intros lo d k Hc Hlen Hbody; simpl.
  - by rewrite !Nat.add_0_r, take_drop.
  - apply Forall_cons in Hc as [Hr Hc]. simpl in Hlen.
    rewrite length_app in Hlen. subst c.
    rewrite (assign_loop (body lo) r 0 d k); [|lia|].
    + simpl. rewrite IH; [| done | |].
      * rewrite length_app.
        rewrite take_app_ge by (rewrite length_take; lia).
        rewrite length_take_le by lia.
        rewrite take_app_ge by lia.
        replace (k + length r - k - length r)%nat with 0%nat by lia.
        rewrite take_0, app_nil_r.
        rewrite !drop_app_ge by (rewrite ?length_take; lia).
        rewrite length_take_le by lia. rewrite drop_drop.
        rewrite <- !app_assoc.
        replace (k + length r + (k + length r + length (concat M) - k
                                 - length r))%nat
          with (k + (length r + length (concat M)))%nat by lia.
        by replace (k + length r + length (concat M))%nat
          with (k + (length r + length (concat M)))%nat by lia.
      * rewrite !length_app, length_take_le, length_drop by lia. lia.
      * intros i j r' x d' k' Hr' Hx Hd'.
        replace (S lo + i)%nat with (lo + S i)%nat by lia.
        apply (Hbody (S i) j r'); [done..|].
        rewrite Hd', !length_app, length_take_le, length_drop by lia. lia.
    + intros i x d' Hx Hd'. simpl.
      pose proof (Hbody 0%nat i r x d' (k + i)%nat eq_refl Hx Hd') as Hb.
      by rewrite Nat.add_0_r in Hb.
Qed.

Lemma length_concat_rows (M : list (list K)) (c : nat) :
  Forall (λ r, length r = c) M → length (concat M) = (length M * c)%nat.
Proof.
  induction 1 as [|r M Hr _ IH]; simpl; [done|].
  rewrite length_app, IH, Hr. lia.
Qed.

Lemma size_of_Ok (n : Z) : 0 ≤ n → size_of n = Ok (Z.to_nat n).
Proof. intros Hn. unfold size_of. by rewrite decide_True. Qed.

Lemma at_Ok {A} (l : list A) (i : nat) (x : A) : l !! i = Some x → at_ l i = Ok x.
Proof. intros Hx. unfold at_. by rewrite Hx. Qed.

Lemma length_flatten (usea useb : bool) a b W (c : nat) :
  Forall (λ r, length r = c) W →
  length (flatten usea useb a b W)
  = ((if usea then length a else 0) + (if useb then length b else 0)
     + length W * c)%nat.
Proof.
  intros HW. unfold flatten. rewrite !length_app, (length_concat_rows W c HW).
  destruct usea, useb; simpl; lia.
Qed.

(** *** The sizes of a machine *)

Lemma Sized_npar_nonneg m : Sized m → 0 ≤ npar_ m.
Proof.
  intros [Hr Hh Hn _ _ _ _]. rewrite Hn. unfold npar_formula.
  destruct (usea_ m), (useb_ m); nia.
Qed.

Lemma Sized_length_flatten m :
  Sized m →
  length (flatten (usea_ m) (useb_ m) (a_ m) (b_ m) (W_ m))
  = Z.to_nat (npar_ m).
Proof.
  intros [Hr Hh Hn HW HWr Ha Hb].
  rewrite (length_flatten _ _ _ _ _ _ HWr), Ha, Hb, HW, Hn.
  unfold npar_formula. destruct (usea_ m), (useb_ m); nia.
Qed.

(** [GetParameters] returns the parameters in the flatten order. *)
Lemma GetParameters_flatten m :
  Sized m →
  GetParameters m = Ok (flatten (usea_ m) (useb_ m) (a_ m) (b_ m) (W_ m)).
Proof.
  intros Hs. pose proof (Sized_length_flatten m Hs) as Hlen.
  pose proof (Sized_npar_nonneg m Hs) as Hnp.
  destruct Hs as [Hr Hh Hn HW HWr Ha Hb].
  rewrite (length_flatten _ _ _ _ _ _ HWr) in Hlen.
  unfold GetParameters. rewrite size_of_Ok by done. simpl.
  set (d := replicate (Z.to_nat (npar_ m)) uninit).
  assert (length d = Z.to_nat (npar_ m)) as Hd by apply length_replicate.
  assert (∃ d1 k1,
    (if usea_ m
     then for_loop (λ _ st, let? c := at_ (a_ m) st.2 in assign_next c st)
                   0 (Z.to_nat (nv_ m * ls_ m)) (d, 0%nat)
     else Ok (d, 0%nat)) = Ok (d1, k1)
    ∧ k1 = (if usea_ m then length (a_ m) else 0)%nat
    ∧ length d1 = length d
    ∧ take k1 d1 = (if usea_ m then a_ m else [])) as (d1 & k1 & -> & Hk1 & Hd1 & Ht1).
  { destruct (usea_ m).
    - rewrite <- Ha, (assign_loop _ (a_ m) 0 d 0); [| lia |].
      + do 2 eexists. split; [done|]. simpl. split; [done|].
        rewrite length_app, length_drop. split; [lia|].
        by rewrite take_app_length.
      + intros i x d' Hx _. simpl. by rewrite (at_Ok _ _ _ Hx).
    - by exists d, 0%nat. }
  simpl.
  assert (∃ d2 k2,
    (if useb_ m
     then for_loop (λ p st, let? c := at_ (b_ m) p in assign_next c st)
                   0 (Z.to_nat (nh_ m)) (d1, k1)
     else Ok (d1, k1)) = Ok (d2, k2)
    ∧ k2 = (k1 + if useb_ m then length (b_ m) else 0)%nat
    ∧ length d2 = length d
    ∧ take k2 d2 = (if usea_ m then a_ m else [])
                   ++ (if useb_ m then b_ m else [])) as (d2 & k2 & -> & Hk2 & Hd2 & Ht2).
  { destruct (useb_ m).
    - rewrite <- Hb, (assign_loop _ (b_ m) 0 d1 k1);
        [| destruct (usea_ m); lia |].
      + do 2 eexists. split; [done|]. split; [done|].
        assert (k1 + length (b_ m) ≤ length d1)%nat by (destruct (usea_ m); lia).
        rewrite !length_app, length_take_le, length_drop by lia.
        split; [lia|].
        rewrite app_assoc, take_app_length'; [by rewrite Ht1|].
        rewrite length_app, length_take_le; lia.
      + intros i x d' Hx _. simpl. by rewrite (at_Ok _ _ _ Hx).
    - exists d1, k1. rewrite Nat.add_0_r, app_nil_r. done. }
  simpl.
  assert (k2 + length (concat (W_ m)) = length d2)%nat as Hfull.
  { rewrite (length_concat_rows _ _ HWr), Hk2, Hk1.
    destruct (usea_ m), (useb_ m); lia. }
  rewrite <- HW.
  rewrite (assign_loop_rows
             (λ i j st, let? c := at2 (W_ m) i j in assign_next c st)
             (W_ m) (Z.to_nat (nh_ m)) 0 d2 k2); [| done | lia |].
  - simpl. rewrite Hfull, drop_all, app_nil_r, Ht2.
    unfold flatten. by rewrite app_assoc.
  - intros i j r x d' k' Hr' Hx _. simpl. unfold at2.
    by rewrite (at_Ok _ _ _ Hr'); simpl; rewrite (at_Ok _ _ _ Hx).
Qed.

(** *** Init *)

Lemma resize_vec_Ok (n : Z) (old x : list K) :
  resize_vec n old = Ok x → 0 ≤ n ∧ length x = Z.to_nat n.
Proof.
  unfold resize_vec, size_of. destruct (decide (0 ≤ n)); simpl; [|done].
  intros [= <-]. split; [done|].
  destruct (decide _); [done | apply length_replicate].
Qed.

Lemma resize_mat_Ok (r c : Z) (old M : list (list K)) :
  resize_mat r c old = Ok M →
  0 ≤ r ∧ 0 ≤ c ∧ length M = Z.to_nat r
  ∧ Forall (λ x, length x = Z.to_nat c) M.
Proof.
  unfold resize_mat, size_of.
  destruct (decide (0 ≤ r)); simpl; [|done].
  destruct (decide (0 ≤ c)); simpl; [|done].
  intros [= <-]. do 2 (split; [done|]).
  destruct (decide _) as [[? ?]|_]; [done|].
  split; [apply length_replicate|].
  apply Forall_replicate, length_replicate.
Qed.

Lemma length_setZero (x : list K) : length (setZero x) = length x.
Proof. apply length_replicate. Qed.

Ltac inv_bind H :=
  let x := fresh "x" in
  let Hx := fresh "H" x in
  apply rbind_Ok in H as (x & Hx & H).

(** *** Arithmetic in int *)

Lemma int_of_range (z : Z) : int_range (int_of z).
Proof.
  unfold int_range, int_of.
  pose proof (Z.mod_pos_bound (z + 2147483648) 4294967296). lia.
Qed.

Lemma int_of_id (z : Z) : int_range z → int_of z = z.
Proof.
  unfold int_range, int_of. intros Hz. rewrite Z.mod_small; lia.
Qed.

Lemma int_of_shift (z k : Z) : int_of (z + k * 4294967296) = int_of z.
Proof.
  unfold int_of.
  replace (z + k * 4294967296 + 2147483648)
    with (z + 2147483648 + k * 4294967296) by lia.
  by rewrite Z_mod_plus_full.
Qed.

Lemma int_of_spec (z : Z) : ∃ k, int_of z = z + k * 4294967296.
Proof.
  exists (- ((z + 2147483648) `div` 4294967296)). unfold int_of.
  pose proof (Z.div_mod (z + 2147483648) 4294967296). lia.
Qed.

Lemma int_of_mul_l (x y : Z) : int_of (int_of x * y) = int_of (x * y).
Proof.
  destruct (int_of_spec x) as [k ->].
  replace ((x + k * 4294967296) * y) with (x * y + (k * y) * 4294967296)
    by lia.
  apply int_of_shift.
Qed.

Lemma int_of_add (x y : Z) : int_of (int_of x + int_of y) = int_of (x + y).
Proof.
  destruct (int_of_spec x) as [k ->], (int_of_spec y) as [l ->].
  replace (x + k * 4294967296 + (y + l * 4294967296))
    with (x + y + (k + l) * 4294967296) by lia.
  apply int_of_shift.
Qed.

Lemma int_of_add_l (x y : Z) : int_of (int_of x + y) = int_of (x + y).
Proof.
  destruct (int_of_spec x) as [k ->].
  replace (x + k * 4294967296 + y) with (x + y + k * 4294967296) by lia.
  apply int_of_shift.
Qed.

(** The count of [Init] is the formula, reduced to [int] once. *)
Lemma Init_npar_formula (nv ls nh : Z) (usea useb : bool) :
  Init_npar nv ls nh usea useb = int_of (npar_formula nv ls nh usea useb).
Proof.
  unfold Init_npar, npar_formula. cbv zeta. rewrite int_of_mul_l.
  destruct usea, useb; rewrite ?int_of_add, ?int_of_add_l;
    f_equal; lia.
Qed.

(** What a successful [Init] did, member by member. *)
Lemma Init_Ok h m0 m :
  Init h m0 = Ok m →
  let rows := int_of (nv_ m0 * ls_ m0) in
  ∃ lc0 mask0,
    resize_mat rows (nh_ m0) (W_ m0) = Ok (W_ m)
    ∧ (∃ a, resize_vec rows (a_ m0) = Ok a
            ∧ a_ m = if usea_ m0 then a else setZero a)
    ∧ (∃ b, resize_vec (nh_ m0) (b_ m0) = Ok b
            ∧ b_ m = if useb_ m0 then b else setZero b)
    ∧ resize_vec rows (localconfs_ m0) = Ok lc0
    ∧ Init_localconfs rows (ls_ m0) (LocalStates h) lc0
      = Ok (localconfs_ m)
    ∧ resize_mat rows (nv_ m0) (mask_ m0) = Ok mask0
    ∧ Init_mask rows (ls_ m0) (map setZero mask0) = Ok (mask_ m)
    ∧ Init_confindex (ls_ m0) (LocalStates h) (confindex_ m0)
      = Ok (confindex_ m)
    ∧ nv_ m = nv_ m0 ∧ ls_ m = ls_ m0 ∧ nh_ m = nh_ m0
    ∧ usea_ m = usea_ m0 ∧ useb_ m = useb_ m0
    ∧ npar_ m = Init_npar (nv_ m0) (ls_ m0) (nh_ m0) (usea_ m0) (useb_ m0).
Proof.
  unfold Init. intros Hi. repeat inv_bind Hi. simpl in Hi.
  repeat inv_bind Hi. injection Hi as <-. simpl.
  exists x6, x8. repeat (split; [by eauto|]).
  unfold Init_npar. by destruct (usea_ m0), (useb_ m0).
Qed.

(** When the rows and the count fit in [int], the machine that [Init]
    returns has the sizes of its dimensions. *)
Lemma Init_Sized h m0 m :
  int_range (nv_ m0 * ls_ m0) →
  int_range (npar_formula (nv_ m0) (ls_ m0) (nh_ m0) (usea_ m0) (useb_ m0)) →
  Init h m0 = Ok m → Sized m.
Proof.
  intros Hrows Hfits Hi. apply Init_Ok in Hi
    as (lc0 & mask0 & HW & (a & Ha & Ha') & (b & Hb & Hb') & _ & _ & _ & _ & _
        & Hnv & Hls & Hnh & Hua & Hub & Hnp).
  rewrite (int_of_id _ Hrows) in HW, Ha.
  rewrite Init_npar_formula, (int_of_id _ Hfits) in Hnp.
  apply resize_mat_Ok in HW as (Hr & Hh & HW & HWr).
  apply resize_vec_Ok in Ha as [_ Ha]. apply resize_vec_Ok in Hb as [_ Hb].
  split; rewrite ?Hnv, ?Hls, ?Hnh, ?Hua, ?Hub; try done.
  - rewrite Ha'. destruct (usea_ m0); [done|]. by rewrite length_setZero.
  - rewrite Hb'. destruct (useb_ m0); [done|]. by rewrite length_setZero.
Qed.

(** *** Loops that read a vector: [x(i) = pars(k); k++] *)

Lemma read_next_Ok (pars x : list K) (i k : nat) (c : K) :
  pars !! k = Some c → (i < length x)%nat →
  read_next pars i (x, k) = Ok (<[i := c]> x, S k).
Proof.
  intros Hc Hi. unfold read_next, put. simpl.
  rewrite (at_Ok _ _ _ Hc). simpl. by rewrite decide_True.
Qed.

Lemma read_loop (body : nat → list K * nat → result (list K * nat))
    (pars : list K) (n lo k : nat) (x : list K) (pos : nat) :
  (pos + n ≤ length x)%nat → (k + n ≤ length pars)%nat →
  (∀ i x', (i < n)%nat → length x' = length x →
     body (lo + i)%nat (x', (k + i)%nat)
     = read_next pars (pos + i) (x', (k + i)%nat)) →
  for_loop body lo n (x, k)
  = Ok (take pos x ++ take n (drop k pars) ++ drop (pos + n) x, (k + n)%nat).
Proof.
  revert lo k x pos.
  induction n as [|n IH]; intros lo k x pos Hx Hp Hbody; simpl.
  - by rewrite !Nat.add_0_r, take_drop.
  - destruct (lookup_lt_is_Some_2 pars k) as [c Hc]; [lia|].
    pose proof (Hbody 0%nat x ltac:(lia) eq_refl) as Hb.
    rewrite !Nat.add_0_r in Hb. rewrite Hb, (read_next_Ok _ _ _ _ c) by (done || lia).
    simpl. rewrite (IH _ _ _ (S pos)).
    + rewrite (take_S_r _ _ c) by (apply list_lookup_insert_eq; lia).
      rewrite take_insert_ge, drop_insert_lt by lia.
      rewrite (drop_S _ _ _ Hc). simpl. rewrite <- app_assoc. simpl.
      replace (pos + S n)%nat with (S (pos + n)) by lia.
      by replace (k + S n)%nat with (S (k + n)) by lia.
    + rewrite length_insert. lia.
    + lia.
    + intros i x' Hi Hx'. rewrite length_insert in Hx'.
      replace (S lo + i)%nat with (lo + S i)%nat by lia.
      replace (S k + i)%nat with (k + S i)%nat by lia.
      replace (S pos + i)%nat with (pos + S i)%nat by lia.
      apply Hbody; [lia|done].
Qed.

(** One row of a matrix. *)
Lemma read_loop_row (pars : list K) (M : list (list K)) (i k c : nat)
    (r : list K) :
  M !! i = Some r → length r = c → (k + c ≤ length pars)%nat →
  for_loop (λ j st, read_next2 pars i j st) 0 c (M, k)
  = Ok (<[i := take c (drop k pars)]> M, (k + c)%nat).
Proof.
  intros Hr Hc Hp.
  destruct (for_loop_inv
    (λ j st, (j ≤ c)%nat
             ∧ st = (<[i := take j (drop k pars) ++ drop j r]> M, (k + j)%nat))
    (λ j st, read_next2 pars i j st) c 0 (M, k)) as (st & -> & _ & ->).
  - split; [lia|]. simpl. by rewrite Nat.add_0_r, drop_0, list_insert_id.
  - intros j st [_ Hj] [_ ->].
    destruct (lookup_lt_is_Some_2 pars (k + j)) as [x Hx]; [lia|].
    exists (<[i := take (S j) (drop k pars) ++ drop (S j) r]> M, (k + S j)%nat).
    split; [|split; [lia|done]].
    unfold read_next2. simpl. rewrite (at_Ok _ _ _ Hx). simpl.
    unfold put2, putZ, put.
    assert (i < length M)%nat as Hi by by eapply lookup_lt_Some.
    rewrite (at_Ok _ _ (take j (drop k pars) ++ drop j r))
      by (apply list_lookup_insert_eq; lia).
    simpl. rewrite decide_True by lia. rewrite Nat2Z.id.
    assert (length (take j (drop k pars)) = j) as Htk
      by (rewrite length_take_le; [done|rewrite length_drop; lia]).
    rewrite decide_True by (rewrite length_app, Htk, length_drop; lia).
    simpl. rewrite decide_True by (rewrite length_insert; lia).
    rewrite list_insert_insert_eq.
    replace (k + S j)%nat with (S (k + j)) by lia.
    enough (<[j:=x]> (take j (drop k pars) ++ drop j r)
            = take (S j) (drop k pars) ++ drop (S j) r) as -> by done.
    rewrite insert_app_r_alt by lia. rewrite Htk, Nat.sub_diag.
    rewrite (take_S_r _ j x) by (by rewrite lookup_drop).
    destruct (lookup_lt_is_Some_2 r j) as [y Hy]; [lia|].
    rewrite (drop_S _ _ _ Hy). simpl. by rewrite <- app_assoc.
  - simpl. by rewrite (drop_ge r), app_nil_r by lia.
Qed.

Lemma read_loop_rows (pars : list K) (M : list (list K)) (k c : nat) :
  Forall (λ r, length r = c) M →
  (k + length M * c ≤ length pars)%nat →
  for_loop (λ i st, for_loop (λ j st, read_next2 pars i j st) 0 c st)
           0 (length M) (M, k)
  = Ok (rows_of pars k c (length M), (k + length M * c)%nat).
Proof.
  intros HM Hp.
  destruct (for_loop_inv
    (λ i st, (i ≤ length M)%nat
             ∧ st = (rows_of pars k c i ++ drop i M, (k + i * c)%nat))
    (λ i st, for_loop (λ j st, read_next2 pars i j st) 0 c st)
    (length M) 0 (M, k)) as (st & -> & _ & ->).
  - split; [lia|]. simpl. by rewrite Nat.add_0_r.
  - intros i st [_ Hi] [_ ->].
    destruct (lookup_lt_is_Some_2 M i) as [r Hr]; [lia|].
    assert (length (rows_of pars k c i) = i) as Hlen
      by (unfold rows_of; by rewrite length_map, length_seq).
    rewrite (read_loop_row _ _ _ _ _ r).
    + eexists. split; [done|]. split; [lia|]. f_equal; [|lia].
      rewrite insert_app_r_alt by lia. rewrite Hlen, Nat.sub_diag.
      rewrite (drop_S _ _ _ Hr).
      unfold rows_of. rewrite seq_S, map_app, <- app_assoc. done.
    + rewrite lookup_app_r by lia. rewrite Hlen, Nat.sub_diag.
      by rewrite lookup_drop, Nat.add_0_r.
    + by eapply (Forall_lookup_1 _ _ _ _ HM).
    + nia.
  - simpl. by rewrite drop_all, app_nil_r.
Qed.

Lemma concat_rows_of (pars : list K) (k c n : nat) :
  concat (rows_of pars k c n) = take (n * c) (drop k pars).
Proof.
  unfold rows_of. induction n as [|n IH]; [done|].
  rewrite seq_S, map_app, concat_app, IH. simpl. rewrite app_nil_r.
  rewrite <- (drop_drop pars (n * c) k), take_take_drop.
  f_equal. lia.
Qed.

Lemma rows_of_sizes (pars : list K) (k c n : nat) :
  (k + n * c ≤ length pars)%nat →
  length (rows_of pars k c n) = n
  ∧ Forall (λ r, length r = c) (rows_of pars k c n).
Proof.
  intros Hp. unfold rows_of. split; [by rewrite length_map, length_seq|].
  apply Forall_map, Forall_seq. intros t Ht. simpl.
  rewrite length_take_le; [done|]. rewrite length_drop. nia.
Qed.

(** *** SetParameters *)

Lemma Sized_npar_split m :
  Sized m →
  Z.to_nat (npar_ m)
  = (W_pos m + Z.to_nat (nv_ m * ls_ m) * Z.to_nat (nh_ m))%nat.
Proof.
  intros [Hr Hh Hn _ _ _ _]. rewrite Hn.
  unfold W_pos, b_pos, npar_formula. destruct (usea_ m), (useb_ m); nia.
Qed.

Lemma SetParameters_Ok m pars :
  Sized m → length pars = Z.to_nat (npar_ m) →
  SetParameters pars m
  = Ok (set_W (W_of m pars) (set_b (b_of m pars) (set_a (a_of m pars) m))).
Proof.
  intros Hs Hp. pose proof (Sized_npar_split m Hs) as Hsplit.
  destruct Hs as [Hr Hh Hn HW HWr Ha Hb].
  unfold SetParameters.
  assert ((if usea_ m
           then for_loop (λ _ st, read_next pars st.2 st)
                         0 (Z.to_nat (nv_ m * ls_ m)) (a_ m, 0%nat)
           else Ok (a_ m, 0%nat)) = Ok (a_of m pars, b_pos m)) as ->.
  { unfold a_of, b_pos, W_pos, b_pos in *. destruct (usea_ m); [|done].
    rewrite (read_loop _ pars _ 0 0 (a_ m) 0); [| lia | lia | done].
    simpl. by rewrite (drop_ge (a_ m)), app_nil_r by lia. }
  simpl.
  assert ((if useb_ m
           then for_loop (λ p st, read_next pars p st)
                         0 (Z.to_nat (nh_ m)) (b_ m, b_pos m)
           else Ok (b_ m, b_pos m)) = Ok (b_of m pars, W_pos m)) as ->.
  { unfold b_of, W_pos in *. destruct (useb_ m); [|by rewrite Nat.add_0_r].
    rewrite (read_loop _ pars _ 0 (b_pos m) (b_ m) 0); [| lia | lia | done].
    simpl. by rewrite (drop_ge (b_ m)), app_nil_r by lia. }
  simpl. rewrite <- HW at 1.
  rewrite (read_loop_rows pars (W_ m) (W_pos m) (Z.to_nat (nh_ m)));
    [| done | lia].
  simpl. unfold W_of. by rewrite HW.
Qed.

Lemma SetParameters_Sized m pars :
  Sized m → length pars = Z.to_nat (npar_ m) →
  Sized (set_W (W_of m pars) (set_b (b_of m pars) (set_a (a_of m pars) m))).
Proof.
  intros Hs Hp. pose proof (Sized_npar_split m Hs) as Hsplit.
  destruct (rows_of_sizes pars (W_pos m) (Z.to_nat (nh_ m))
              (Z.to_nat (nv_ m * ls_ m))) as [HWl HWr']; [lia|].
  destruct Hs as [Hr Hh Hn HW HWr Ha Hb].
  split; simpl; try done.
  - unfold a_of. destruct (usea_ m) eqn:Hu; [|done].
    rewrite length_take_le; [done|].
    unfold W_pos, b_pos in Hsplit. rewrite Hu in Hsplit. lia.
  - unfold b_of. destruct (useb_ m) eqn:Hu; [|done].
    rewrite length_take_le; [done|]. rewrite length_drop.
    unfold W_pos in Hsplit. rewrite Hu in Hsplit. lia.
Qed.

(** C3.  For a machine of any dimensions and either choice of each bias,
    and a vector [pars] of length [npar]: [SetParameters pars] succeeds and
    [GetParameters] then returns [pars] itself. *)
Theorem C3_parameters_round_trip m pars :
  Sized m → length pars = Z.to_nat (npar_ m) →
  ∃ m', SetParameters pars m = Ok m' ∧ GetParameters m' = Ok pars.
Proof.
  intros Hs Hp. eexists. split; [by apply SetParameters_Ok|].
  rewrite GetParameters_flatten by by apply SetParameters_Sized.
  f_equal. simpl. unfold flatten, W_of. rewrite concat_rows_of.
  pose proof (Sized_npar_split m Hs) as Hsplit.
  rewrite <- (take_ge pars (Z.to_nat (npar_ m))) at 4 by lia.
  rewrite Hsplit. unfold W_pos, a_of, b_of, b_pos.
  destruct (usea_ m), (useb_ m); simpl;
    rewrite ?Nat.add_0_r, ?drop_0, ?take_take_drop; try done.
  by rewrite <- (drop_drop pars), !take_take_drop, Nat.add_assoc.
Qed.

(** ** The encoding of a configuration *)

(** The laws of the scalars, for the properties that need arithmetic. *)
Hypothesis Kring : ring_theory K0 K1 Kadd Kmul Ksub Kopp (@eq K).
Add Ring Kring : Kring.

Lemma map_fmap {A B} (f : A → B) (l : list A) : map f l = f <$> l.
Proof. induction l as [|x l IH]; simpl; [done|]. by rewrite IH. Qed.

Lemma dot_zeros (n : nat) v : dot (replicate n K0) v = K0.
Proof.
  revert v. induction n as [|n IH]; intros [|x v]; simpl; try done.
  unfold dot in *. simpl. rewrite IH. ring.
Qed.

Lemma dot_onehot (n j : nat) v (x : K) :
  v !! j = Some x → (j < n)%nat → dot (onehot n j) v = x.
Proof.
  revert j v. induction n as [|n IH]; intros j v Hx Hj; [lia|].
  destruct v as [|y v]; [done|]. destruct j as [|j]; simpl in *.
  - injection Hx as ->. unfold onehot, dot. simpl.
    fold (dot (replicate n K0) v). rewrite dot_zeros. ring.
  - unfold onehot, dot. simpl. fold (onehot n j).
    fold (dot (onehot n j) v). rewrite (IH j v Hx) by lia. ring.
Qed.

Lemma length_onehot (n j : nat) : length (onehot n j) = n.
Proof. unfold onehot. by rewrite length_insert, length_replicate. Qed.

(** The block that the comparison of [ComputeVtilde] leaves for a site
    is the block of [Encode]. *)
Lemma block_compare (states : list K) (x : K) :
  NoDup states →
  map (λ s, if decide (s = x) then K1 else K0) states = block states x.
Proof.
  unfold block, IndexOf. induction 1 as [|s states Hs Hnd IH]; simpl; [done|].
  destruct (decide (s = x)) as [->|Hne]; simpl.
  - unfold onehot. simpl. f_equal.
    clear IH. induction states as [|t states IH]; simpl; [done|].
    apply not_elem_of_cons in Hs as [Hne Hs].
    apply NoDup_cons in Hnd as [_ Hnd].
    rewrite decide_False by done. f_equal. by apply IH.
  - rewrite IH. destruct (list_find _ states) as [[i y]|]; simpl; done.
Qed.

Lemma IndexOf_Some (states : list K) (x : K) (i : nat) :
  NoDup states → states !! i = Some x → IndexOf states x = Some i.
Proof.
  intros Hnd Hi. unfold IndexOf.
  destruct (list_find (λ s, s = x) states) as [[j y]|] eqn:Hf; simpl.
  - apply list_find_Some in Hf as (Hj & -> & _).
    f_equal. by eapply NoDup_lookup.
  - apply list_find_None in Hf. exfalso.
    by apply (Forall_lookup_1 _ _ _ _ Hf Hi).
Qed.

Lemma IndexOf_legal (states : list K) (x : K) :
  x ∈ states → ∃ i, states !! i = Some x.
Proof. apply list_elem_of_lookup_1. Qed.

Lemma length_block (states : list K) (x : K) :
  length (block states x) = length states.
Proof.
  unfold block. destruct (IndexOf states x).
  - apply length_onehot.
  - apply length_replicate.
Qed.

Lemma length_Encode h v :
  length (Encode h v) = (length v * length (LocalStates h))%nat.
Proof.
  unfold Encode. induction v as [|x v IH]; simpl; [done|].
  by rewrite length_app, length_block, IH.
Qed.

(** [mask_ * v] repeats the value of every site [ls] times. *)
Lemma mask_times (ls : nat) v :
  (0 < ls)%nat →
  map (λ i, v !!! (i `div` ls)%nat) (seq 0 (length v * ls))
  = flat_map (replicate ls) v.
Proof.
  intros Hls. induction v as [|x v IH]; simpl; [done|].
  rewrite seq_app, map_app. f_equal.
  - apply list_eq_same_length with ls;
      [by rewrite length_replicate | by rewrite length_map, length_seq |].
    intros i y z Hi. rewrite map_fmap, list_lookup_fmap, lookup_seq_lt by done.
    simpl. rewrite Nat.div_small by done.
    rewrite lookup_replicate_2 by done. by intros [= <-] [= <-].
  - rewrite <- IH. simpl.
    assert (seq ls (length v * ls)
            = (λ i, ls + i)%nat <$> seq 0 (length v * ls)) as ->
      by (by rewrite fmap_add_seq, Nat.add_0_r).
    rewrite !map_fmap, <- list_fmap_compose.
    apply list_fmap_ext. intros _ i _. simpl.
    replace (ls + i)%nat with (i + 1 * ls)%nat by lia.
    rewrite Nat.div_add by lia. by rewrite Nat.add_1_r.
Qed.

Lemma compare_block (states : list K) (x : K) :
  zip_with (λ s y, if decide (s = y) then K1 else K0)
           states (replicate (length states) x)
  = map (λ s, if decide (s = x) then K1 else K0) states.
Proof. induction states as [|s states IH]; simpl; [done|]. by rewrite IH. Qed.

Lemma compare_blocks (states : list K) v :
  zip_with (λ x y, if decide (x = y) then K1 else K0)
           (concat (replicate (length v) states))
           (flat_map (replicate (length states)) v)
  = flat_map (λ x, map (λ s, if decide (s = x) then K1 else K0) states) v.
Proof.
  induction v as [|x v IH]; simpl; [done|].
  rewrite zip_with_app by by rewrite length_replicate.
  by rewrite IH, compare_block.
Qed.

Lemma Encode_compare h v :
  NoDup (LocalStates h) →
  flat_map (λ x, map (λ s, if decide (s = x) then K1 else K0) (LocalStates h)) v
  = Encode h v.
Proof.
  intros Hnd. unfold Encode. induction v as [|x v IH]; simpl; [done|].
  by rewrite IH, block_compare.
Qed.

(** Under the invariant, [ComputeVtilde] is [Encode]. *)
Lemma ComputeVtilde_Encode h m v :
  Inv h m → length v = Z.to_nat (Size h) →
  ComputeVtilde m v = Ok (Encode h v).
Proof.
  intros [(Hnv0 & Hls0 & Hst & Hnd) Hs Hnv Hls Hlc Hmask _] Hv.
  unfold ComputeVtilde.
  assert (Z.to_nat (nv_ m * ls_ m)
          = (length v * length (LocalStates h))%nat) as Hn
    by (rewrite Hv, Hst, Hnv, Hls; lia).
  assert (mat_vec (mask_ m) v
          = Ok (flat_map (replicate (length (LocalStates h))) v)) as ->.
  { unfold mat_vec. rewrite decide_True.
    - f_equal. rewrite Hmask, Hn, map_map, Hnv, Hls, <- Hv, <- Hst.
      destruct (decide (length (LocalStates h) = 0)%nat) as [->|Hpos].
      { rewrite Nat.mul_0_r. simpl. clear. by induction v. }
      rewrite <- mask_times by lia.
      apply map_ext_in. intros i Hi. apply in_seq in Hi.
      assert (i `div` length (LocalStates h) < length v)%nat as Hlt
        by (apply Nat.Div0.div_lt_upper_bound; lia).
      destruct (lookup_lt_is_Some_2 v _ Hlt) as [x Hx].
      rewrite (dot_onehot _ _ _ x) by done.
      by rewrite (list_lookup_total_correct _ _ _ Hx).
    - rewrite Hmask. apply Forall_map, Forall_seq. intros i _. simpl.
      rewrite length_onehot. lia. }
  simpl. unfold same_size. rewrite decide_True; simpl.
  - f_equal. rewrite Hlc, Hnv, <- Hv, compare_blocks. by apply Encode_compare.
  - rewrite Hlc, Hnv, <- Hv. clear. induction v as [|x v IH]; simpl; [done|].
    by rewrite !length_app, length_replicate, IH.
Qed.

(** ** ComputeTheta and the scratch members *)

Lemma length_rows_sum (n : nat) W (x : list K) :
  Forall (λ r, length r = n) W → length (rows_sum n W x) = n.
Proof.
  unfold rows_sum. intros HW. revert x.
  induction HW as [|r W Hr _ IH]; intros [|c x]; simpl;
    rewrite ?length_replicate; try done.
  rewrite length_zip_with, IH. unfold scale. rewrite length_map. lia.
Qed.

Lemma Inv_Encode_length h m v :
  Inv h m → length v = Z.to_nat (Size h) →
  length (Encode h v) = Z.to_nat (nv_ m * ls_ m).
Proof.
  intros [(Hnv0 & Hls0 & Hst & Hnd) Hs Hnv Hls _ _ _] Hv.
  rewrite length_Encode, Hv, Hst, Hnv, Hls. lia.
Qed.

Lemma length_theta h m v :
  Inv h m → length (theta h m v) = Z.to_nat (nh_ m).
Proof.
  intros [_ [_ _ _ _ HWr _ Hb] _ _ _ _ _]. unfold theta.
  rewrite length_zip_with, length_rows_sum, Hb; [lia|]. by rewrite Hb.
Qed.

Lemma ComputeTheta_theta h m v :
  Inv h m → length v = Z.to_nat (Size h) →
  ComputeTheta v m = (set_vtilde (Encode h v) m, Ok (theta h m v)).
Proof.
  intros Hinv Hv. pose proof (Inv_Encode_length h m v Hinv Hv) as Hn.
  unfold ComputeTheta, bind, get, lift, modify. simpl.
  rewrite (ComputeVtilde_Encode h) by done. simpl.
  destruct Hinv as [_ [_ _ _ HW HWr _ Hb] _ _ _ _ _].
  unfold tmat_vec. rewrite decide_True by (by rewrite Hb, HW, Hn). simpl.
  unfold vadd, same_size.
  rewrite decide_True by (rewrite length_rows_sum; by rewrite ?Hb). done.
Qed.

Lemma Inv_set_vtilde h m x : Inv h m → Inv h (set_vtilde x m).
Proof. intros [? [] ? ? ? ? ?]. by split; [|split|..]. Qed.
Lemma Inv_set_thetas h m x : Inv h m → Inv h (set_thetas x m).
Proof. intros [? [] ? ? ? ? ?]. by split; [|split|..]. Qed.
Lemma Inv_set_thetasnew h m x : Inv h m → Inv h (set_thetasnew x m).
Proof. intros [? [] ? ? ? ? ?]. by split; [|split|..]. Qed.
Lemma Inv_set_lnthetas h m x : Inv h m → Inv h (set_lnthetas x m).
Proof. intros [? [] ? ? ? ? ?]. by split; [|split|..]. Qed.

Lemma InitLookup_theta h m v :
  Inv h m → length v = Z.to_nat (Size h) →
  InitLookup v m = (set_vtilde (Encode h v) m, Ok (Some (theta h m v))).
Proof.
  intros Hinv Hv. unfold InitLookup, bind, ret.
  by rewrite (ComputeTheta_theta h).
Qed.

(** ** The gradient *)

Lemma fill_stage (flag : bool)
    (body : nat → list K * nat → result (list K * nat))
    (xs d : list K) (k : nat) (pre : list K) :
  take k d = pre →
  (k + (if flag then length xs else 0) ≤ length d)%nat →
  (∀ i x d', xs !! i = Some x → length d' = length d →
     body i (d', (k + i)%nat) = assign_next x (d', (k + i)%nat)) →
  ∃ d' k',
    (if flag then for_loop body 0 (length xs) (d, k) else Ok (d, k))
    = Ok (d', k')
    ∧ k' = (k + if flag then length xs else 0)%nat
    ∧ length d' = length d
    ∧ take k' d' = pre ++ (if flag then xs else []).
Proof.
  intros Hpre Hlen Hbody. destruct flag.
  - rewrite (assign_loop body xs 0 d k) by done.
    do 2 eexists. split; [done|]. split; [done|].
    rewrite !length_app, length_take_le, length_drop by lia.
    split; [lia|].
    rewrite app_assoc, take_app_length'; [by rewrite Hpre|].
    rewrite length_app, length_take_le; lia.
  - exists d, k. by rewrite Nat.add_0_r, app_nil_r.
Qed.

Lemma fill_rows (body : nat → nat → list K * nat → result (list K * nat))
    (M : list (list K)) (c : nat) (d : list K) (k : nat) (pre : list K) :
  take k d = pre →
  Forall (λ r, length r = c) M →
  (k + length M * c = length d)%nat →
  (∀ i j r x d' k', M !! i = Some r → r !! j = Some x →
     body i j (d', k') = assign_next x (d', k')) →
  ∃ k', for_loop (λ i st, for_loop (body i) 0 c st) 0 (length M) (d, k)
        = Ok (pre ++ concat M, k').
Proof.
  intros Hpre HM Hlen Hbody.
  pose proof (length_concat_rows M c HM) as Hc.
  rewrite (assign_loop_rows body M c 0 d k); [| done | lia |].
  - eexists. by rewrite Hc, Hlen, drop_all, app_nil_r, Hpre.
  - intros i j r x d' k' Hr Hx _. by apply (Hbody i j r).
Qed.

Lemma der_W_sizes (lnthetas vt : list K) :
  length (der_W lnthetas vt) = length vt
  ∧ Forall (λ r, length r = length lnthetas) (der_W lnthetas vt).
Proof.
  unfold der_W. split; [by rewrite length_map|].
  apply Forall_map, Forall_forall. intros x _. simpl. by rewrite length_map.
Qed.

Lemma der_W_lookup (lnthetas vt : list K) (i j : nat) (r : list K) (y : K) :
  der_W lnthetas vt !! i = Some r → r !! j = Some y →
  ∃ x t, vt !! i = Some x ∧ lnthetas !! j = Some t ∧ y = t ⊗ x.
Proof.
  unfold der_W. rewrite map_fmap, list_lookup_fmap.
  destruct (vt !! i) as [x|]; simpl; [|done]. intros [= <-].
  rewrite map_fmap, list_lookup_fmap.
  destruct (lnthetas !! j) as [t|]; simpl; [|done]. intros [= <-]. eauto.
Qed.

Lemma DerLogSingleImpl_flatten h m v th :
  Inv h m → length v = Z.to_nat (Size h) → length th = Z.to_nat (nh_ m) →
  DerLogSingleImpl v (Some th) m
  = (set_lnthetas (map Ktanh th) (set_vtilde (Encode h v) m),
     Ok (flatten (usea_ m) (useb_ m) (Encode h v) (map Ktanh th)
                 (der_W (map Ktanh th) (Encode h v)))).
Proof.
  intros Hinv Hv Hth. pose proof (Inv_Encode_length h m v Hinv Hv) as Hn.
  pose proof (inv_sized h m Hinv) as Hs.
  pose proof (Sized_npar_nonneg m Hs) as Hnp.
  pose proof (Sized_npar_split m Hs) as Hsplit. unfold W_pos, b_pos in Hsplit.
  unfold DerLogSingleImpl, bind, get, lift, modify, ret. simpl.
  rewrite size_of_Ok by done. rewrite (ComputeVtilde_Encode h) by done.
  set (vt := Encode h v) in *. set (ln := map Ktanh th).
  assert (length ln = Z.to_nat (nh_ m)) as Hln
    by (unfold ln; by rewrite length_map).
  set (d := replicate (Z.to_nat (npar_ m)) K0).
  assert (length d = Z.to_nat (npar_ m)) as Hd by apply length_replicate.
  rewrite <- Hn, <- Hln.
  destruct (fill_stage (usea_ m)
              (λ _ st, let? c := at_ vt st.2 in assign_next c st)
              vt d 0 []) as (d1 & k1 & -> & Hk1 & Hd1 & Ht1);
    [done | destruct (usea_ m), (useb_ m); lia | |].
  { intros i x d' Hx _. simpl. by rewrite (at_Ok _ _ _ Hx). }
  simpl.
  destruct (fill_stage (useb_ m)
              (λ p st, let? c := at_ ln p in assign_next c st)
              ln d1 k1 _ Ht1) as (d2 & k2 & -> & Hk2 & Hd2 & Ht2).
  { destruct (usea_ m), (useb_ m); lia. }
  { intros i x d' Hx _. by rewrite (at_Ok _ _ _ Hx). }
  simpl.
  destruct (der_W_sizes ln vt) as [HWl HWr]. rewrite <- HWl.
  destruct (fill_rows
              (λ i j st, let? t := at_ ln j in
                         let? x := at_ vt i in assign_next (t ⊗ x) st)
              (der_W ln vt) (length ln) d2 k2 _ Ht2 HWr) as (k3 & ->).
  { rewrite HWl. destruct (usea_ m), (useb_ m); lia. }
  { intros i j r y d' k' Hr Hy.
    destruct (der_W_lookup _ _ _ _ _ _ Hr Hy) as (x & t & Hx & Ht & ->).
    by rewrite (at_Ok _ _ _ Ht), (at_Ok _ _ _ Hx). }
  simpl. unfold flatten. by rewrite app_assoc.
Qed.

Lemma der_W_entry (lnthetas vt : list K) (i j : nat) (x t : K) :
  vt !! i = Some x → lnthetas !! j = Some t →
  der_W lnthetas vt !! i ≫= (λ r, r !! j) = Some (t ⊗ x).
Proof.
  intros Hx Ht. unfold der_W.
  rewrite map_fmap, list_lookup_fmap, Hx. simpl.
  by rewrite map_fmap, list_lookup_fmap, Ht.
Qed.

(** C4.  For a configuration [v] and a lookup that is empty (then theta is
    computed by [InitLookup]) or holds a theta of [nh] entries,
    [DerLogSingle] returns a vector of length [Npar], laid out as
    [GetParameters] lays out [a_], [b_], [W_]: the encoding [vtilde] of [v]
    in the place of [a_] (if enabled), [tanh(theta)] in the place of [b_]
    (if enabled), and, in the place of [W_(i, j)], the product
    [tanh(theta_j) * vtilde_i]. *)
Theorem C4_gradient_layout_and_values h m v lookup :
  Inv h m → length v = Z.to_nat (Size h) →
  (∀ th, lookup = Some th → length th = Z.to_nat (nh_ m)) →
  let lnthetas := map Ktanh (default (theta h m v) lookup) in
  let vtilde := Encode h v in
  ∃ m' der,
    DerLogSingle v lookup m = (m', Ok der)
    ∧ der = flatten (usea_ m) (useb_ m) vtilde lnthetas (der_W lnthetas vtilde)
    ∧ GetParameters m = Ok (flatten (usea_ m) (useb_ m) (a_ m) (b_ m) (W_ m))
    ∧ Z.of_nat (length der) = Npar m
    ∧ length vtilde = length (a_ m)
    ∧ length lnthetas = length (b_ m)
    ∧ map length (der_W lnthetas vtilde) = map length (W_ m)
    ∧ ∀ i j x t, vtilde !! i = Some x → lnthetas !! j = Some t →
        der_W lnthetas vtilde !! i ≫= (λ r, r !! j) = Some (t ⊗ x).
Proof.
  intros Hinv Hv Hlk lnthetas vtilde.
  pose proof (inv_sized h m Hinv) as Hs.
  pose proof (Inv_Encode_length h m v Hinv Hv) as Hn. fold vtilde in Hn.
  assert (length (default (theta h m v) lookup) = Z.to_nat (nh_ m)) as Hth.
  { destruct lookup as [th|]; simpl; [by apply Hlk | by apply length_theta]. }
  assert (length lnthetas = Z.to_nat (nh_ m)) as Hln
    by (unfold lnthetas; by rewrite length_map).
  assert (map length (der_W lnthetas vtilde) = map length (W_ m)) as Hshape.
  { destruct (der_W_sizes lnthetas vtilde) as [Hl Hr].
    destruct Hs as [_ _ _ HW HWr _ _].
    apply list_eq_same_length with (length vtilde);
      [by rewrite length_map, HW, <- Hn | by rewrite length_map |].
    intros i x y _. rewrite !map_fmap, !list_lookup_fmap.
    destruct (der_W _ _ !! i) as [r|] eqn:Hri; simpl; [|done].
    destruct (W_ m !! i) as [r'|] eqn:Hri'; simpl; [|done].
    apply (Forall_lookup_1 _ _ _ _ Hr) in Hri.
    apply (Forall_lookup_1 _ _ _ _ HWr) in Hri'. simpl in *.
    intros [= <-] [= <-]. congruence. }
  assert (∃ m', DerLogSingle v lookup m
                = (m', Ok (flatten (usea_ m) (useb_ m) vtilde lnthetas
                                   (der_W lnthetas vtilde)))) as [m' Hder].
  { destruct lookup as [th|]; simpl.
    - eexists. apply DerLogSingleImpl_flatten; [done..|by apply Hlk].
    - unfold bind. rewrite (InitLookup_theta h) by done.
      eexists.
      apply (DerLogSingleImpl_flatten h (set_vtilde (Encode h v) m) v
                                      (theta h m v)).
      + by apply Inv_set_vtilde.
      + done.
      + exact (length_theta h m v Hinv). }
  exists m', (flatten (usea_ m) (useb_ m) vtilde lnthetas
                      (der_W lnthetas vtilde)).
  split; [done|]. split; [done|].
  split; [by apply GetParameters_flatten|].
  split; [|split; [|split; [|split]]].
  - destruct (der_W_sizes lnthetas vtilde) as [Hl Hr].
    rewrite (length_flatten _ _ _ _ _ _ Hr), Hl, Hn, Hln. unfold Npar.
    pose proof (Sized_npar_split m Hs) as Hsplit.
    pose proof (Sized_npar_nonneg m Hs).
    unfold W_pos, b_pos in Hsplit. destruct (usea_ m), (useb_ m); lia.
  - by rewrite Hn, (sized_a m Hs).
  - by rewrite Hln, (sized_b m Hs).
  - done.
  - intros i j x t. apply der_W_entry.
Qed.

(** ** Sums of rows

    Identities on vectors, entry by entry in the ring. *)

Lemma vadd_zeros_l (n : nat) (y : list K) :
  length y = n → zip_with Kadd (replicate n K0) y = y.
Proof.
  revert n. induction y as [|c y IH]; intros [|n]; simpl; try done.
  intros [= Hn]. rewrite (IH n Hn). f_equal. ring.
Qed.

Lemma vadd_assoc (x y z : list K) :
  zip_with Kadd x (zip_with Kadd y z) = zip_with Kadd (zip_with Kadd x y) z.
Proof.
  revert y z. induction x as [|a x IH]; intros [|b y] [|c z]; simpl; try done.
  rewrite IH. f_equal. ring.
Qed.

Lemma scale_zero (r : list K) : scale K0 r = replicate (length r) K0.
Proof.
  unfold scale. induction r as [|w r IH]; simpl; [done|].
  rewrite IH. f_equal. ring.
Qed.

Lemma scale_one (r : list K) : scale K1 r = r.
Proof.
  unfold scale. induction r as [|w r IH]; simpl; [done|].
  rewrite IH. f_equal. ring.
Qed.

(** Replace one term of a sum. *)
Lemma vec_swap_term (A R C : list K) (n : nat) :
  length A = n → length R = n → length C = n →
  zip_with Kadd (zip_with Ksub (zip_with Kadd A R) A) C = zip_with Kadd C R.
Proof.
  revert A R C. induction n as [|n IH]; intros [|a A] [|r R] [|c C];
    simpl; try done.
  intros [= HA] [= HR] [= HC]. rewrite (IH A R C) by done. f_equal. ring.
Qed.

(** Move a change of rows out of a sum. *)
Lemma vec_change_r (B R a b : list K) :
  zip_with Kadd B (zip_with Kadd (zip_with Ksub R a) b)
  = zip_with Kadd (zip_with Ksub (zip_with Kadd B R) a) b.
Proof.
  revert R a b. induction B as [|x B IH]; intros [|r R] [|y a] [|z b];
    simpl; try done.
  rewrite IH. f_equal. ring.
Qed.

Lemma vec_change_l (R b r r' : list K) :
  zip_with Kadd (zip_with Kadd (zip_with Ksub R r) r') b
  = zip_with Kadd (zip_with Ksub (zip_with Kadd R b) r) r'.
Proof.
  revert b r r'. induction R as [|x R IH]; intros [|y b] [|z r] [|w r'];
    simpl; try done.
  rewrite IH. f_equal. ring.
Qed.

Lemma rows_sum_nil_r (n : nat) W : rows_sum n W [] = replicate n K0.
Proof. unfold rows_sum. by destruct W. Qed.

Lemma rows_sum_cons (n : nat) (r : list K) W (c : K) (x : list K) :
  rows_sum n (r :: W) (c :: x) = zip_with Kadd (scale c r) (rows_sum n W x).
Proof. done. Qed.

Lemma rows_sum_app (n : nat) (W1 W2 : list (list K)) (x1 x2 : list K) :
  length W1 = length x1 → Forall (λ r, length r = n) W2 →
  rows_sum n (W1 ++ W2) (x1 ++ x2)
  = zip_with Kadd (rows_sum n W1 x1) (rows_sum n W2 x2).
Proof.
  intros Hlen HW2. revert x1 Hlen.
  induction W1 as [|r W1 IH]; intros [|c x1] Hlen; simpl in *; try done.
  - rewrite rows_sum_nil_r, vadd_zeros_l; [done|]. by apply length_rows_sum.
  - rewrite !rows_sum_cons, IH by lia. apply vadd_assoc.
Qed.

Lemma rows_sum_zeros (n k : nat) W :
  Forall (λ r, length r = n) W → rows_sum n W (replicate k K0) = replicate n K0.
Proof.
  intros HW. revert k. induction HW as [|r W Hr _ IH]; intros [|k]; simpl;
    rewrite ?rows_sum_nil_r; try done.
  rewrite rows_sum_cons, IH, scale_zero, Hr.
  apply vadd_zeros_l, length_replicate.
Qed.

Lemma rows_sum_onehot (n : nat) W (ls i : nat) (r : list K) :
  W !! i = Some r → Forall (λ r, length r = n) W → (i < ls)%nat →
  rows_sum n W (onehot ls i) = r.
Proof.
  intros Hr HW. revert i ls Hr.
  induction HW as [|r0 W Hr0 HW IH]; intros i [|ls] Hr Hi; try done; [lia|].
  destruct i as [|i]; simpl in *.
  - injection Hr as ->. unfold onehot. simpl.
    rewrite rows_sum_cons, rows_sum_zeros, scale_one by done.
    clear -Kring Hr0. revert n Hr0.
    induction r as [|w r IH]; intros [|n]; simpl; try done.
    intros [= Hn]. rewrite (IH n Hn). f_equal. ring.
  - unfold onehot. simpl. fold (onehot ls i).
    rewrite rows_sum_cons, (IH i ls Hr), scale_zero, Hr0 by lia.
    apply vadd_zeros_l. by apply (Forall_lookup_1 _ _ _ _ HW Hr).
Qed.

(** The rows of one site sum to the row of the site's value. *)
Lemma rows_sum_block (n : nat) (states : list K) W (x : K) (i : nat)
    (r : list K) :
  NoDup states → states !! i = Some x → W !! i = Some r →
  Forall (λ r, length r = n) W →
  rows_sum n W (block states x) = r.
Proof.
  intros Hnd Hi Hr HW. unfold block. rewrite (IndexOf_Some _ _ i) by done.
  apply rows_sum_onehot; [done..|]. by eapply lookup_lt_Some.
Qed.

(** ** One site changes

    The sum of the rows after the value of the site [s] changed from the
    one of index [io] to the one of index [inew]. *)
Lemma rows_sum_update h (n : nat) W v (s : nat) (xo xn : K) (io inew : nat)
    (ro rn : list K) :
  NoDup (LocalStates h) →
  length W = (length v * length (LocalStates h))%nat →
  Forall (λ r, length r = n) W →
  v !! s = Some xo →
  LocalStates h !! io = Some xo → LocalStates h !! inew = Some xn →
  W !! (s * length (LocalStates h) + io)%nat = Some ro →
  W !! (s * length (LocalStates h) + inew)%nat = Some rn →
  rows_sum n W (Encode h (<[s := xn]> v))
  = zip_with Kadd (zip_with Ksub (rows_sum n W (Encode h v)) ro) rn.
Proof.
  intros Hnd. set (ls := length (LocalStates h)).
  revert s W. induction v as [|x v IH]; intros s W HW HWr Hs Hio Hin Hro Hrn;
    [done|].
  assert (io < ls)%nat as Hio' by by eapply lookup_lt_Some.
  assert (inew < ls)%nat as Hin' by by eapply lookup_lt_Some.
  simpl in HW.
  assert (length (take ls W) = ls) as HWb by (rewrite length_take; lia).
  assert (length (drop ls W) = (length v * ls)%nat) as HW'
    by (rewrite length_drop; lia).
  rewrite <- (take_drop ls W) in HWr, Hro, Hrn |- *.
  set (Wb := take ls W) in *. set (W' := drop ls W) in *.
  apply Forall_app in HWr as [HWbr HWr'].
  unfold Encode in *. destruct s as [|s]; simpl in *.
  - injection Hs as ->.
    rewrite lookup_app_l in Hro, Hrn by lia.
    rewrite !rows_sum_app by (by rewrite ?length_block).
    rewrite (rows_sum_block n _ Wb xo io ro), (rows_sum_block n _ Wb xn inew rn)
      by done.
    symmetry. apply (vec_swap_term _ _ _ n).
    + by apply (Forall_lookup_1 _ _ _ _ HWbr Hro).
    + by apply length_rows_sum.
    + by apply (Forall_lookup_1 _ _ _ _ HWbr Hrn).
  - rewrite lookup_app_r in Hro, Hrn by lia.
    rewrite HWb in Hro, Hrn.
    replace (ls + s * ls + io - ls)%nat with (s * ls + io)%nat in Hro by lia.
    replace (ls + s * ls + inew - ls)%nat with (s * ls + inew)%nat in Hrn by lia.
    rewrite !rows_sum_app by (by rewrite ?length_block).
    rewrite (IH s W' HW' HWr' Hs Hio Hin Hro Hrn).
    apply vec_change_r.
Qed.

(** ** Loops of methods *)

(** A loop over the entries of a list is a fold, when every iteration
    succeeds under an invariant of the loop state and the machine. *)
Lemma for_M_foldl {St A} (xs : list A) (body : nat → St → Method K St)
    (f : St * Machine K → A → St * Machine K) (P : St * Machine K → Prop)
    (lo : nat) (s : St) m :
  (∀ i x s m, xs !! i = Some x → P (s, m) →
     body (lo + i)%nat s m = ((f (s, m) x).2, Ok (f (s, m) x).1)
     ∧ P (f (s, m) x)) →
  P (s, m) →
  for_M body lo (length xs) s m
  = ((foldl f (s, m) xs).2, Ok (foldl f (s, m) xs).1)
    ∧ P (foldl f (s, m) xs).
Proof.
  revert lo s m. induction xs as [|x xs IH]; intros lo s m Hbody HP; simpl.
  - done.
  - destruct (Hbody 0%nat x s m eq_refl HP) as [Hb HP'].
    rewrite Nat.add_0_r in Hb. unfold bind at 1. rewrite Hb.
    destruct (f (s, m) x) as [s' m'] eqn:Hf. simpl.
    apply IH; [|done]. intros i y s0 m0 Hy HP0.
    replace (S lo + i)%nat with (lo + S i)%nat by lia. by apply Hbody.
Qed.

Lemma confindex_at_legal h m (x : K) (i : nat) :
  Inv h m → LocalStates h !! i = Some x →
  confindex_at x m = (m, Ok (Z.of_nat i)).
Proof.
  intros Hinv Hi. unfold confindex_at.
  by rewrite (inv_confindex h m Hinv i x Hi).
Qed.

Lemma atZ_Ok {A} (l : list A) (i : Z) (x : A) :
  0 ≤ i → l !! Z.to_nat i = Some x → atZ l i = Ok x.
Proof.
  intros Hi Hx. unfold atZ. rewrite decide_True by done. by apply at_Ok.
Qed.

(** The extended index of a legal value is inside the parameters. *)
Lemma ext_index_legal h m (s : Z) (x : K) (i : nat) :
  Inv h m → 0 ≤ s < Size h → LocalStates h !! i = Some x →
  0 ≤ ls_ m * s + Z.of_nat i
  ∧ Z.to_nat (ls_ m * s + Z.of_nat i) = ext_index h s x
  ∧ ext_index h s x = (Z.to_nat s * length (LocalStates h) + i)%nat
  ∧ (ext_index h s x < Z.to_nat (nv_ m * ls_ m))%nat.
Proof.
  intros [(Hnv0 & Hls0 & Hst & Hnd) _ Hnv Hls _ _ _] Hs Hi.
  assert (i < length (LocalStates h))%nat as Hlt by by eapply lookup_lt_Some.
  unfold ext_index. rewrite (IndexOf_Some _ _ i) by done. simpl.
  rewrite Hls, Hnv, Hst. repeat split; try nia.
Qed.

(** ** UpdateLookup *)

Lemma legal_lookup h v (s : Z) :
  legal h v → 0 ≤ s < Size h →
  ∃ x i, v !! Z.to_nat s = Some x ∧ LocalStates h !! i = Some x.
Proof.
  intros [Hv Hl] Hs.
  destruct (lookup_lt_is_Some_2 v (Z.to_nat s)) as [x Hx]; [lia|].
  destruct (IndexOf_legal _ x (Forall_lookup_1 _ _ _ _ Hl Hx)) as [i Hi].
  eauto.
Qed.

Lemma valid_move_lookup h tochange newconf (i : nat) (s : Z) (x : K) :
  valid_move h tochange newconf → zip tochange newconf !! i = Some (s, x) →
  tochange !! i = Some s ∧ newconf !! i = Some x
  ∧ 0 ≤ s < Size h ∧ ∃ j, LocalStates h !! j = Some x.
Proof.
  intros (_ & Htc & Hnc) Hi.
  apply lookup_zip_with_Some in Hi as (s' & x' & [= -> ->] & Hs & Hx).
  repeat (split; [done|]).
  split; [apply (Forall_lookup_1 _ _ _ _ Htc Hs)|].
  apply IndexOf_legal, (Forall_lookup_1 _ _ _ _ Hnc Hx).
Qed.

Lemma length_row_change h m v th (c : Z * K) :
  Inv h m → legal h v → 0 ≤ c.1 < Size h →
  (∃ j, LocalStates h !! j = Some c.2) →
  length th = Z.to_nat (nh_ m) →
  length (row_change h (W_ m) v th c) = Z.to_nat (nh_ m).
Proof.
  intros Hinv Hv Hs [j Hj] Hth.
  destruct (legal_lookup h v c.1 Hv Hs) as (xo & io & Hxo & Hio).
  pose proof (inv_sized h m Hinv) as [_ _ _ HW HWr _ _].
  unfold row_change. rewrite (list_lookup_total_correct _ _ _ Hxo).
  destruct (ext_index_legal h m c.1 xo io Hinv Hs Hio) as (_ & _ & _ & Ho).
  destruct (ext_index_legal h m c.1 c.2 j Hinv Hs Hj) as (_ & _ & _ & Hn).
  destruct (lookup_lt_is_Some_2 (W_ m) (ext_index h c.1 xo)) as [ro Hro];
    [lia|].
  destruct (lookup_lt_is_Some_2 (W_ m) (ext_index h c.1 c.2)) as [rn Hrn];
    [lia|].
  rewrite (list_lookup_total_correct _ _ _ Hro),
    (list_lookup_total_correct _ _ _ Hrn), !length_zip_with.
  pose proof (Forall_lookup_1 _ _ _ _ HWr Hro).
  pose proof (Forall_lookup_1 _ _ _ _ HWr Hrn). simpl in *. lia.
Qed.

(** One iteration of the loop of [UpdateLookup]: the rows come from the
    base configuration [v] and the listed new value. *)
Lemma UpdateLookup_step h m v tochange newconf (i : nat) (c : Z * K) th :
  Inv h m → legal h v → valid_move h tochange newconf →
  zip tochange newconf !! i = Some c →
  length th = Z.to_nat (nh_ m) →
  (let! sf := lift (at_ tochange i) in
   let! vsf := lift (atZ v sf) in
   let! oldtilde := confindex_at vsf in
   let! ncs := lift (at_ newconf i) in
   let! newtilde := confindex_at ncs in
   let! m := get in
   let! r := lift (row (W_ m) (ls_ m * sf + oldtilde)) in
   let! lt := lift (vsub th r) in
   let! r := lift (row (W_ m) (ls_ m * sf + newtilde)) in
   lift (vadd lt r)) m
  = (m, Ok (row_change h (W_ m) v th c)).
Proof.
  intros Hinv Hv Hmv Hc Hth. destruct c as [s x].
  destruct (valid_move_lookup h _ _ _ _ _ Hmv Hc) as (Hs & Hx & Hrange & j & Hj).
  destruct (legal_lookup h v s Hv Hrange) as (xo & io & Hxo & Hio).
  pose proof (inv_sized h m Hinv) as [_ _ _ HW HWr _ _].
  destruct (ext_index_legal h m s xo io Hinv Hrange Hio) as (Ho0 & Ho1 & _ & Ho).
  destruct (ext_index_legal h m s x j Hinv Hrange Hj) as (Hn0 & Hn1 & _ & Hn).
  destruct (lookup_lt_is_Some_2 (W_ m) (ext_index h s xo)) as [ro Hro]; [lia|].
  destruct (lookup_lt_is_Some_2 (W_ m) (ext_index h s x)) as [rn Hrn]; [lia|].
  pose proof (Forall_lookup_1 _ _ _ _ HWr Hro) as Hlo.
  pose proof (Forall_lookup_1 _ _ _ _ HWr Hrn) as Hln. simpl in Hlo, Hln.
  unfold bind, lift, get. rewrite (at_Ok _ _ _ Hs).
  rewrite (atZ_Ok _ _ _ (proj1 Hrange) Hxo).
  rewrite (confindex_at_legal h m xo io Hinv Hio), (at_Ok _ _ _ Hx).
  rewrite (confindex_at_legal h m x j Hinv Hj).
  unfold row. rewrite (atZ_Ok _ _ ro) by (by rewrite ?Ho1).
  unfold vsub, vadd, same_size. rewrite decide_True by lia. simpl.
  rewrite (atZ_Ok _ _ rn) by (by rewrite ?Hn1).
  rewrite decide_True by (rewrite length_zip_with; lia). simpl.
  unfold row_change. simpl. rewrite (list_lookup_total_correct _ _ _ Hxo).
  by rewrite (list_lookup_total_correct _ _ _ Hro),
    (list_lookup_total_correct _ _ _ Hrn).
Qed.

Lemma foldl_row_change h m v (changes : list (Z * K)) th :
  foldl (λ (sm : list K * Machine K) c,
           (row_change h (W_ sm.2) v sm.1 c, sm.2)) (th, m) changes
  = (row_updates h (W_ m) v changes th, m).
Proof.
  unfold row_updates. revert th.
  induction changes as [|c changes IH]; intros th; simpl; [done|]. apply IH.
Qed.

(** [UpdateLookup] applies the row changes of the move, all of them
    against the base configuration. *)
Lemma UpdateLookup_rows h m v tochange newconf th :
  Inv h m → legal h v → valid_move h tochange newconf →
  length th = Z.to_nat (nh_ m) →
  UpdateLookup v tochange newconf (Some th) m
  = (m, Ok (Some (row_updates h (W_ m) v (zip tochange newconf) th))).
Proof.
  intros Hinv Hv Hmv Hth. unfold UpdateLookup.
  destruct (decide (length tochange ≠ 0%nat)) as [Hne|Heq].
  - unfold bind at 1. simpl.
    assert (length tochange = length (zip tochange newconf)) as ->
      by (rewrite length_zip_with; destruct Hmv as [-> _]; lia).
    unfold bind at 1.
    match goal with |- context [for_M ?body 0%nat _ th m] =>
      destruct (for_M_foldl (zip tochange newconf) body
                  (λ sm c, (row_change h (W_ sm.2) v sm.1 c, sm.2))
                  (λ sm, sm.2 = m ∧ length sm.1 = Z.to_nat (nh_ m)) 0 th m)
        as [-> _]
    end; cycle 2.
    + by rewrite foldl_row_change.
    + intros i c lt m0 Hc [Hm Hlt]. simpl in Hm, Hlt. subst m0. simpl.
      rewrite (UpdateLookup_step h m v tochange newconf i c lt) by done.
      split; [done|]. split; [done|]. simpl.
      destruct c as [s x].
      destruct (valid_move_lookup h _ _ _ _ _ Hmv Hc) as (_ & _ & Hr & Hj).
      by apply length_row_change.
    + by split.
  - destruct tochange as [|s tc]; [done|]. exfalso. by apply Heq.
Qed.

(** ** The lookup follows the configuration *)

Lemma legal_insert h v (i : nat) (x : K) :
  legal h v → x ∈ LocalStates h → legal h (<[i := x]> v).
Proof.
  intros [Hv Hl] Hx. split; [by rewrite length_insert|].
  apply Forall_forall. intros y Hy.
  apply list_elem_of_lookup in Hy as [j Hj].
  destruct (decide (i = j)) as [->|Hne].
  - assert (j < length v)%nat
      by (rewrite <- (length_insert v j x); by eapply lookup_lt_Some).
    rewrite list_lookup_insert_eq in Hj by done. by injection Hj as <-.
  - rewrite list_lookup_insert_ne in Hj by done.
    by apply (Forall_lookup_1 _ _ _ _ Hl Hj).
Qed.

(** On the theta of [v], one change gives the theta of the changed [v]. *)
Lemma row_change_theta h m v (c : Z * K) :
  Inv h m → legal h v → 0 ≤ c.1 < Size h → c.2 ∈ LocalStates h →
  row_change h (W_ m) v (theta h m v) c
  = theta h m (<[Z.to_nat c.1 := c.2]> v).
Proof.
  intros Hinv Hv Hs Hx. destruct c as [s x]. simpl in *.
  destruct (IndexOf_legal _ _ Hx) as [j Hj].
  destruct (legal_lookup h v s Hv Hs) as (xo & io & Hxo & Hio).
  pose proof (inv_sized h m Hinv) as [_ _ _ HW HWr _ Hb].
  pose proof (inv_hilbert h m Hinv) as (Hnv0 & Hls0 & Hst & Hnd).
  destruct (ext_index_legal h m s xo io Hinv Hs Hio) as (_ & _ & Ho1 & Ho).
  destruct (ext_index_legal h m s x j Hinv Hs Hj) as (_ & _ & Hn1 & Hn).
  destruct (lookup_lt_is_Some_2 (W_ m) (ext_index h s xo)) as [ro Hro]; [lia|].
  destruct (lookup_lt_is_Some_2 (W_ m) (ext_index h s x)) as [rn Hrn]; [lia|].
  unfold row_change, theta. simpl.
  rewrite (list_lookup_total_correct _ _ _ Hxo),
    (list_lookup_total_correct _ _ _ Hro),
    (list_lookup_total_correct _ _ _ Hrn).
  rewrite (rows_sum_update h _ (W_ m) v (Z.to_nat s) xo x io j ro rn);
    try done.
  - symmetry. apply vec_change_l.
  - rewrite HW, (inv_nv h m Hinv), (inv_ls h m Hinv), Hst. destruct Hv. nia.
  - by rewrite Hb.
  - by rewrite <- Ho1.
  - by rewrite <- Hn1.
Qed.

Lemma row_updates_ext h W v v' (changes : list (Z * K)) th :
  (∀ c, c ∈ changes → v !!! Z.to_nat c.1 = v' !!! Z.to_nat c.1) →
  row_updates h W v changes th = row_updates h W v' changes th.
Proof.
  unfold row_updates. revert th.
  induction changes as [|c changes IH]; intros th Hext; simpl; [done|].
  unfold row_change at 2 4. rewrite (Hext c) by apply list_elem_of_here.
  apply IH. intros c' Hc'. apply Hext. by apply list_elem_of_further.
Qed.

Lemma legal_apply_changes h v (changes : list (Z * K)) :
  legal h v →
  Forall (λ c, 0 ≤ c.1 < Size h ∧ c.2 ∈ LocalStates h) changes →
  legal h (apply_changes v changes).
Proof.
  unfold apply_changes. intros Hv Hc. revert v Hv.
  induction Hc as [|c changes [_ Hx] _ IH]; intros v Hv; simpl; [done|].
  by apply IH, legal_insert.
Qed.

Lemma row_updates_theta h m v (changes : list (Z * K)) :
  Inv h m → legal h v → valid_changes h changes →
  row_updates h (W_ m) v changes (theta h m v)
  = theta h m (apply_changes v changes).
Proof.
  intros Hinv Hv [Hc Hnd]. revert v Hv.
  induction Hc as [|c changes [Hs Hx] Hc IH]; intros v Hv; [done|].
  simpl in Hnd. apply NoDup_cons in Hnd as [Hnotin Hnd].
  unfold row_updates, apply_changes. simpl.
  rewrite row_change_theta by done.
  fold (row_updates h (W_ m) v changes (theta h m (<[Z.to_nat c.1:=c.2]> v))).
  fold (apply_changes (<[Z.to_nat c.1:=c.2]> v) changes).
  rewrite <- (IH Hnd) by by apply legal_insert.
  apply row_updates_ext. intros c' Hc'.
  rewrite list_lookup_total_insert_ne; [done|].
  intros Heq. apply Hnotin.
  assert (0 ≤ c'.1 < Size h) as Hs'.
  { apply (proj1 (Forall_forall _ _) Hc) in Hc'. tauto. }
  assert (c.1 = c'.1) as -> by lia.
  by apply list_elem_of_fmap_2.
Qed.

Lemma valid_move_changes h tochange newconf :
  valid_move h tochange newconf → NoDup tochange →
  valid_changes h (zip tochange newconf).
Proof.
  intros (Hlen & Htc & Hnc) Hnd. split.
  - apply Forall_forall. intros [s x] Hc.
    apply list_elem_of_lookup in Hc as [i Hi].
    apply lookup_zip_with_Some in Hi as (s' & x' & [= -> ->] & Hs & Hx).
    split; simpl.
    + apply (Forall_lookup_1 _ _ _ _ Htc Hs).
    + apply (Forall_lookup_1 _ _ _ _ Hnc Hx).
  - rewrite fst_zip by lia. done.
Qed.

Lemma legal_walk h v (moves : list (list Z * list K)) :
  legal h v →
  Forall (λ mv, valid_move h mv.1 mv.2 ∧ NoDup mv.1) moves →
  legal h (walk v moves).
Proof.
  intros Hv Hmoves. revert v Hv.
  induction Hmoves as [|mv moves [Hmv Hnd] _ IH]; intros v Hv; [done|].
  simpl. apply IH, legal_apply_changes; [done|].
  apply (valid_move_changes h _ _ Hmv Hnd).
Qed.

Lemma UpdateLookups_theta h m (moves : list (list Z * list K)) v :
  Inv h m → legal h v →
  Forall (λ mv, valid_move h mv.1 mv.2 ∧ NoDup mv.1) moves →
  UpdateLookups moves v (Some (theta h m v)) m
  = (m, Ok (walk v moves, Some (theta h m (walk v moves)))).
Proof.
  intros Hinv Hv Hmoves. revert v Hv.
  induction Hmoves as [|[tc nc] moves [Hmv Hnd] _ IH]; intros v Hv; [done|].
  simpl in *. unfold bind.
  rewrite (UpdateLookup_rows h) by (done || by apply length_theta).
  pose proof (valid_move_changes h tc nc Hmv Hnd) as Hc.
  rewrite row_updates_theta by done.
  apply IH. apply legal_apply_changes; [done|apply Hc].
Qed.

(** C1.  On a machine that was initialised, from a configuration [v]:
    [UpdateLookup] with the change list [[s]] and the new value [[x]] on the
    lookup of [InitLookup v] gives the lookup that [InitLookup] gives for
    [v] with the site [s] set to [x]; and after any walk of moves (each a
    list of distinct sites with their new values, the configuration being
    updated after each), the lookup is the one [InitLookup] gives for the
    configuration reached.  Scalars are exact, so "within tolerance" is
    equality. *)
Theorem C1_lookup_incremental_consistency h m v :
  Inv h m → legal h v →
  (∀ s x, 0 ≤ s < Size h → x ∈ LocalStates h →
     ∃ m1 m2 th,
       (let! lk := InitLookup v in UpdateLookup v [s] [x] lk) m
       = (m1, Ok (Some th))
       ∧ InitLookup (<[Z.to_nat s := x]> v) m = (m2, Ok (Some th)))
  ∧ (∀ moves,
       Forall (λ mv, valid_move h mv.1 mv.2 ∧ NoDup mv.1) moves →
       ∃ m1 m2 th,
         (let! lk := InitLookup v in UpdateLookups moves v lk) m
         = (m1, Ok (walk v moves, Some th))
         ∧ InitLookup (walk v moves) m = (m2, Ok (Some th))).
Proof.
  intros Hinv Hv.
  assert (∀ moves,
       Forall (λ mv, valid_move h mv.1 mv.2 ∧ NoDup mv.1) moves →
       ∃ m1 m2 th,
         (let! lk := InitLookup v in UpdateLookups moves v lk) m
         = (m1, Ok (walk v moves, Some th))
         ∧ InitLookup (walk v moves) m = (m2, Ok (Some th))) as Hgen.
  { intros moves Hmoves. unfold bind.
    rewrite (InitLookup_theta h) by (done || apply Hv).
    pose proof (Inv_set_vtilde h m (Encode h v) Hinv) as Hinv'.
    pose proof (UpdateLookups_theta h _ moves v Hinv' Hv Hmoves) as Hup.
    pose proof (legal_walk h v moves Hv Hmoves) as Hv'.
    do 3 eexists. split; [exact Hup|].
    rewrite (InitLookup_theta h) by (done || apply Hv'). done. }
  split; [|done].
  intros s x Hs Hx.
  destruct (Hgen [([s], [x])]) as (m1 & m2 & th & Hup & Hinit).
  { apply Forall_singleton. simpl. split.
    - split; [done|]. split; by apply Forall_singleton.
    - apply NoDup_singleton. }
  exists m1, m2, th. split; [|exact Hinit].
  unfold bind in *. destruct (InitLookup v m) as [m0 [lk|e]]; [|done].
  simpl in Hup. unfold bind, ret in Hup.
  destruct (UpdateLookup v [s] [x] lk m0) as [m0' [lk'|e]]; [|done].
  by injection Hup as -> <-.
Qed.

(** ** LogValDiff *)

(** An invariant of a loop of a method that cannot fail while it holds. *)
Lemma for_M_inv {St} (Q : nat → St → Machine K → Prop)
    (body : nat → St → Method K St) (n lo : nat) (s : St) m :
  Q lo s m →
  (∀ i s m, (lo ≤ i < lo + n)%nat → Q i s m →
     ∃ s' m', body i s m = (m', Ok s') ∧ Q (S i) s' m') →
  ∃ s' m', for_M body lo n s m = (m', Ok s') ∧ Q (lo + n)%nat s' m'.
Proof.
  revert lo s m. induction n as [|n IH]; intros lo s m HQ Hstep; simpl.
  - exists s, m. by rewrite Nat.add_0_r.
  - destruct (Hstep lo s m) as (s' & m' & Hb & HQ'); [lia|done|].
    unfold bind at 1. rewrite Hb.
    replace (lo + S n)%nat with (S lo + n)%nat by lia.
    apply IH; [done|]. intros. apply Hstep; [lia|done].
Qed.

Lemma set_thetasnew_id m : set_thetasnew (thetasnew_ m) m = m.
Proof. by destruct m. Qed.

Lemma length_row_updates h m v (changes : list (Z * K)) th :
  Inv h m → legal h v →
  Forall (λ c, 0 ≤ c.1 < Size h ∧ ∃ j, LocalStates h !! j = Some c.2) changes →
  length th = Z.to_nat (nh_ m) →
  length (row_updates h (W_ m) v changes th) = Z.to_nat (nh_ m).
Proof.
  intros Hinv Hv Hc. unfold row_updates. revert th.
  induction Hc as [|c changes [Hs Hj] _ IH]; intros th Hth; simpl; [done|].
  apply IH. by apply length_row_change.
Qed.

Lemma valid_move_Forall h tochange newconf :
  valid_move h tochange newconf →
  Forall (λ c, 0 ≤ c.1 < Size h ∧ ∃ j, LocalStates h !! j = Some c.2)
         (zip tochange newconf).
Proof.
  intros Hmv. apply Forall_forall. intros [s x] Hc.
  apply list_elem_of_lookup in Hc as [i Hi].
  destruct (valid_move_lookup h _ _ _ _ _ Hmv Hi) as (_ & _ & Hs & Hj). done.
Qed.

Lemma sub_at_Ok (x : list K) (k : nat) (c : K) :
  (k < length x)%nat → sub_at x k c = Ok (<[k := x !!! k ⊖ c]> x).
Proof.
  intros Hk. destruct (lookup_lt_is_Some_2 x k Hk) as [y Hy].
  unfold sub_at, put. rewrite (at_Ok _ _ _ Hy). simpl.
  by rewrite decide_True, (list_lookup_total_correct _ _ _ Hy).
Qed.

Lemma add_at_Ok (x : list K) (k : nat) (c : K) :
  (k < length x)%nat → add_at x k c = Ok (<[k := x !!! k ⊕ c]> x).
Proof.
  intros Hk. destruct (lookup_lt_is_Some_2 x k Hk) as [y Hy].
  unfold add_at, put. rewrite (at_Ok _ _ _ Hy). simpl.
  by rewrite decide_True, (list_lookup_total_correct _ _ _ Hy).
Qed.

(** One iteration of the inner loop. *)
Lemma LogValDiff_step h m v (tc : list Z) (newconf : list (list K))
    (nck : list K) (k s : nat) (c : Z * K) (lvd : list K) :
  Inv h m → legal h v → newconf !! k = Some nck → valid_move h tc nck →
  zip tc nck !! s = Some c → (k < length lvd)%nat →
  length (thetasnew_ m) = Z.to_nat (nh_ m) →
  (let! sf := lift (at_ tc s) in
   let! vsf := lift (atZ v sf) in
   let! oldtilde := confindex_at vsf in
   let! nck := lift (at_ newconf k) in
   let! ncs := lift (at_ nck s) in
   let! newtilde := confindex_at ncs in
   let! m := get in
   let! c := lift (atZ (a_ m) (ls_ m * sf + oldtilde)) in
   let! logvaldiffs := lift (sub_at lvd k c) in
   let! c := lift (atZ (a_ m) (ls_ m * sf + newtilde)) in
   let! logvaldiffs := lift (add_at logvaldiffs k c) in
   let! r := lift (row (W_ m) (ls_ m * sf + oldtilde)) in
   let! tn := lift (vsub (thetasnew_ m) r) in
   let! r := lift (row (W_ m) (ls_ m * sf + newtilde)) in
   let! tn := lift (vadd tn r) in
   let! _ := modify (set_thetasnew tn) in
   ret logvaldiffs) m
  = (set_thetasnew (row_change h (W_ m) v (thetasnew_ m) c) m,
     Ok (<[k := (lvd !!! k ⊖ a_ m !!! ext_index h c.1 (v !!! Z.to_nat c.1))
                ⊕ a_ m !!! ext_index h c.1 c.2]> lvd)).
Proof.
  intros Hinv Hv Hnck Hmv Hc Hk Htn. destruct c as [sf x].
  destruct (valid_move_lookup h _ _ _ _ _ Hmv Hc) as (Hs & Hx & Hrange & j & Hj).
  destruct (legal_lookup h v sf Hv Hrange) as (xo & io & Hxo & Hio).
  pose proof (inv_sized h m Hinv) as [_ _ _ HW HWr Ha _].
  destruct (ext_index_legal h m sf xo io Hinv Hrange Hio) as (Ho0 & Ho1 & _ & Ho).
  destruct (ext_index_legal h m sf x j Hinv Hrange Hj) as (Hn0 & Hn1 & _ & Hn).
  destruct (lookup_lt_is_Some_2 (W_ m) (ext_index h sf xo)) as [ro Hro]; [lia|].
  destruct (lookup_lt_is_Some_2 (W_ m) (ext_index h sf x)) as [rn Hrn]; [lia|].
  destruct (lookup_lt_is_Some_2 (a_ m) (ext_index h sf xo)) as [ao Hao]; [lia|].
  destruct (lookup_lt_is_Some_2 (a_ m) (ext_index h sf x)) as [an Han]; [lia|].
  pose proof (Forall_lookup_1 _ _ _ _ HWr Hro) as Hlo.
  pose proof (Forall_lookup_1 _ _ _ _ HWr Hrn) as Hln. simpl in Hlo, Hln.
  unfold bind, lift, get, modify, ret. rewrite (at_Ok _ _ _ Hs).
  rewrite (atZ_Ok _ _ _ (proj1 Hrange) Hxo).
  rewrite (confindex_at_legal h m xo io Hinv Hio), (at_Ok _ _ _ Hnck).
  rewrite (at_Ok _ _ _ Hx), (confindex_at_legal h m x j Hinv Hj).
  rewrite (atZ_Ok _ _ ao) by (by rewrite ?Ho1).
  rewrite sub_at_Ok by done.
  rewrite (atZ_Ok _ _ an) by (by rewrite ?Hn1).
  rewrite add_at_Ok by (by rewrite length_insert).
  unfold row. rewrite (atZ_Ok _ _ ro) by (by rewrite ?Ho1).
  unfold vsub, vadd, same_size. rewrite decide_True by lia. simpl.
  rewrite (atZ_Ok _ _ rn) by (by rewrite ?Hn1).
  rewrite decide_True by (rewrite length_zip_with; lia). simpl.
  unfold row_change. simpl. rewrite (list_lookup_total_correct _ _ _ Hxo).
  rewrite (list_lookup_total_correct _ _ _ Hro),
    (list_lookup_total_correct _ _ _ Hrn),
    (list_lookup_total_correct _ _ _ Hao),
    (list_lookup_total_correct _ _ _ Han).
  rewrite list_lookup_total_insert_eq by done.
  by rewrite list_insert_insert_eq.
Qed.

(** The inner loop: the bias terms of the move go to the entry [k], the
    row changes to [thetasnew_]. *)
Lemma LogValDiff_inner h m v (tc : list Z) (newconf : list (list K))
    (nck : list K) (k : nat) (lvd : list K) :
  Inv h m → legal h v → newconf !! k = Some nck → valid_move h tc nck →
  (k < length lvd)%nat → length (thetasnew_ m) = Z.to_nat (nh_ m) →
  for_M (λ s logvaldiffs,
    let! sf := lift (at_ tc s) in
    let! vsf := lift (atZ v sf) in
    let! oldtilde := confindex_at vsf in
    let! nck := lift (at_ newconf k) in
    let! ncs := lift (at_ nck s) in
    let! newtilde := confindex_at ncs in
    let! m := get in
    let! c := lift (atZ (a_ m) (ls_ m * sf + oldtilde)) in
    let! logvaldiffs := lift (sub_at logvaldiffs k c) in
    let! c := lift (atZ (a_ m) (ls_ m * sf + newtilde)) in
    let! logvaldiffs := lift (add_at logvaldiffs k c) in
    let! r := lift (row (W_ m) (ls_ m * sf + oldtilde)) in
    let! tn := lift (vsub (thetasnew_ m) r) in
    let! r := lift (row (W_ m) (ls_ m * sf + newtilde)) in
    let! tn := lift (vadd tn r) in
    let! _ := modify (set_thetasnew tn) in
    ret logvaldiffs) 0 (length tc) lvd m
  = (set_thetasnew (row_updates h (W_ m) v (zip tc nck) (thetasnew_ m)) m,
     Ok (<[k := bias_code h (a_ m) v (zip tc nck) (lvd !!! k)]> lvd)).
Proof.
  intros Hinv Hv Hnck Hmv Hk Htn. set (cs := zip tc nck).
  assert (length tc = length cs) as ->
    by (unfold cs; rewrite length_zip_with; destruct Hmv as [-> _]; lia).
  pose proof (valid_move_Forall h tc nck Hmv) as Hcs. fold cs in Hcs.
  match goal with |- for_M ?body _ _ _ _ = _ =>
    destruct (for_M_inv
      (λ i lvd' m',
         (i ≤ length cs)%nat
         ∧ lvd' = <[k := bias_code h (a_ m) v (take i cs) (lvd !!! k)]> lvd
         ∧ m' = set_thetasnew
                  (row_updates h (W_ m) v (take i cs) (thetasnew_ m)) m)
      body (length cs) 0 lvd m) as (lvd' & m' & -> & _ & -> & ->)
  end.
  - split; [lia|]. simpl. split.
    + symmetry. apply list_insert_id.
      by apply list_lookup_lookup_total_lt.
    + symmetry. apply set_thetasnew_id.
  - intros i lvd' m' [_ Hi] (_ & -> & ->).
    destruct (lookup_lt_is_Some_2 cs i) as [c Hc]; [lia|].
    eexists _, _. split.
    + apply (LogValDiff_step h _ v tc newconf nck k i c); try done.
      * by apply Inv_set_thetasnew.
      * by rewrite length_insert.
      * simpl. apply (length_row_updates h m); try done.
        by apply Forall_take.
    + split; [lia|]. simpl.
      rewrite list_lookup_total_insert_eq by done.
      rewrite list_insert_insert_eq.
      rewrite (take_S_r _ _ _ Hc). unfold bias_code, row_updates.
      by rewrite !foldl_app.
  - simpl. by rewrite firstn_all.
Qed.

Lemma bias_code_delta h (a v : list K) (changes : list (Z * K)) (acc : K) :
  bias_code h a v changes acc = acc ⊕ bias_delta h a v changes.
Proof.
  unfold bias_code, bias_delta. revert acc.
  induction changes as [|c changes IH]; intros acc; simpl; [ring|].
  rewrite IH. ring.
Qed.

(** The entry that the code computes is the ratio of the spec. *)
Lemma ratio_code_log_ratio h m v (mv : list Z * list K) :
  ratio_code h m v (theta h m v) mv = log_ratio h m v (zip mv.1 mv.2).
Proof.
  unfold ratio_code, log_ratio. destruct (decide (mv.1 = [])) as [->|_].
  - simpl. ring.
  - rewrite bias_code_delta. ring.
Qed.

Lemma results_next {A} (f : A → K) (items : list A) (j : nat) (x : A) (r : K) :
  items !! j = Some x → r = f x →
  <[j := r]> (map f (take j items) ++ replicate (length items - j) K0)
  = map f (take (S j) items) ++ replicate (length items - S j) K0.
Proof.
  intros Hx ->. assert (j < length items)%nat by by eapply lookup_lt_Some.
  assert (length (map f (take j items)) = j) as Hlen
    by (rewrite length_map, length_take; lia).
  rewrite insert_app_r_alt by lia. rewrite Hlen, Nat.sub_diag.
  replace (length items - j)%nat with (S (length items - S j)) by lia.
  rewrite (take_S_r _ _ _ Hx), map_app, <- app_assoc. done.
Qed.

Lemma results_lookup_Some {A} (f : A → K) (items : list A) (j : nat) :
  (j < length items)%nat →
  (map f (take j items) ++ replicate (length items - j) K0) !! j = Some K0.
Proof.
  intros Hj.
  rewrite lookup_app_r by (rewrite length_map, length_take; lia).
  rewrite length_map, length_take.
  apply lookup_replicate_2. lia.
Qed.

Lemma results_lookup {A} (f : A → K) (items : list A) (j : nat) :
  (j < length items)%nat →
  (map f (take j items) ++ replicate (length items - j) K0) !!! j = K0.
Proof.
  intros Hj. by apply list_lookup_total_correct, results_lookup_Some.
Qed.

(** [ComputeTheta] returns a vector of [nh] entries; no law of the
    scalars is needed for that. *)
Lemma ComputeTheta_Ok h m v :
  Inv h m → length v = Z.to_nat (Size h) →
  ∃ vt th, ComputeTheta v m = (set_vtilde vt m, Ok th)
           ∧ length th = Z.to_nat (nh_ m).
Proof.
  intros [(Hnv0 & Hls0 & Hst & Hnd) [_ _ _ HW HWr _ Hb] Hnv Hls Hlc Hmask _] Hv.
  unfold ComputeTheta, bind, get, lift, modify. simpl.
  unfold ComputeVtilde, mat_vec. rewrite decide_True.
  2:{ rewrite Hmask. apply Forall_map, Forall_seq. intros i _. simpl.
      rewrite length_onehot. lia. }
  simpl. unfold same_size.
  assert (length (localconfs_ m) = Z.to_nat (nv_ m * ls_ m)) as Hlcl.
  { rewrite Hlc, Hnv, Hls. replace (Z.to_nat (Size h * LocalSize h))
      with (Z.to_nat (Size h) * length (LocalStates h))%nat by lia.
    generalize (Z.to_nat (Size h)). intros n.
    induction n as [|n IH]; simpl; [done|]. by rewrite length_app, IH. }
  assert (length (map (λ r, dot r v) (mask_ m)) = Z.to_nat (nv_ m * ls_ m))
    as Hmvl by (by rewrite length_map, Hmask, length_map, length_seq).
  rewrite decide_True by by rewrite Hlcl, Hmvl. simpl.
  unfold tmat_vec. rewrite decide_True.
  2:{ split; [|by rewrite Hb]. rewrite length_zip_with, Hlcl, Hmvl. lia. }
  simpl. unfold vadd, same_size.
  rewrite decide_True by (rewrite length_rows_sum; by rewrite ?Hb). simpl.
  eexists _, _. split; [done|].
  rewrite length_zip_with, length_rows_sum, Hb; [lia|]. by rewrite Hb.
Qed.

(** [LogValDiff] on a list of moves: one entry per move, each computed
    from the base configuration; only scratch members change. *)
Lemma LogValDiff_entries h m v (moves : list (list Z * list K)) vt th :
  Inv h m → legal h v → Forall (λ mv, valid_move h mv.1 mv.2) moves →
  ComputeTheta v m = (set_vtilde vt m, Ok th) →
  length th = Z.to_nat (nh_ m) →
  ∃ tn, LogValDiff v moves.*1 moves.*2 m
        = (set_thetasnew tn (set_thetas th (set_vtilde vt m)),
           Ok (map (ratio_code h m v th) moves)).
Proof.
  intros Hinv Hv Hmoves Hct Hth. unfold LogValDiff. unfold bind at 1.
  rewrite Hct. unfold bind at 1, modify at 1.
  set (m2 := set_thetas th (set_vtilde vt m)).
  assert (Inv h m2) as Hinv2 by by apply Inv_set_thetas, Inv_set_vtilde.
  rewrite length_fmap.
  match goal with |- ∃ tn, for_M ?body _ _ _ _ = _ =>
    destruct (for_M_inv
      (λ j lvd m',
         (j ≤ length moves)%nat
         ∧ lvd = map (ratio_code h m v th) (take j moves)
                 ++ replicate (length moves - j) K0
         ∧ ∃ tn, m' = set_thetasnew tn m2)
      body (length moves) 0 (replicate (length moves) K0) m2)
      as (lvd & m' & -> & _ & -> & tn & ->)
  end.
  - split; [lia|]. simpl. rewrite Nat.sub_0_r. split; [done|].
    exists (thetasnew_ m2). symmetry. apply set_thetasnew_id.
  - intros j lvd m' [_ Hj] (_ & -> & tn & ->). simpl in Hj.
    destruct (lookup_lt_is_Some_2 moves j) as [[tc nc] Hmv]; [lia|].
    pose proof (Forall_lookup_1 _ _ _ _ Hmoves Hmv) as Hvalid.
    simpl in Hvalid.
    assert (moves.*1 !! j = Some tc) as Htc
      by (by rewrite list_lookup_fmap, Hmv).
    assert (moves.*2 !! j = Some nc) as Hnc
      by (by rewrite list_lookup_fmap, Hmv).
    unfold bind at 1, lift at 1. rewrite (at_Ok _ _ _ Htc).
    destruct (decide (length tc ≠ 0%nat)) as [Hne|Heq].
    + unfold bind at 1, get at 1. unfold bind at 1, modify at 1.
      unfold bind at 1.
      rewrite (LogValDiff_inner h _ v tc moves.*2 nc j); try done.
      * unfold bind at 1, get at 1, lift.
        rewrite add_at_Ok
          by (rewrite length_insert, length_app, length_map, length_take,
                length_replicate; lia).
        eexists _, _. split; [done|]. split; [lia|]. split; [|by eexists].
        rewrite list_lookup_total_insert_eq
          by (rewrite length_app, length_map, length_take, length_replicate;
              lia).
        rewrite list_insert_insert_eq, results_lookup by lia.
        apply (results_next _ _ _ _ _ Hmv).
        unfold ratio_code. simpl. rewrite decide_False; [done|].
        intros ->. by apply Hne.
      * by do 2 apply Inv_set_thetasnew.
      * rewrite length_app, length_map, length_take, length_replicate. lia.
    + eexists _, _. split; [done|]. split; [lia|]. split; [|by eexists].
      rewrite <- (results_next (ratio_code h m v th) moves j (tc, nc) K0 Hmv).
      * symmetry. by apply list_insert_id, results_lookup_Some.
      * unfold ratio_code. simpl. rewrite decide_True; [done|].
        destruct tc; [done|]. exfalso. by apply Heq.
  - exists tn. simpl. by rewrite firstn_all, Nat.sub_diag, app_nil_r.
Qed.

(** C2.  For a configuration [v] and a list of moves (sites with their
    legal new values), [LogValDiff] returns one scalar per move.  The entry
    of a move is [bias_delta + SumLogCosh theta' - SumLogCosh theta_base]:
    the sum over the changed sites of [a[new] - a[old]], with [theta_base]
    the theta of [v] and [theta'] that vector after the row changes of this
    move alone; old values and old rows are always those of the base [v],
    whatever the other moves of the list are. *)
Theorem C2_LogValDiff_one_ratio_per_move h m v
    (moves : list (list Z * list K)) :
  Inv h m → legal h v → Forall (λ mv, valid_move h mv.1 mv.2) moves →
  ∃ m' logvaldiffs,
    LogValDiff v moves.*1 moves.*2 m = (m', Ok logvaldiffs)
    ∧ length logvaldiffs = length moves
    ∧ ∀ k mv, moves !! k = Some mv →
        logvaldiffs !! k
        = Some (bias_delta h (a_ m) v (zip mv.1 mv.2)
                ⊕ SumLogCosh (row_updates h (W_ m) v (zip mv.1 mv.2)
                                          (theta h m v))
                ⊖ SumLogCosh (theta h m v)).
Proof.
  intros Hinv Hv Hmoves.
  destruct (LogValDiff_entries h m v moves (Encode h v) (theta h m v))
    as [tn Hl]; try done.
  - apply ComputeTheta_theta; [done|apply Hv].
  - by apply length_theta.
  - eexists _, _. split; [exact Hl|]. split; [by rewrite length_map|].
    intros k mv Hmv. rewrite map_fmap, list_lookup_fmap, Hmv. simpl.
    by rewrite ratio_code_log_ratio.
Qed.

(** C6.  A move with an empty change list gets exactly [K0]: for every
    list of moves on a configuration, [LogValDiff] returns, and the entry
    of every empty move is [K0]; in particular the list [[[]]] gives
    [[K0]].  No law of the scalars is used. *)
Theorem C6_empty_move_gives_zero h m v (moves : list (list Z * list K)) :
  Inv h m → legal h v → Forall (λ mv, valid_move h mv.1 mv.2) moves →
  (∃ m' logvaldiffs,
     LogValDiff v moves.*1 moves.*2 m = (m', Ok logvaldiffs)
     ∧ ∀ k nc, moves !! k = Some ([], nc) → logvaldiffs !! k = Some K0)
  ∧ ∃ m', LogValDiff v [[]] [[]] m = (m', Ok [K0]).
Proof.
  intros Hinv Hv Hmoves.
  destruct (ComputeTheta_Ok h m v Hinv (proj1 Hv)) as (vt & th & Hct & Hth).
  split.
  - destruct (LogValDiff_entries h m v moves vt th) as [tn Hl]; try done.
    eexists _, _. split; [exact Hl|].
    intros k nc Hmv. by rewrite map_fmap, list_lookup_fmap, Hmv.
  - destruct (LogValDiff_entries h m v [([], [])] vt th) as [tn Hl];
      try done.
    + apply Forall_singleton. by repeat split.
    + eexists. exact Hl.
Qed.

(** ** Load *)

Lemma FieldExists_true (pars : gmap string (json_value K)) (f : string)
    (j : json_value K) :
  pars !! f = Some j → FieldExists pars f = true.
Proof. intros Hj. unfold FieldExists. apply bool_decide_eq_true. eauto. Qed.

Lemma FieldExists_false (pars : gmap string (json_value K)) (f : string) :
  pars !! f = None → FieldExists pars f = false.
Proof.
  intros Hj. unfold FieldExists. apply bool_decide_eq_false.
  rewrite Hj. by intros [? ?].
Qed.

(** A record whose [Nvisible] is not the size of the configuration space:
    [Load] throws, and the member [nv_] already holds the value of the
    record. *)
Lemma Load_Nvisible_mismatch h (pars : gmap string (json_value K)) m (z : Z) :
  pars !! "Name" = Some (JString "RbmMultival") →
  pars !! "Nvisible" = Some (JInt z) → int_of z ≠ int_of (Size h) →
  Load h pars m = (set_nv (int_of z) m, Err incompatible).
Proof.
  intros Hname Hnv Hz. unfold Load, bind, lift, json_at. rewrite Hname.
  rewrite decide_False by (by intros ?).
  rewrite (FieldExists_true _ _ _ Hnv), Hnv. simpl.
  by rewrite decide_True.
Qed.

(** The same for [LocalSize]. *)
Lemma Load_LocalSize_mismatch h (pars : gmap string (json_value K)) m (z : Z) :
  pars !! "Name" = Some (JString "RbmMultival") →
  pars !! "Nvisible" = None → nv_ m = int_of (Size h) →
  pars !! "LocalSize" = Some (JInt z) → int_of z ≠ int_of (LocalSize h) →
  Load h pars m = (set_ls (int_of z) m, Err incompatible).
Proof.
  intros Hname Hnv Hnv' Hls Hz. unfold Load, bind, lift, json_at.
  rewrite Hname. rewrite decide_False by (by intros ?).
  rewrite (FieldExists_false _ _ Hnv). simpl.
  rewrite decide_False by (by intros ?).
  rewrite (FieldExists_true _ _ _ Hls), Hls. simpl.
  by rewrite decide_True.
Qed.

(** The optional read of a dimension leaves the machine as it was or
    assigns the one member. *)
Lemma Load_read_dim (pars : gmap string (json_value K)) (field : string)
    (set : Z → Machine K → Machine K) m m1 (r : result unit) :
  (if FieldExists pars field then
     let! z := lift (let? j := json_at pars field in to_int j) in
     modify (set z)
   else ret tt) m = (m1, r) →
  m1 = m ∨ ∃ z, m1 = set z m.
Proof.
  destruct (FieldExists pars field); unfold bind, lift, modify, ret.
  - destruct (let? j := json_at pars field in to_int j) as [z|e];
      intros [= <- <-]; eauto.
  - intros [= <- <-]. eauto.
Qed.

(** C10.  A record with the right type tag and neither [Nhidden] nor
    [Alpha]: [Load] ends with an error and the hidden count of the machine
    is the one it had; when the dimensions of the record pass the two
    checks, the error is the one of the read of [Alpha]. *)
Theorem C10_Load_without_Nhidden_and_Alpha_fails h
    (pars : gmap string (json_value K)) m :
  pars !! "Name" = Some (JString "RbmMultival") →
  pars !! "Nhidden" = None → pars !! "Alpha" = None →
  is_Err (Load h pars m).2
  ∧ nh_ (Load h pars m).1 = nh_ m
  ∧ (pars !! "Nvisible" = Some (JInt (Size h)) →
     pars !! "LocalSize" = Some (JInt (LocalSize h)) →
     (Load h pars m).2
     = Err (InvalidInputError "Field 'Alpha' is not defined in the input")).
Proof.
  intros Hname Hnh Halpha.
  assert (∃ m' e, Load h pars m = (m', Err e) ∧ nh_ m' = nh_ m) as Hfail.
  { unfold Load. unfold bind at 1, lift at 1, json_at at 1. rewrite Hname.
    rewrite decide_False by (by intros ?). unfold bind at 1.
    match goal with |- context [(if FieldExists pars "Nvisible"
                                 then ?c else ?d) m] =>
      destruct ((if FieldExists pars "Nvisible" then c else d) m)
        as [m1 [[]|e]] eqn:H1
    end; apply Load_read_dim in H1;
      (assert (nh_ m1 = nh_ m) as Hm1
         by (destruct H1 as [->|[z ->]]; done));
      [|by eauto].
    unfold bind at 1, get at 1.
    destruct (decide (nv_ m1 ≠ int_of (Size h))); [by unfold throw; eauto|].
    unfold bind at 1.
    match goal with |- context [(if FieldExists pars "LocalSize"
                                 then ?c else ?d) m1] =>
      destruct ((if FieldExists pars "LocalSize" then c else d) m1)
        as [m2 [[]|e]] eqn:H2
    end; apply Load_read_dim in H2;
      (assert (nh_ m2 = nh_ m) as Hm2
         by (destruct H2 as [->|[z ->]]; simpl; congruence));
      [|by eauto].
    unfold bind at 1, get at 1.
    destruct (decide (ls_ m2 ≠ int_of (LocalSize h)));
      [by unfold throw; eauto|].
    rewrite (FieldExists_false _ _ Hnh). unfold FieldVal. rewrite Halpha.
    unfold bind at 1, lift at 1. simpl. by eauto. }
  destruct Hfail as (m' & e & Hl & Hnh').
  split; [rewrite Hl; by exists e|]. split; [by rewrite Hl|].
  clear Hl Hnh' m' e.
  intros Hnv Hls. unfold Load, bind, lift, json_at. rewrite Hname.
  rewrite decide_False by (by intros ?).
  rewrite (FieldExists_true _ _ _ Hnv), Hnv. simpl.
  rewrite decide_False by (by intros ?).
  rewrite (FieldExists_true _ _ _ Hls), Hls. simpl.
  rewrite decide_False by (by intros ?).
  rewrite (FieldExists_false _ _ Hnh). unfold FieldVal. by rewrite Halpha.
Qed.

(** ** What LogValDiff leaves alone *)

Implicit Types (P : Machine K → Prop).
Implicit Types (R : Machine K → Machine K → Prop).

Lemma preserves_bind {A B} P (c : Method K A) (f : A → Method K B) :
  preserves P c → (∀ x, preserves P (f x)) → preserves P (bind c f).
Proof.
  intros Hc Hf m Hm. unfold bind. specialize (Hc m Hm).
  destruct (c m) as [m1 [a|e]]; simpl in *; [by apply Hf | done].
Qed.

Lemma preserves_lift {A} P (r : result A) : preserves P (lift r).
Proof. by intros m Hm. Qed.
Lemma preserves_ret {A} P (a : A) : preserves P (ret a).
Proof. by intros m Hm. Qed.
Lemma preserves_get P : preserves P get.
Proof. by intros m Hm. Qed.
Lemma preserves_modify P (g : Machine K → Machine K) :
  (∀ m, P m → P (g m)) → preserves P (modify g).
Proof. intros Hg m Hm. by apply Hg. Qed.

Lemma preserves_for_M {St} P (body : nat → St → Method K St) (lo n : nat)
    (s : St) :
  (∀ i s, preserves P (body i s)) → preserves P (for_M body lo n s).
Proof.
  intros Hb. revert lo s. induction n as [|n IH]; intros lo s; simpl.
  - apply preserves_ret.
  - apply preserves_bind; [apply Hb | intros s'; apply IH].
Qed.

Lemma agree_confindex_at lvl m0 (x : K) :
  preserves (agree lvl m0) (confindex_at x).
Proof.
  intros m (? & ? & ? & ? & ? & ? & Hci & ? & ?). unfold confindex_at.
  destruct (confindex_ m !! x) as [i|] eqn:Hx; simpl; [done|].
  repeat (split; [done|]). split; [|done]. intros y. rewrite Hci. simpl.
  destruct (decide (x = y)) as [->|Hne].
  - by rewrite lookup_insert_eq, Hx.
  - by rewrite lookup_insert_ne.
Qed.

Lemma agree_ComputeTheta m0 v : preserves (agree 0 m0) (ComputeTheta v).
Proof.
  unfold ComputeTheta.
  apply preserves_bind; [apply preserves_get|intros m].
  apply preserves_bind; [apply preserves_lift|intros vt].
  apply preserves_bind; [|intros _; apply preserves_lift].
  apply preserves_modify. by intros m' Hm'.
Qed.

Lemma agree_refl lvl m : agree lvl m m.
Proof. by repeat split. Qed.

(** Whatever its arguments, and however it ends, [LogValDiff] leaves a
    machine that agrees with the one it started from. *)
Lemma LogValDiff_agree v tochange newconf m :
  agree 0 m (LogValDiff v tochange newconf m).1.
Proof.
  assert (∀ x, preserves (agree 0 m) (modify (set_thetas x))) as Hth.
  { intros x. apply preserves_modify.
    intros m' (? & ? & ? & ? & ? & ? & ? & ? & ?).
    repeat split; try done; simpl; lia. }
  assert (∀ x, preserves (agree 0 m) (modify (set_thetasnew x))) as Htn.
  { intros x. apply preserves_modify.
    intros m' (? & ? & ? & ? & ? & ? & ? & ? & ?).
    repeat split; try done; simpl; lia. }
  enough (preserves (agree 0 m) (LogValDiff v tochange newconf)) as Hp
    by apply Hp, agree_refl.
  unfold LogValDiff.
  apply preserves_bind; [apply agree_ComputeTheta|intros th].
  apply preserves_bind; [apply Hth|intros _].
  apply preserves_for_M. intros k lvd.
  apply preserves_bind; [apply preserves_lift|intros tc].
  destruct (decide _); [|apply preserves_ret].
  apply preserves_bind; [apply preserves_get|intros m1].
  apply preserves_bind; [apply Htn|intros _].
  apply preserves_bind; [|intros lvd'].
  - apply preserves_for_M. intros s lvd'.
    repeat (apply preserves_bind; [|intros ?]);
      first [ apply preserves_lift | apply agree_confindex_at | apply Htn
            | apply preserves_get | apply preserves_ret ].
  - apply preserves_bind; [apply preserves_get|intros m2].
    apply preserves_lift.
Qed.

Lemma rel_bind {A B} R R1 R2 (RA : A → A → Prop) (RB : B → B → Prop)
    (c c' : Method K A) (f f' : A → Method K B) :
  rel R R1 RA c c' → (∀ x x', RA x x' → rel R1 R2 RB (f x) (f' x')) →
  rel R R2 RB (bind c f) (bind c' f').
Proof.
  intros Hc Hf m m' HR. unfold bind. specialize (Hc m m' HR).
  destruct (c m) as [m1 [x|e]], (c' m') as [m1' [x'|e']]; simpl in *;
    try done.
  destruct Hc as [Hx HR1]. apply (Hf x x' Hx m1 m1' HR1).
Qed.

Lemma rel_lift {A} R (r : result A) : rel R R eq (lift r) (lift r).
Proof. intros m m' HR. by destruct r. Qed.

Lemma rel_ret {A} R (RA : A → A → Prop) (x x' : A) :
  RA x x' → rel R R RA (ret x) (ret x').
Proof. by intros Hx m m' HR. Qed.

Lemma rel_get R : rel R R R get get.
Proof. by intros m m' HR. Qed.

Lemma rel_modify R R' (g g' : Machine K → Machine K) :
  (∀ m m', R m m' → R' (g m) (g' m')) → rel R R' eq (modify g) (modify g').
Proof. intros Hg m m' HR. simpl. split; [done|by apply Hg]. Qed.

Lemma rel_weaken {A} R R1 R2 (RA : A → A → Prop) (c c' : Method K A) :
  (∀ m m', R1 m m' → R2 m m') → rel R R1 RA c c' → rel R R2 RA c c'.
Proof.
  intros Hw Hc m m' HR. specialize (Hc m m' HR).
  destruct (c m).2, (c' m').2; try done. destruct Hc. split; [done|].
  by apply Hw.
Qed.

Lemma rel_for_M {St} R (RS : St → St → Prop)
    (body body' : nat → St → Method K St) (lo n : nat) (s s' : St) :
  (∀ i x x', RS x x' → rel R R RS (body i x) (body' i x')) → RS s s' →
  rel R R RS (for_M body lo n s) (for_M body' lo n s').
Proof.
  intros Hb. revert lo s s'. induction n as [|n IH]; intros lo s s' Hs; simpl.
  - by apply rel_ret.
  - eapply rel_bind; [by apply Hb|]. intros x x' Hx. by apply IH.
Qed.

Lemma rel_results {A} R R' (c : Method K A) m m' :
  rel R R' eq c c → R m m' → (c m).2 = (c m').2.
Proof.
  intros Hc HR. specialize (Hc m m' HR).
  destruct (c m).2, (c m').2; try done; [by destruct Hc as [-> _]|by subst].
Qed.

Lemma rel_confindex_at lvl (x : K) :
  rel (agree lvl) (agree lvl) eq (confindex_at x) (confindex_at x).
Proof.
  intros m m' (Hls & Ha & Hb & HW & Hlc & Hmk & Hci & Ht & Htn).
  pose proof (Hci x) as Hx. unfold confindex_at.
  destruct (confindex_ m !! x) as [i|] eqn:E,
           (confindex_ m' !! x) as [i'|] eqn:E'; simpl in *;
    (split; [done|]); repeat split; simpl; try done;
    intros y; specialize (Hci y);
    (destruct (decide (x = y)) as [->|Hne];
     [ rewrite ?lookup_insert_eq, ?E, ?E'; simpl; congruence
     | by rewrite ?lookup_insert_ne by done ]).
Qed.

Lemma rel_ComputeTheta v :
  rel (agree 0) (agree 0) eq (ComputeTheta v) (ComputeTheta v).
Proof.
  unfold ComputeTheta.
  eapply rel_bind; [apply rel_get|]. intros m m' Hag.
  destruct Hag as (_ & _ & Hb & HW & Hlc & Hmask & _).
  unfold ComputeVtilde. rewrite <- Hb, <- HW, <- Hlc, <- Hmask.
  eapply rel_bind; [apply rel_lift|]. intros vt vt' <-.
  eapply rel_bind; [|intros _ _ _; apply rel_lift].
  apply rel_modify. by intros m1 m1' Hag.
Qed.

(** Two runs of [LogValDiff] from machines that agree end alike. *)
Lemma rel_LogValDiff v tochange newconf :
  rel (agree 0) (agree 1) eq
      (LogValDiff v tochange newconf) (LogValDiff v tochange newconf).
Proof.
  unfold LogValDiff.
  eapply rel_bind; [apply rel_ComputeTheta|]. intros th th' <-.
  eapply (rel_bind _ (agree 1)).
  { apply rel_modify. intros m m' (? & ? & ? & ? & ? & ? & ? & ? & ?).
    repeat split; try done. simpl. lia. }
  intros _ _ _. apply rel_for_M; [|done]. intros k lvd lvd' <-.
  eapply rel_bind; [apply rel_lift|]. intros tc tc' <-.
  destruct (decide _); [|by apply rel_ret].
  eapply rel_bind; [apply rel_get|]. intros m1 m1' Hag1.
  assert (thetas_ m1 = thetas_ m1') as <-
    by (destruct Hag1 as (_ & _ & _ & _ & _ & _ & _ & Ht & _); by apply Ht).
  eapply (rel_bind _ (agree 2)).
  { apply rel_modify. intros m m' (? & ? & ? & ? & ? & ? & ? & Ht & ?).
    repeat split; simpl; try done. intros _. apply Ht. lia. }
  intros _ _ _. eapply (rel_bind _ (agree 2) _ eq).
  - apply rel_for_M; [|done]. intros s x x' <-.
    eapply rel_bind; [apply rel_lift|]. intros sf sf' <-.
    eapply rel_bind; [apply rel_lift|]. intros vsf vsf' <-.
    eapply rel_bind; [apply rel_confindex_at|]. intros ot ot' <-.
    eapply rel_bind; [apply rel_lift|]. intros nck nck' <-.
    eapply rel_bind; [apply rel_lift|]. intros ncs ncs' <-.
    eapply rel_bind; [apply rel_confindex_at|]. intros nt nt' <-.
    eapply rel_bind; [apply rel_get|]. intros m2 m2' Hag2.
    destruct Hag2 as (Hls & Ha & _ & HW & _ & _ & _ & _ & Htn).
    rewrite <- Hls, <- Ha, <- HW, <- (Htn ltac:(lia)).
    eapply rel_bind; [apply rel_lift|]. intros c1 c1' <-.
    eapply rel_bind; [apply rel_lift|]. intros l1 l1' <-.
    eapply rel_bind; [apply rel_lift|]. intros c2 c2' <-.
    eapply rel_bind; [apply rel_lift|]. intros l2 l2' <-.
    eapply rel_bind; [apply rel_lift|]. intros r1 r1' <-.
    eapply rel_bind; [apply rel_lift|]. intros t1 t1' <-.
    eapply rel_bind; [apply rel_lift|]. intros r2 r2' <-.
    eapply rel_bind; [apply rel_lift|]. intros t2 t2' <-.
    eapply rel_bind; [|intros _ _ _; by apply rel_ret].
    apply rel_modify. intros m m' (? & ? & ? & ? & ? & ? & ? & ? & ?).
    by repeat split.
  - intros l l' <-. eapply rel_bind; [apply rel_get|]. intros m2 m2' Hag2.
    destruct Hag2 as (Hls & Ha & Hb & HW & Hlc & Hmk & Hci & Ht & Htn).
    rewrite <- (Htn ltac:(lia)).
    eapply rel_weaken; [|apply rel_lift].
    intros m m' (? & ? & ? & ? & ? & ? & ? & Ht' & Htn').
    repeat split; try done; intros; [apply Ht'|apply Htn']; lia.
Qed.

(** C8.  Whatever its arguments and however it ends, [LogValDiff] leaves
    the parameters [a_], [b_], [W_] as they were; the lookup, which the
    caller holds, is not an argument, and remains the one of the machine:
    [InitLookup] returns after the call what it returned before; and a
    second identical call returns what the first returned. *)
Theorem C8_LogValDiff_is_a_query v tochange newconf m :
  let m' := (LogValDiff v tochange newconf m).1 in
  a_ m' = a_ m ∧ b_ m' = b_ m ∧ W_ m' = W_ m
  ∧ (∀ v0, (InitLookup v0 m').2 = (InitLookup v0 m).2)
  ∧ (LogValDiff v tochange newconf m').2 = (LogValDiff v tochange newconf m).2.
Proof.
  intros m'. pose proof (LogValDiff_agree v tochange newconf m) as Hag.
  fold m' in Hag.
  pose proof Hag as (_ & Ha & Hb & HW & _).
  do 3 (split; [done|]). split.
  - intros v0. symmetry. eapply (rel_results (agree 0) (agree 0)); [|done].
    unfold InitLookup. eapply rel_bind; [apply rel_ComputeTheta|].
    intros th th' <-. by apply rel_ret.
  - symmetry. eapply rel_results; [apply rel_LogValDiff|done].
Qed.

(** ** Init establishes the invariant *)

Lemma Init_confindex_Ok (ls : Z) (states : list K) (ci0 : gmap K Z) :
  length states = Z.to_nat ls → NoDup states →
  ∃ ci, Init_confindex ls states ci0 = Ok ci
        ∧ ∀ i x, states !! i = Some x → ci !! x = Some (Z.of_nat i).
Proof.
  intros Hlen Hnd. unfold Init_confindex. rewrite <- Hlen.
  destruct (for_loop_inv
    (λ k (ci : gmap K Z),
       ∀ i x, (i < k)%nat → states !! i = Some x → ci !! x = Some (Z.of_nat i))
    (λ i ci, let? x := at_ states i in Ok (<[x := Z.of_nat i]> ci))
    (length states) 0 ci0) as (ci & Hci & HP).
  - intros i x Hi. lia.
  - intros k ci [_ Hk] HP.
    destruct (lookup_lt_is_Some_2 states k) as [y Hy]; [lia|].
    rewrite (at_Ok _ _ _ Hy). simpl. eexists. split; [done|].
    intros i x Hi Hx. destruct (decide (i = k)) as [->|Hne].
    + assert (x = y) as -> by congruence. apply lookup_insert_eq.
    + rewrite lookup_insert_ne; [apply HP; [lia|done]|].
      intros ->. apply Hne. symmetry. by eapply NoDup_lookup.
  - exists ci. split; [done|]. intros i x Hx. apply HP; [|done].
    simpl. by eapply lookup_lt_Some.
Qed.

Lemma quot_counter (k : nat) (ls : Z) :
  0 < ls →
  0 ≤ Z.quot (Z.of_nat k) ls
  ∧ Z.to_nat (Z.quot (Z.of_nat k) ls) = (k `div` Z.to_nat ls)%nat.
Proof.
  intros Hls. rewrite Z.quot_div_nonneg by lia.
  split; [apply Z.div_pos; lia|].
  rewrite <- (Z2Nat.id ls) at 1 by lia.
  by rewrite <- Nat2Z.inj_div, Nat2Z.id.
Qed.

Lemma Init_mask_Ok (nv ls : Z) :
  0 ≤ nv → 0 ≤ ls →
  Init_mask (nv * ls) ls
    (replicate (Z.to_nat (nv * ls)) (replicate (Z.to_nat nv) K0))
  = Ok (map (λ i, onehot (Z.to_nat nv) (i `div` Z.to_nat ls))
            (seq 0 (Z.to_nat (nv * ls)))).
Proof.
  intros Hnv Hls. unfold Init_mask.
  set (n := Z.to_nat (nv * ls)). set (c := Z.to_nat nv).
  destruct (for_loop_inv
    (λ k (M : list (list K)),
       M = map (λ i, if decide (i < k)%nat
                     then onehot c (i `div` Z.to_nat ls)
                     else replicate c K0) (seq 0 n))
    (λ i M, put2 M i (Z.quot (Z.of_nat i) ls) K1) n 0
    (replicate n (replicate c K0))) as (M & -> & ->).
  - apply list_eq_same_length with n;
      [by rewrite length_map, length_seq | by rewrite length_replicate |].
    intros i x y Hi. rewrite lookup_replicate_2 by done.
    rewrite map_fmap, list_lookup_fmap, lookup_seq_lt by done. simpl.
    by intros [= <-] [= <-].
  - intros k M [_ Hk] ->. simpl in Hk.
    assert (0 < ls) as Hpos by (unfold n in Hk; nia).
    destruct (quot_counter k ls Hpos) as [Hq0 Hq].
    assert (k `div` Z.to_nat ls < c)%nat as Hlt.
    { apply Nat.Div0.div_lt_upper_bound. unfold n, c in *. nia. }
    unfold put2, putZ, put.
    rewrite (at_Ok _ _ (replicate c K0)).
    2:{ rewrite map_fmap, list_lookup_fmap, lookup_seq_lt by done. simpl.
        by rewrite decide_False by lia. }
    simpl. rewrite decide_True by done. rewrite Hq.
    rewrite decide_True by (by rewrite length_replicate). simpl.
    rewrite decide_True by (by rewrite length_map, length_seq).
    eexists. split; [done|].
    apply list_eq_same_length with n;
      [by rewrite length_map, length_seq
      | by rewrite length_insert, length_map, length_seq |].
    intros i x y Hi. destruct (decide (i = k)) as [->|Hne].
    + rewrite list_lookup_insert_eq by (by rewrite length_map, length_seq).
      rewrite map_fmap, list_lookup_fmap, lookup_seq_lt by done. simpl.
      rewrite decide_True by lia. by intros [= <-] [= <-].
    + rewrite list_lookup_insert_ne by done.
      rewrite !map_fmap, !list_lookup_fmap, lookup_seq_lt by done. simpl.
      destruct (decide (i < k)%nat), (decide (i < S k)%nat); try lia;
        by intros [= <-] [= <-].
  - f_equal. apply map_ext_in. intros i Hi%in_seq.
    by rewrite decide_True by lia.
Qed.

(** The inner loop of [localconfs_]: one block of local values. *)
Lemma write_block (states lc : list K) (i : nat) :
  (i + length states ≤ length lc)%nat →
  for_loop (λ j lc, let? x := at_ states j in
                    putZ lc (Z.of_nat i + Z.of_nat j) x)
           0 (length states) lc
  = Ok (take i lc ++ states ++ drop (i + length states) lc).
Proof.
  intros Hlen.
  destruct (for_loop_inv
    (λ j lc', (j ≤ length states)%nat
              ∧ lc' = take i lc ++ take j states ++ drop (i + j) lc)
    (λ j lc, let? x := at_ states j in putZ lc (Z.of_nat i + Z.of_nat j) x)
    (length states) 0 lc) as (lc' & -> & _ & ->).
  - split; [lia|]. simpl. by rewrite Nat.add_0_r, take_drop.
  - intros j lc' [_ Hj] [_ ->]. simpl in Hj.
    destruct (lookup_lt_is_Some_2 states j) as [x Hx]; [lia|].
    destruct (lookup_lt_is_Some_2 lc (i + j)) as [y Hy]; [lia|].
    rewrite (at_Ok _ _ _ Hx). simpl. unfold putZ, put.
    rewrite decide_True by lia.
    replace (Z.to_nat (Z.of_nat i + Z.of_nat j)) with (i + j)%nat by lia.
    assert (length (take i lc) = i) as Hti by (rewrite length_take; lia).
    assert (length (take j states) = j) as Htj by (rewrite length_take; lia).
    rewrite decide_True
      by (rewrite !length_app, Hti, Htj, length_drop; lia).
    eexists. split; [done|]. split; [lia|].
    rewrite insert_app_r_alt by lia. rewrite Hti.
    rewrite insert_app_r_alt by lia. rewrite Htj.
    replace (i + j - i - j)%nat with 0%nat by lia.
    rewrite (drop_S _ _ _ Hy). simpl.
    rewrite (take_S_r _ _ _ Hx), <- app_assoc. simpl.
    by replace (i + S j)%nat with (S (i + j)) by lia.
  - simpl. by rewrite firstn_all.
Qed.

Lemma concat_replicate_nil {A} (n : nat) : concat (replicate n (@nil A)) = [].
Proof. induction n as [|n IH]; simpl; done. Qed.

Lemma length_concat_replicate {A} (n : nat) (l : list A) :
  length (concat (replicate n l)) = (n * length l)%nat.
Proof. induction n as [|n IH]; simpl; [done|]. by rewrite length_app, IH. Qed.

Lemma Init_localconfs_Ok (nv ls : Z) (states lc0 : list K) :
  0 ≤ nv → 0 ≤ ls → length states = Z.to_nat ls →
  length lc0 = Z.to_nat (nv * ls) →
  Init_localconfs (nv * ls) ls states lc0
  = Ok (concat (replicate (Z.to_nat nv) states)).
Proof.
  intros Hnv Hls Hst Hlc. unfold Init_localconfs.
  rewrite <- Hst.
  assert (Z.to_nat (nv * ls) = (Z.to_nat nv * length states)%nat) as Hn
    by (rewrite Hst; lia).
  rewrite Hn in *.
  assert (nv * ls = Z.of_nat (Z.to_nat nv * length states)) as -> by lia.
  destruct (decide (length states = 0)%nat) as [Hz|Hpos].
  { rewrite Hz, Nat.mul_0_r in *. simpl.
    destruct states; [|done]. destruct lc0; [|done].
    by rewrite concat_replicate_nil. }
  enough (∀ r t fuel lc,
    (t + r = Z.to_nat nv)%nat → (r ≤ fuel)%nat →
    length lc = (Z.to_nat nv * length states)%nat →
    step_loop fuel
      (λ i lc, for_loop (λ j lc, let? x := at_ states j in
                                 putZ lc (i + Z.of_nat j) x)
                        0 (length states) lc)
      (Z.of_nat (t * length states))
      (Z.of_nat (Z.to_nat nv * length states)) ls lc
    = Ok (take (t * length states) lc ++ concat (replicate r states))) as Hgen.
  { rewrite (Hgen (Z.to_nat nv) 0%nat); [done|lia|nia|done]. }
  induction r as [|r IH]; intros t fuel lc Ht Hfuel Hlen.
  - assert (t = Z.to_nat nv) as -> by lia.
    destruct fuel; simpl; rewrite decide_False by lia;
      by rewrite take_ge, app_nil_r by lia.
  - destruct fuel as [|fuel]; [lia|]. simpl.
    rewrite decide_True by nia.
    rewrite write_block by nia. simpl.
    replace (Z.of_nat (t * length states) + ls)
      with (Z.of_nat (S t * length states)) by lia.
    rewrite IH; [|lia|lia|].
    + rewrite take_app_ge by (rewrite length_take; nia).
      rewrite length_take_le by nia.
      replace (S t * length states - t * length states)%nat
        with (length states) by lia.
      by rewrite take_app_length, <- app_assoc.
    + rewrite !length_app, length_take_le, length_drop by nia. nia.
Qed.

Lemma resize_vec_total (n : Z) (old : list K) :
  0 ≤ n → ∃ x, resize_vec n old = Ok x ∧ length x = Z.to_nat n.
Proof.
  intros Hn. unfold resize_vec. rewrite size_of_Ok by done. simpl.
  eexists. split; [done|].
  destruct (decide _); [done | apply length_replicate].
Qed.

Lemma resize_mat_total (r c : Z) (old : list (list K)) :
  0 ≤ r → 0 ≤ c →
  ∃ M, resize_mat r c old = Ok M ∧ length M = Z.to_nat r
       ∧ Forall (λ x, length x = Z.to_nat c) M.
Proof.
  intros Hr Hc. destruct (resize_mat r c old) as [M|e] eqn:HM.
  - exists M. split; [done|]. by apply resize_mat_Ok in HM as (_ & _ & ? & ?).
  - unfold resize_mat in HM. by rewrite !size_of_Ok in HM by done.
Qed.

Lemma setZero_rows (M : list (list K)) (c : nat) :
  Forall (λ x, length x = c) M →
  map setZero M = replicate (length M) (replicate c K0).
Proof.
  induction 1 as [|x M Hx _ IH]; simpl; [done|].
  by rewrite IH; unfold setZero; rewrite Hx.
Qed.

(** [Init] succeeds on a consistent configuration space, when the rows
    and the count fit in [int], and establishes the invariant, whatever
    the members held before. *)
Lemma Init_Inv h m0 :
  hilbert_ok h → nv_ m0 = Size h → ls_ m0 = LocalSize h → 0 ≤ nh_ m0 →
  int_range (nv_ m0 * ls_ m0) →
  int_range (npar_formula (nv_ m0) (ls_ m0) (nh_ m0) (usea_ m0) (useb_ m0)) →
  ∃ m, Init h m0 = Ok m ∧ Inv h m.
Proof.
  intros Hh Hnv Hls Hnh Hfit Hfitn. pose proof Hh as (Hnv0 & Hls0 & Hst & Hnd).
  assert (0 ≤ nv_ m0 * ls_ m0) as Hrows by (rewrite Hnv, Hls; lia).
  destruct (Init h m0) as [m|e] eqn:Hi.
  - exists m. split; [done|].
    pose proof (Init_Sized h m0 m Hfit Hfitn Hi) as Hs.
    apply Init_Ok in Hi
      as (lc0 & mask0 & _ & _ & _ & Hlc0 & Hlc & Hmk0 & Hmk & Hci
          & Hnv' & Hls' & _).
    rewrite (int_of_id _ Hfit) in Hlc0, Hlc, Hmk0, Hmk.
    apply resize_vec_Ok in Hlc0 as [_ Hlc0].
    apply resize_mat_Ok in Hmk0 as (_ & _ & Hmk0 & Hmk0r).
    rewrite (setZero_rows _ _ Hmk0r), Hmk0, Init_mask_Ok in Hmk by lia.
    rewrite Init_localconfs_Ok in Hlc by (done || lia || by rewrite Hls).
    destruct (Init_confindex_Ok (ls_ m0) (LocalStates h) (confindex_ m0))
      as (ci & Hci' & Hcil); [by rewrite Hls|done|].
    rewrite Hci' in Hci.
    injection Hlc as Hlc. injection Hmk as Hmk. injection Hci as Hci.
    split; try done; rewrite ?Hnv', ?Hls'; try congruence.
    by rewrite <- Hci.
  - exfalso. unfold Init in Hi. rewrite (int_of_id _ Hfit) in Hi.
    destruct (resize_mat_total (nv_ m0 * ls_ m0) (nh_ m0) (W_ m0))
      as (W & HW & _); [done..|].
    destruct (resize_vec_total (nv_ m0 * ls_ m0) (a_ m0)) as (a & Ha & _);
      [done|].
    destruct (resize_vec_total (nh_ m0) (b_ m0)) as (b & Hb & _); [done|].
    destruct (resize_vec_total (nh_ m0) (thetas_ m0)) as (t1 & Ht1 & _);
      [done|].
    destruct (resize_vec_total (nh_ m0) (lnthetas_ m0)) as (t2 & Ht2 & _);
      [done|].
    destruct (resize_vec_total (nh_ m0) (thetasnew_ m0)) as (t3 & Ht3 & _);
      [done|].
    destruct (resize_vec_total (nh_ m0) (lnthetasnew_ m0)) as (t4 & Ht4 & _);
      [done|].
    destruct (resize_vec_total (nv_ m0 * ls_ m0) (localconfs_ m0))
      as (lc0 & Hlc & Hlc0); [done|].
    destruct (resize_vec_total (nv_ m0 * ls_ m0) (vtilde_ m0))
      as (vt & Hvt & _); [done|].
    destruct (resize_mat_total (nv_ m0 * ls_ m0) (nv_ m0) (mask_ m0))
      as (mask0 & Hmk0 & Hmk0l & Hmk0r); [done|lia|].
    destruct (Init_confindex_Ok (ls_ m0) (LocalStates h) (confindex_ m0))
      as (ci & Hci' & _); [by rewrite Hls|done|].
    rewrite HW, Ha, Hb, Ht1, Ht2, Ht3, Ht4, Hlc in Hi. simpl in Hi.
    rewrite Init_localconfs_Ok in Hi by (done || lia || by rewrite Hls).
    simpl in Hi. rewrite Hmk0 in Hi. simpl in Hi.
    rewrite (setZero_rows _ _ Hmk0r), Hmk0l, Init_mask_Ok in Hi by lia.
    simpl in Hi. rewrite Hci' in Hi. simpl in Hi. by rewrite Hvt in Hi.
Qed.

(** The constructor gives a machine that satisfies the invariant, when
    [alpha * Size] and the dimensions fit in [int]. *)
Lemma RbmMultival_Inv h (nhidden alpha : Z) (usea useb : bool) :
  hilbert_ok h → 0 ≤ Z.max nhidden (alpha * Size h) →
  int_range (alpha * Size h) →
  dims_fit (Size h) (LocalSize h) (Z.max nhidden (alpha * Size h)) usea useb →
  ∃ m, RbmMultival h nhidden alpha usea useb = Ok m ∧ Inv h m
       ∧ nh_ m = Z.max nhidden (alpha * Size h)
       ∧ usea_ m = usea ∧ useb_ m = useb.
Proof.
  intros Hh Hnh Halpha (Hnv & Hls & _ & Hrows & Hnpar). unfold RbmMultival.
  cbv zeta. rewrite (int_of_id _ Hnv), (int_of_id _ Hls), (int_of_id _ Halpha).
  destruct (Init_Inv h {| nv_ := Size h; ls_ := LocalSize h;
                          nh_ := Z.max nhidden (alpha * Size h);
                          usea_ := usea; useb_ := useb; npar_ := 0; W_ := [];
                          a_ := []; b_ := []; thetas_ := []; lnthetas_ := [];
                          thetasnew_ := []; lnthetasnew_ := [];
                          localconfs_ := []; mask_ := []; confindex_ := ∅;
                          vtilde_ := [] |}) as (m & Hm & Hinv); try done.
  exists m. do 2 (split; [done|]).
  apply Init_Ok in Hm
    as (_ & _ & _ & _ & _ & _ & _ & _ & _ & _ & _ & _ & Hnh' & Hua & Hub & _).
  done.
Qed.

(** [SetParameters] keeps it. *)
Lemma SetParameters_Inv h m (pars : list K) m' :
  Inv h m → length pars = Z.to_nat (npar_ m) →
  SetParameters pars m = Ok m' → Inv h m'.
Proof.
  intros Hinv Hp Hset. pose proof (inv_sized h m Hinv) as Hs.
  rewrite SetParameters_Ok in Hset by done. injection Hset as <-.
  destruct Hinv as [? _ ? ? ? ? ?].
  split; try done. by apply SetParameters_Sized.
Qed.

(** C5.  The code computes the count in [int]; for dimensions such that
    the rows [nv*ls] and the count [nv*ls*nh (+ nv*ls) (+ nh)] are values
    of [int]: [Init] (run by the constructor and by [Load]) succeeds on a
    consistent configuration space and a hidden count that is not
    negative; and whenever it returns, whatever the two bias flags are,
    [Npar] is [nv*ls*nh], plus [nv*ls] with the visible bias, plus [nh]
    with the hidden bias, and [GetParameters] returns a vector whose
    length is [Npar]. *)
Theorem C5_npar_is_dimension_of_parameters h m0 :
  dims_fit (nv_ m0) (ls_ m0) (nh_ m0) (usea_ m0) (useb_ m0) →
  (hilbert_ok h → nv_ m0 = Size h → ls_ m0 = LocalSize h → 0 ≤ nh_ m0 →
   ∃ m, Init h m0 = Ok m)
  ∧ ∀ m, Init h m0 = Ok m →
      usea_ m = usea_ m0 ∧ useb_ m = useb_ m0
      ∧ Npar m = nv_ m * ls_ m * nh_ m
                 + (if usea_ m then nv_ m * ls_ m else 0)
                 + (if useb_ m then nh_ m else 0)
      ∧ ∃ pars, GetParameters m = Ok pars ∧ Z.of_nat (length pars) = Npar m.
Proof.
  intros (_ & _ & _ & Hrows & Hcount). split.
  - intros Hh Hnv Hls Hnh.
    destruct (Init_Inv h m0 Hh Hnv Hls Hnh Hrows Hcount) as (m & Hm & _).
    eauto.
  - intros m Hi. pose proof (Init_Sized h m0 m Hrows Hcount Hi) as Hs.
    apply Init_Ok in Hi
      as (_ & _ & _ & _ & _ & _ & _ & _ & _ & _ & _ & _ & _ & Hua & Hub & _).
    do 2 (split; [done|]). split; [apply (sized_npar m Hs)|].
    eexists. split; [by apply GetParameters_flatten|].
    rewrite Sized_length_flatten by done. unfold Npar.
    pose proof (Sized_npar_nonneg m Hs). lia.
Qed.

(** ** Reading and writing the parameters, again *)

Lemma rows_of_concat (pre : list K) (M : list (list K)) (c : nat)
    (post : list K) :
  Forall (λ r, length r = c) M →
  rows_of (pre ++ concat M ++ post) (length pre) c (length M) = M.
Proof.
  revert post. induction M as [|r M IH] using rev_ind; intros post HM; [done|].
  apply Forall_app in HM as [HM Hr]. rewrite Forall_singleton in Hr.
  unfold rows_of in *. rewrite length_app. simpl.
  rewrite seq_app, map_app. simpl.
  rewrite concat_app. simpl. rewrite app_nil_r, <- (assoc_L (++)).
  rewrite (IH (r ++ post) HM). f_equal.
  rewrite drop_app_add, <- (length_concat_rows M c HM), drop_app_length.
  by rewrite take_app_length'.
Qed.

(** The members that [SetParameters] writes from the vector that
    [GetParameters] returns are the members themselves. *)
Lemma members_of_flatten m :
  Sized m →
  let pars := flatten (usea_ m) (useb_ m) (a_ m) (b_ m) (W_ m) in
  a_of m pars = a_ m ∧ b_of m pars = b_ m ∧ W_of m pars = W_ m.
Proof.
  intros [Hr Hh Hn HW HWr Ha Hb]. simpl.
  unfold a_of, b_of, W_of, W_pos, b_pos, flatten.
  assert (∀ pre k, length pre = k →
            rows_of (pre ++ concat (W_ m)) k (Z.to_nat (nh_ m))
                    (Z.to_nat (nv_ m * ls_ m)) = W_ m) as HWof.
  { intros pre k <-. rewrite <- HW, <- (app_nil_r (concat (W_ m))).
    by apply rows_of_concat. }
  destruct (usea_ m), (useb_ m); simpl; repeat split;
    rewrite ?drop_0, ?(drop_app_length' (a_ m)), ?(take_app_length' (a_ m)),
      ?(take_app_length' (b_ m)) by done; try done.
  - rewrite (assoc_L (++)). apply HWof. rewrite length_app. lia.
  - apply HWof. lia.
  - by apply HWof.
  - by apply (HWof []).
Qed.

Lemma set_members_id m : set_W (W_ m) (set_b (b_ m) (set_a (a_ m) m)) = m.
Proof. by destruct m. Qed.

(** X1.  On a machine whose members have the sizes of its dimensions,
    [GetParameters] returns a vector, and [SetParameters] with that vector
    succeeds and leaves the machine exactly as it was: every member, the
    disabled biases included. *)
Theorem SetParameters_of_GetParameters m :
  Sized m →
  ∃ pars, GetParameters m = Ok pars ∧ SetParameters pars m = Ok m.
Proof.
  intros Hs. eexists. split; [by apply GetParameters_flatten|].
  rewrite SetParameters_Ok by (done || by apply Sized_length_flatten).
  destruct (members_of_flatten m Hs) as (-> & -> & ->).
  by rewrite set_members_id.
Qed.

(** X2.  Two calls of [SetParameters] in a row, each with a vector of
    length [npar], leave the machine that the second call alone leaves:
    nothing of the first vector survives. *)
Theorem SetParameters_twice m (p1 p2 : list K) :
  Sized m → length p1 = Z.to_nat (npar_ m) → length p2 = Z.to_nat (npar_ m) →
  ∃ m1 m2, SetParameters p1 m = Ok m1 ∧ SetParameters p2 m1 = Ok m2
           ∧ SetParameters p2 m = Ok m2.
Proof.
  intros Hs H1 H2. do 2 eexists. split; [by apply SetParameters_Ok|].
  rewrite (SetParameters_Ok m p2) by done.
  rewrite SetParameters_Ok by (by apply SetParameters_Sized || done).
  split; [reflexivity|]. f_equal.
  unfold W_of, b_of, a_of, W_pos, b_pos. simpl.
  destruct m. simpl. by destruct usea_0, useb_0.
Qed.

(** ** A bias that is switched off *)

(** What a successful [SetParameters] wrote: at most [a_], [b_], [W_], and
    not the bias whose flag is off. *)
Lemma SetParameters_writes (pars : list K) m m' :
  SetParameters pars m = Ok m' →
  ∃ a b W, m' = set_W W (set_b b (set_a a m))
           ∧ (usea_ m = false → a = a_ m) ∧ (useb_ m = false → b = b_ m).
Proof.
  unfold SetParameters. intros H. repeat inv_bind H. injection H as <-.
  exists x.1, x0.1, x1.1. split; [done|].
  split; intros Hu; rewrite Hu in *.
  - by injection Hx as <-.
  - by injection Hx0 as <-.
Qed.

Lemma writes_Err (writes : list (list K)) (e : error) :
  foldl (λ r pars, let? m := r in SetParameters pars m) (Err e) writes = Err e.
Proof. by induction writes. Qed.

Lemma writes_keep_disabled (writes : list (list K)) m m' :
  foldl (λ r pars, let? m := r in SetParameters pars m) (Ok m) writes = Ok m' →
  usea_ m' = usea_ m ∧ useb_ m' = useb_ m
  ∧ (usea_ m = false → a_ m' = a_ m) ∧ (useb_ m = false → b_ m' = b_ m).
Proof.
  revert m. induction writes as [|pars writes IH]; intros m; simpl.
  - by intros [= <-].
  - destruct (SetParameters pars m) as [m1|e] eqn:Hset;
      [|by rewrite writes_Err].
    intros Hw. destruct (IH m1 Hw) as (Hua & Hub & Ha & Hb).
    apply SetParameters_writes in Hset as (a & b & W & -> & Ha1 & Hb1).
    simpl in *. repeat split; try done.
    + intros Hu. by rewrite Ha, Ha1.
    + intros Hu. by rewrite Hb, Hb1.
Qed.

(** X3.  When the arguments [nhidden] and [alpha], the two dimensions of
    the configuration space, their product and [alpha * Size] are values
    of [int] (the constructor computes the last two in [int]): on a machine
    that the constructor built without the visible bias, [a_] is the zero
    vector of [Size * LocalSize] entries, and it still is after any
    sequence of successful calls of [SetParameters], whatever the vectors;
    likewise [b_], of [max(nhidden, alpha * Size)] entries, without the
    hidden bias. *)
Theorem disabled_bias_stays_zero h (nhidden alpha : Z) (usea useb : bool) m
    (writes : list (list K)) m' :
  int_range nhidden → int_range alpha →
  int_range (Size h) → int_range (LocalSize h) →
  int_range (Size h * LocalSize h) → int_range (alpha * Size h) →
  RbmMultival h nhidden alpha usea useb = Ok m →
  foldl (λ r pars, let? m := r in SetParameters pars m) (Ok m) writes = Ok m' →
  (usea = false → a_ m' = replicate (Z.to_nat (Size h * LocalSize h)) K0)
  ∧ (useb = false →
     b_ m' = replicate (Z.to_nat (Z.max nhidden (alpha * Size h))) K0).
Proof.
  intros _ _ Hnv Hls Hrows Halpha Hm Hw.
  apply writes_keep_disabled in Hw as (_ & _ & Ha' & Hb').
  unfold RbmMultival in Hm. cbv zeta in Hm.
  rewrite (int_of_id _ Hnv), (int_of_id _ Hls), (int_of_id _ Halpha) in Hm.
  apply Init_Ok in Hm
    as (_ & _ & _ & (a & Ha0 & Ha) & (b & Hb0 & Hb) & _ & _ & _ & _ & _
        & _ & _ & _ & Hua & Hub & _).
  simpl in *. rewrite (int_of_id _ Hrows) in Ha0.
  apply resize_vec_Ok in Ha0 as [_ Ha0]. apply resize_vec_Ok in Hb0 as [_ Hb0].
  split; intros ->.
  - by rewrite Ha', Ha; [unfold setZero; rewrite Ha0|].
  - by rewrite Hb', Hb; [unfold setZero; rewrite Hb0|].
Qed.

(** ** The tables of the constructor *)

Lemma Init_confindex_keys (ls : Z) (states : list K) (ci0 ci : gmap K Z) :
  Init_confindex ls states ci0 = Ok ci →
  ∀ x, x ∉ states → ci !! x = ci0 !! x.
Proof.
  unfold Init_confindex. generalize (Z.to_nat ls) 0%nat. intros n.
  revert ci0. induction n as [|n IH]; intros ci0 lo; simpl.
  - by intros [= <-].
  - intros H. inv_bind H. inv_bind Hx. injection Hx as <-.
    intros y Hy. rewrite (IH _ _ H y Hy).
    apply lookup_insert_ne. intros ->. apply Hy.
    unfold at_ in Hx0. destruct (states !! lo) as [z|] eqn:Hz; [|done].
    injection Hx0 as ->. by eapply list_elem_of_lookup_2.
Qed.

(** X4.  On a consistent configuration space and with a hidden count
    [max(nhidden, alpha * Size)] that is not negative, when the arguments
    [nhidden] and [alpha], [alpha * Size], the dimensions, the rows
    [Size * LocalSize] and the parameter count are values of [int] (the
    constructor computes them in [int]): the constructor succeeds; the machine has that hidden count and the given flags, the
    members have the sizes of the dimensions, [localconfs_] is the list of
    the local values once per site, [mask_] has in the row [i] a 1 at the
    site [i / LocalSize] and 0 elsewhere, [confindex_] maps every local
    value to its position and holds no other key; with these tables
    [ComputeVtilde] gives the one-hot encoding of a configuration. *)
Theorem RbmMultival_builds_the_tables h (nhidden alpha : Z)
    (usea useb : bool) :
  hilbert_ok h → int_range nhidden → int_range alpha →
  0 ≤ Z.max nhidden (alpha * Size h) → int_range (alpha * Size h) →
  dims_fit (Size h) (LocalSize h) (Z.max nhidden (alpha * Size h)) usea useb →
  ∃ m, RbmMultival h nhidden alpha usea useb = Ok m
       ∧ Nvisible m = Size h ∧ ls_ m = LocalSize h
       ∧ nh_ m = Z.max nhidden (alpha * Size h)
       ∧ usea_ m = usea ∧ useb_ m = useb
       ∧ length (W_ m) = Z.to_nat (Size h * LocalSize h)
       ∧ Forall (λ r, length r = Z.to_nat (nh_ m)) (W_ m)
       ∧ length (a_ m) = Z.to_nat (Size h * LocalSize h)
       ∧ length (b_ m) = Z.to_nat (nh_ m)
       ∧ localconfs_ m = concat (replicate (Z.to_nat (Size h)) (LocalStates h))
       ∧ mask_ m
         = map (λ i, onehot (Z.to_nat (Size h))
                            (i `div` Z.to_nat (LocalSize h)))
               (seq 0 (Z.to_nat (Size h * LocalSize h)))
       ∧ (∀ i x, LocalStates h !! i = Some x →
                 confindex_ m !! x = Some (Z.of_nat i))
       ∧ (∀ x, x ∉ LocalStates h → confindex_ m !! x = None)
       ∧ ∀ v, length v = Z.to_nat (Size h) →
              ComputeVtilde m v = Ok (Encode h v).
Proof.
  intros Hh _ _ Hnh Halpha Hfit.
  destruct (RbmMultival_Inv h nhidden alpha usea useb Hh Hnh Halpha Hfit)
    as (m & Hm & Hinv & Hnh' & Hua & Hub).
  exists m. split; [done|].
  pose proof Hinv as [_ [_ _ _ HW HWr Ha Hb] Hnv Hls Hlc Hmk Hci].
  unfold RbmMultival in Hm.
  apply Init_Ok in Hm
    as (_ & _ & _ & _ & _ & _ & _ & _ & _ & Hkeys & _).
  simpl in *. unfold Nvisible.
  rewrite Hnv, Hls in *.
  repeat (split; [done|]). split.
  - intros x Hx. by rewrite (Init_confindex_keys _ _ _ _ Hkeys x Hx).
  - intros v Hv. by apply ComputeVtilde_Encode.
Qed.

(** ** What the evaluations leave alone *)

Lemma same_model_refl m : same_model m m.
Proof. repeat (split; [done|]). intros x. by left. Qed.

Lemma same_model_confindex_at m0 (x : K) :
  preserves (same_model m0) (confindex_at x).
Proof.
  intros m Hm. unfold confindex_at.
  destruct (confindex_ m !! x) as [i|] eqn:Hx; simpl; [done|].
  destruct Hm as (? & ? & ? & ? & ? & ? & ? & ? & ? & ? & ? & Hci).
  repeat (split; [done|]). intros y. simpl.
  destruct (decide (x = y)) as [->|Hne].
  - rewrite lookup_insert_eq. right. split; [|done].
    destruct (Hci y) as [Heq|[_ Hy]]; congruence.
  - rewrite lookup_insert_ne by done. apply Hci.
Qed.

(** The invariant of an initialised machine is kept with the model. *)
Lemma same_model_Inv h m m' : same_model m m' → Inv h m → Inv h m'.
Proof.
  intros (Hnv & Hls & Hnh & Hua & Hub & Hnp & HW & Ha & Hb & Hlc & Hmk & Hci)
         [Hh [] ? ? ? ? Hkeys].
  split; [done|split|..]; rewrite ?Hnv, ?Hls, ?Hnh, ?Hua, ?Hub, ?Hnp, ?HW,
    ?Ha, ?Hb, ?Hlc, ?Hmk; try done.
  intros i x Hx. specialize (Hkeys i x Hx).
  destruct (Hci x) as [Heq|[Hnone _]]; congruence.
Qed.

(** One step of a proof that a method keeps [same_model]: the scratch
    members are written, [confindex_] is read with [operator[]]. *)
Ltac keeps_model :=
  repeat first
    [ apply preserves_lift | apply preserves_ret | apply preserves_get
    | apply same_model_confindex_at
    | apply preserves_modify; by intros ? ?
    | apply preserves_for_M; intros ? ?
    | apply preserves_bind; [|intros ?] ].

Lemma same_model_ComputeTheta m0 v :
  preserves (same_model m0) (ComputeTheta v).
Proof. unfold ComputeTheta. keeps_model. Qed.

Lemma same_model_InitLookup m0 v : preserves (same_model m0) (InitLookup v).
Proof.
  unfold InitLookup.
  apply preserves_bind; [apply same_model_ComputeTheta|intros lt].
  apply preserves_ret.
Qed.

Lemma same_model_UpdateLookup m0 v tochange newconf lookup :
  preserves (same_model m0) (UpdateLookup v tochange newconf lookup).
Proof. unfold UpdateLookup. destruct (decide _); keeps_model. Qed.

Lemma same_model_DerLogSingleImpl m0 v lookup :
  preserves (same_model m0) (DerLogSingleImpl v lookup).
Proof. unfold DerLogSingleImpl. keeps_model. Qed.

Lemma same_model_DerLogSingle m0 v lookup :
  preserves (same_model m0) (DerLogSingle v lookup).
Proof.
  unfold DerLogSingle. destruct lookup as [lt|].
  - apply same_model_DerLogSingleImpl.
  - apply preserves_bind; [apply same_model_InitLookup|intros lt].
    apply same_model_DerLogSingleImpl.
Qed.

Lemma same_model_LogValSingle m0 v lookup :
  preserves (same_model m0) (LogValSingle v lookup).
Proof.
  unfold LogValSingle. destruct lookup as [lt|].
  - keeps_model.
  - apply preserves_bind; [apply same_model_ComputeTheta|intros th].
    keeps_model.
Qed.

Lemma same_model_LogValDiff m0 v tochange newconf :
  preserves (same_model m0) (LogValDiff v tochange newconf).
Proof.
  unfold LogValDiff.
  apply preserves_bind; [apply same_model_ComputeTheta|intros th].
  apply preserves_bind; [keeps_model|intros _].
  apply preserves_for_M. intros k lvd.
  apply preserves_bind; [keeps_model|intros tc].
  destruct (decide _); keeps_model.
Qed.

Lemma same_model_GetParameters m m' :
  same_model m m' → GetParameters m' = GetParameters m.
Proof.
  intros (Hnv & Hls & Hnh & Hua & Hub & Hnp & HW & Ha & Hb & _).
  unfold GetParameters. by rewrite Hnv, Hls, Hnh, Hua, Hub, Hnp, HW, Ha, Hb.
Qed.

(** X5.  Whatever their arguments, and whether they return or throw,
    [InitLookup], [UpdateLookup], [DerLogSingle], [LogValSingle] and
    [LogValDiff] leave the dimensions, the flags, [a_], [b_], [W_],
    [localconfs_] and [mask_] as they were, and every key of [confindex_]
    with its value; [GetParameters] returns after each of them what it
    returned before, and an initialised machine is still initialised.
    (They write [vtilde_], [thetas_], [lnthetas_], [thetasnew_] and, with
    the value 0, keys that [confindex_] did not hold.) *)
Theorem evaluations_keep_the_model v (tochange : list Z) (newconf : list K)
    (moves : list (list Z)) (newconfs : list (list K))
    (lookup : option (list K)) m :
  Forall (λ m', same_model m m' ∧ GetParameters m' = GetParameters m
                ∧ ∀ h, Inv h m → Inv h m')
    [ (InitLookup v m).1;
      (UpdateLookup v tochange newconf lookup m).1;
      (DerLogSingle v lookup m).1;
      (LogValSingle v lookup m).1;
      (LogValDiff v moves newconfs m).1 ].
Proof.
  pose proof (same_model_refl m) as Hm.
  enough (Forall (same_model m)
            [ (InitLookup v m).1;
              (UpdateLookup v tochange newconf lookup m).1;
              (DerLogSingle v lookup m).1;
              (LogValSingle v lookup m).1;
              (LogValDiff v moves newconfs m).1 ]) as Hall.
  { eapply Forall_impl; [exact Hall|]. intros m' Hm'. split; [done|].
    split; [by apply same_model_GetParameters|].
    intros h. by apply same_model_Inv. }
  repeat (apply Forall_cons; split); try by apply Forall_nil_2.
  all: first [ by apply same_model_InitLookup
             | by apply same_model_UpdateLookup
             | by apply same_model_DerLogSingle
             | by apply same_model_LogValSingle
             | by apply same_model_LogValDiff ].
Qed.

(** ** The amplitude *)

Lemma LogValSingle_None h m v :
  Inv h m → length v = Z.to_nat (Size h) →
  LogValSingle v None m
  = (set_thetas (theta h m v) (set_vtilde (Encode h v) m),
     Ok (dot (Encode h v) (a_ m) ⊕ SumLogCosh (theta h m v))).
Proof.
  intros Hinv Hv. unfold LogValSingle, bind.
  rewrite (ComputeTheta_theta h) by done. simpl.
  unfold same_size. rewrite decide_True; [done|].
  rewrite (Inv_Encode_length h m v) by done.
  symmetry. apply (sized_a m (inv_sized h m Hinv)).
Qed.

Lemma LogValSingle_Some h m v th :
  Inv h m → length v = Z.to_nat (Size h) →
  LogValSingle v (Some th) m
  = (set_vtilde (Encode h v) m,
     Ok (dot (Encode h v) (a_ m) ⊕ SumLogCosh th)).
Proof.
  intros Hinv Hv. unfold LogValSingle, bind, get, lift. simpl.
  rewrite (ComputeVtilde_Encode h) by done. simpl.
  unfold same_size. rewrite decide_True; [done|].
  rewrite (Inv_Encode_length h m v) by done.
  symmetry. apply (sized_a m (inv_sized h m Hinv)).
Qed.

(** X6.  On an initialised machine and a configuration of [Size] sites:
    [LogValSingle] with the lookup that [InitLookup] built for the
    configuration returns what it returns with no lookup, that is
    [vtilde . a + SumLogCosh(W^T vtilde + b)]; with a lookup [th] of the
    caller it returns [vtilde . a + SumLogCosh(th)], whatever [th] holds. *)
Theorem LogValSingle_with_and_without_lookup h m v :
  Inv h m → length v = Z.to_nat (Size h) →
  let value := dot (Encode h v) (a_ m) ⊕ SumLogCosh (theta h m v) in
  (∃ m1 lookup m2 m3,
     InitLookup v m = (m1, Ok lookup)
     ∧ LogValSingle v lookup m1 = (m2, Ok value)
     ∧ LogValSingle v None m = (m3, Ok value))
  ∧ ∀ th, ∃ m1, LogValSingle v (Some th) m
                = (m1, Ok (dot (Encode h v) (a_ m) ⊕ SumLogCosh th)).
Proof.
  intros Hinv Hv value. split.
  - eexists _, _, _, _. split; [by apply (InitLookup_theta h)|].
    split; [|by apply LogValSingle_None].
    by rewrite (LogValSingle_Some h) by (by apply Inv_set_vtilde || done).
  - intros th. eexists. by apply LogValSingle_Some.
Qed.

(** ** The ratio is the difference of two amplitudes *)

Lemma rows_sum_dot (a x : list K) :
  rows_sum 1 ((λ c, [c]) <$> a) x = [dot a x].
Proof.
  revert x. induction a as [|c a IH]; intros [|y x]; try done.
  rewrite fmap_cons, rows_sum_cons, IH. done.
Qed.

Lemma dot_comm (x y : list K) : dot x y = dot y x.
Proof.
  unfold dot. revert y. induction x as [|c x IH]; intros [|d y]; simpl;
    try done.
  rewrite IH. ring.
Qed.

(** The visible term after one site changed. *)
Lemma dot_change h m v (c : Z * K) :
  Inv h m → legal h v → 0 ≤ c.1 < Size h → c.2 ∈ LocalStates h →
  dot (Encode h (<[Z.to_nat c.1 := c.2]> v)) (a_ m)
  = dot (Encode h v) (a_ m)
    ⊕ (a_ m !!! ext_index h c.1 c.2
       ⊖ a_ m !!! ext_index h c.1 (v !!! Z.to_nat c.1)).
Proof.
  intros Hinv Hv Hs Hx. destruct c as [s x]. simpl in *.
  destruct (IndexOf_legal _ _ Hx) as [j Hj].
  destruct (legal_lookup h v s Hv Hs) as (xo & io & Hxo & Hio).
  pose proof (inv_sized h m Hinv) as [_ _ _ _ _ Ha _].
  pose proof (inv_hilbert h m Hinv) as (Hnv0 & Hls0 & Hst & Hnd).
  destruct (ext_index_legal h m s xo io Hinv Hs Hio) as (_ & _ & Ho1 & Ho).
  destruct (ext_index_legal h m s x j Hinv Hs Hj) as (_ & _ & Hn1 & Hn).
  destruct (lookup_lt_is_Some_2 (a_ m) (ext_index h s xo)) as [ao Hao]; [lia|].
  destruct (lookup_lt_is_Some_2 (a_ m) (ext_index h s x)) as [an Han]; [lia|].
  rewrite (list_lookup_total_correct _ _ _ Hxo),
    (list_lookup_total_correct _ _ _ Hao),
    (list_lookup_total_correct _ _ _ Han).
  pose proof (rows_sum_update h 1 ((λ c, [c]) <$> a_ m) v (Z.to_nat s)
                xo x io j [ao] [an] Hnd) as Hup.
  rewrite !rows_sum_dot in Hup. simpl in Hup.
  rewrite !(dot_comm _ (a_ m)).
  enough (dot (a_ m) (Encode h (<[Z.to_nat s:=x]> v))
          = dot (a_ m) (Encode h v) ⊖ ao ⊕ an) as -> by ring.
  enough ([dot (a_ m) (Encode h (<[Z.to_nat s:=x]> v))]
          = [dot (a_ m) (Encode h v) ⊖ ao ⊕ an]) as [= ->] by done.
  apply Hup; try done.
  - rewrite length_fmap, Ha, (inv_nv h m Hinv), (inv_ls h m Hinv), Hst.
    destruct Hv. nia.
  - apply Forall_fmap, Forall_forall. by intros ? _.
  - by rewrite list_lookup_fmap, <- Ho1, Hao.
  - by rewrite list_lookup_fmap, <- Hn1, Han.
Qed.

Lemma bias_delta_ext h (a v v' : list K) (changes : list (Z * K)) :
  (∀ c, c ∈ changes → v !!! Z.to_nat c.1 = v' !!! Z.to_nat c.1) →
  bias_delta h a v changes = bias_delta h a v' changes.
Proof.
  unfold bias_delta.
  induction changes as [|c changes IH]; intros Hext; simpl; [done|].
  rewrite (Hext c) by apply list_elem_of_here.
  rewrite IH; [done|]. intros c' Hc'. apply Hext. by apply list_elem_of_further.
Qed.

(** The visible term after a move of distinct sites. *)
Lemma bias_delta_dot h m v (changes : list (Z * K)) :
  Inv h m → legal h v → valid_changes h changes →
  dot (Encode h (apply_changes v changes)) (a_ m)
  = dot (Encode h v) (a_ m) ⊕ bias_delta h (a_ m) v changes.
Proof.
  intros Hinv Hv [Hc Hnd]. revert v Hv.
  induction Hc as [|c changes [Hs Hx] Hc IH]; intros v Hv.
  - simpl. ring.
  - simpl in Hnd. apply NoDup_cons in Hnd as [Hnotin Hnd].
    unfold apply_changes. simpl.
    fold (apply_changes (<[Z.to_nat c.1:=c.2]> v) changes).
    rewrite (IH Hnd) by by apply legal_insert.
    rewrite dot_change by done.
    rewrite (bias_delta_ext h (a_ m) (<[Z.to_nat c.1:=c.2]> v) v).
    + ring.
    + intros c' Hc'. rewrite list_lookup_total_insert_ne; [done|].
      intros Heq. apply Hnotin.
      assert (0 ≤ c'.1 < Size h) as Hs'.
      { apply (proj1 (Forall_forall _ _) Hc) in Hc'. tauto. }
      assert (c.1 = c'.1) as -> by lia.
      by apply list_elem_of_fmap_2.
Qed.

(** X7.  For moves that each list distinct sites with legal new values,
    the entry of [LogValDiff] for a move is [LogValSingle] of the
    configuration after the move minus [LogValSingle] of the base
    configuration. *)
Theorem LogValDiff_is_a_difference_of_LogValSingle h m v
    (moves : list (list Z * list K)) :
  Inv h m → legal h v →
  Forall (λ mv, valid_move h mv.1 mv.2 ∧ NoDup mv.1) moves →
  ∃ m0 base m' logvaldiffs,
    LogValSingle v None m = (m0, Ok base)
    ∧ LogValDiff v moves.*1 moves.*2 m = (m', Ok logvaldiffs)
    ∧ ∀ k mv, moves !! k = Some mv →
        ∃ mk moved,
          LogValSingle (apply_changes v (zip mv.1 mv.2)) None m
          = (mk, Ok moved)
          ∧ logvaldiffs !! k = Some (moved ⊖ base).
Proof.
  intros Hinv Hv Hmoves.
  destruct (LogValDiff_entries h m v moves (Encode h v) (theta h m v))
    as [tn Hl]; try done.
  - eapply Forall_impl; [exact Hmoves|]. by intros mv [? _].
  - apply ComputeTheta_theta; [done|apply Hv].
  - by apply length_theta.
  - eexists _, _, _, _. split; [apply LogValSingle_None; [done|apply Hv]|].
    split; [exact Hl|]. intros k mv Hmv.
    destruct (Forall_lookup_1 _ _ _ _ Hmoves Hmv) as [Hvm Hnd].
    pose proof (valid_move_changes h _ _ Hvm Hnd) as Hc.
    pose proof (legal_apply_changes h v _ Hv (proj1 Hc)) as Hv'.
    eexists _, _. split; [apply LogValSingle_None; [done|apply Hv']|].
    rewrite map_fmap, list_lookup_fmap, Hmv. simpl. f_equal.
    rewrite ratio_code_log_ratio. unfold log_ratio.
    rewrite row_updates_theta, bias_delta_dot by done. ring.
Qed.

(** ** The changes of a move commute *)

Lemma vec_change_comm (th a b c d : list K) :
  zip_with Kadd (zip_with Ksub (zip_with Kadd (zip_with Ksub th a) b) c) d
  = zip_with Kadd (zip_with Ksub (zip_with Kadd (zip_with Ksub th c) d) a) b.
Proof.
  revert a b c d.
  induction th as [|t th IH]; intros [|x a] [|y b] [|z c] [|w d]; simpl;
    try done.
  rewrite IH. f_equal. ring.
Qed.

Lemma row_updates_Permutation h W v (changes changes' : list (Z * K)) th :
  changes ≡ₚ changes' →
  row_updates h W v changes th = row_updates h W v changes' th.
Proof.
  unfold row_updates. intros Hp. revert th.
  induction Hp as [|c l l' _ IH|c d l|l l' l'' _ IH1 _ IH2]; intros th; simpl.
  - done.
  - apply IH.
  - f_equal. unfold row_change. apply vec_change_comm.
  - by rewrite IH1.
Qed.

Lemma bias_code_Permutation h (a v : list K) (changes changes' : list (Z * K))
    (acc : K) :
  changes ≡ₚ changes' →
  bias_code h a v changes acc = bias_code h a v changes' acc.
Proof.
  unfold bias_code. intros Hp. revert acc.
  induction Hp as [|c l l' _ IH|c d l|l l' l'' _ IH1 _ IH2]; intros acc; simpl.
  - done.
  - apply IH.
  - f_equal. ring.
  - by rewrite IH1.
Qed.

(** X8.  With exact scalars (the laws of a commutative ring, the
    hypothesis [Kring]; the sums of doubles obey them only up to rounding,
    which is outside this model), the order in which a move lists its
    changes does not matter: two moves whose pairs (site, new value) are
    the same up to order give the same lookup in [UpdateLookup] and the
    same ratio in [LogValDiff] (a site may occur several times).  The two
    calls add and subtract the same rows in another order. *)
Theorem order_of_the_changes_of_a_move h m v (tc tc' : list Z)
    (nc nc' th : list K) :
  Inv h m → legal h v → valid_move h tc nc → valid_move h tc' nc' →
  zip tc nc ≡ₚ zip tc' nc' → length th = Z.to_nat (nh_ m) →
  UpdateLookup v tc nc (Some th) m = UpdateLookup v tc' nc' (Some th) m
  ∧ (LogValDiff v [tc] [nc] m).2 = (LogValDiff v [tc'] [nc'] m).2.
Proof.
  intros Hinv Hv Hmv Hmv' Hp Hth. split.
  - rewrite !(UpdateLookup_rows h) by done.
    by rewrite (row_updates_Permutation h _ v _ _ th Hp).
  - destruct (ComputeTheta_Ok h m v Hinv (proj1 Hv)) as (vt & th0 & Hct & Hth0).
    destruct (LogValDiff_entries h m v [(tc, nc)] vt th0) as [tn Htn];
      [done|done|by apply Forall_singleton|done|done|].
    destruct (LogValDiff_entries h m v [(tc', nc')] vt th0) as [tn' Htn'];
      [done|done|by apply Forall_singleton|done|done|].
    simpl in Htn, Htn'. rewrite Htn, Htn'.
    simpl. do 2 f_equal. unfold ratio_code. simpl.
    assert (length tc = length tc') as Hlen.
    { apply Permutation_length in Hp. rewrite !length_zip_with in Hp.
      destruct Hmv as [? _], Hmv' as [? _]. lia. }
    destruct (decide (tc = [])) as [->|Hne], (decide (tc' = [])) as [->|Hne'];
      try done.
    + by destruct tc'.
    + by destruct tc.
    + by rewrite (bias_code_Permutation h _ v _ _ K0 Hp),
        (row_updates_Permutation h _ v _ _ th0 Hp).
Qed.

(** ** A change and the change back *)

Lemma vec_undo (th r1 r2 : list K) (n : nat) :
  length th = n → length r1 = n → length r2 = n →
  zip_with Kadd (zip_with Ksub (zip_with Kadd (zip_with Ksub th r1) r2) r2) r1
  = th.
Proof.
  revert th r1 r2. induction n as [|n IH]; intros [|t th] [|x r1] [|y r2];
    simpl; try done.
  intros [= H1] [= H2] [= H3]. rewrite (IH th r1 r2) by done. f_equal. ring.
Qed.

(** X9.  With exact scalars (the laws of a commutative ring, the
    hypothesis [Kring]; in doubles the four operations leave a rounding
    error, which is outside this model): [UpdateLookup] for the change of
    one site to a legal value, and then, on the changed configuration, for
    the change of that site back to its former value, returns the lookup
    it started from: any vector of [nh] entries, not only the one of
    [InitLookup].  The second call subtracts the row that the first added
    and adds the row that the first subtracted. *)
Theorem UpdateLookup_there_and_back h m v (s : Z) (x : K) th :
  Inv h m → legal h v → 0 ≤ s < Size h → x ∈ LocalStates h →
  length th = Z.to_nat (nh_ m) →
  ∃ th1,
    UpdateLookup v [s] [x] (Some th) m = (m, Ok (Some th1))
    ∧ UpdateLookup (<[Z.to_nat s := x]> v) [s] [v !!! Z.to_nat s] (Some th1) m
      = (m, Ok (Some th)).
Proof.
  intros Hinv Hv Hs Hx Hth.
  destruct (IndexOf_legal _ _ Hx) as [j Hj].
  destruct (legal_lookup h v s Hv Hs) as (xo & io & Hxo & Hio).
  pose proof (inv_sized h m Hinv) as [_ _ _ HW HWr _ _].
  destruct (ext_index_legal h m s xo io Hinv Hs Hio) as (_ & _ & _ & Ho).
  destruct (ext_index_legal h m s x j Hinv Hs Hj) as (_ & _ & _ & Hn).
  destruct (lookup_lt_is_Some_2 (W_ m) (ext_index h s xo)) as [ro Hro]; [lia|].
  destruct (lookup_lt_is_Some_2 (W_ m) (ext_index h s x)) as [rn Hrn]; [lia|].
  pose proof (Forall_lookup_1 _ _ _ _ HWr Hro) as Hlo.
  pose proof (Forall_lookup_1 _ _ _ _ HWr Hrn) as Hln. simpl in Hlo, Hln.
  assert (xo ∈ LocalStates h) as Hxo' by by eapply list_elem_of_lookup_2.
  assert (valid_move h [s] [x]) as Hmv
    by (repeat split; try done; by apply Forall_singleton).
  assert (valid_move h [s] [xo]) as Hback
    by (repeat split; try done; by apply Forall_singleton).
  rewrite (list_lookup_total_correct _ _ _ Hxo).
  eexists. split; [by apply (UpdateLookup_rows h)|].
  rewrite (UpdateLookup_rows h); try done.
  - do 3 f_equal. unfold row_updates, row_change. simpl.
    rewrite list_lookup_total_insert_eq by (by eapply lookup_lt_Some).
    rewrite (list_lookup_total_correct _ _ _ Hxo),
      (list_lookup_total_correct _ _ _ Hro),
      (list_lookup_total_correct _ _ _ Hrn).
    by apply (vec_undo _ _ _ (Z.to_nat (nh_ m))).
  - by apply legal_insert.
  - unfold row_updates. simpl. apply length_row_change; eauto.
Qed.

(** ** A value that is no local state *)

(** X10.  [UpdateLookup] with a new value [x] that [confindex_] does not
    hold (so no local state) does not throw: [operator[]] enters [x] in
    [confindex_] with the index 0, and the lookup returned is the one for
    the first local state as the new value. *)
Theorem UpdateLookup_unknown_value h m v (s : Z) (x x0 : K) th :
  Inv h m → legal h v → 0 ≤ s < Size h →
  LocalStates h !! 0%nat = Some x0 → confindex_ m !! x = None →
  length th = Z.to_nat (nh_ m) →
  UpdateLookup v [s] [x] (Some th) m
  = (set_confindex (<[x := 0]> (confindex_ m)) m,
     Ok (Some (row_change h (W_ m) v th (s, x0))))
  ∧ UpdateLookup v [s] [x0] (Some th) m
    = (m, Ok (Some (row_change h (W_ m) v th (s, x0)))).
Proof.
  intros Hinv Hv Hs Hx0 Hx Hth. split.
  - destruct (legal_lookup h v s Hv Hs) as (xo & io & Hxo & Hio).
    pose proof (inv_sized h m Hinv) as [_ _ _ HW HWr _ _].
    destruct (ext_index_legal h m s xo io Hinv Hs Hio)
      as (Ho0 & Ho1 & _ & Ho).
    destruct (ext_index_legal h m s x0 0 Hinv Hs Hx0)
      as (Hn0 & Hn1 & _ & Hn).
    destruct (lookup_lt_is_Some_2 (W_ m) (ext_index h s xo)) as [ro Hro];
      [lia|].
    destruct (lookup_lt_is_Some_2 (W_ m) (ext_index h s x0)) as [rn Hrn];
      [lia|].
    pose proof (Forall_lookup_1 _ _ _ _ HWr Hro) as Hlo.
    pose proof (Forall_lookup_1 _ _ _ _ HWr Hrn) as Hln. simpl in Hlo, Hln.
    change (Z.of_nat 0) with 0 in Hn0, Hn1.
    unfold UpdateLookup. simpl. unfold bind, lift, get, ret. simpl.
    rewrite (atZ_Ok _ _ _ (proj1 Hs) Hxo).
    rewrite (confindex_at_legal h m xo io Hinv Hio).
    unfold confindex_at. rewrite Hx. simpl.
    unfold row. rewrite (atZ_Ok _ _ ro) by (by rewrite ?Ho1).
    unfold vsub, vadd, same_size. rewrite decide_True by lia. simpl.
    rewrite (atZ_Ok _ _ rn) by (by rewrite ?Hn1).
    rewrite decide_True by (rewrite length_zip_with; lia). simpl.
    unfold row_change. simpl. rewrite (list_lookup_total_correct _ _ _ Hxo).
    by rewrite (list_lookup_total_correct _ _ _ Hro),
      (list_lookup_total_correct _ _ _ Hrn).
  - rewrite (UpdateLookup_rows h); try done.
    repeat split; try done; apply Forall_singleton; [done|].
    by eapply list_elem_of_lookup_2.
Qed.

(** ** Save and Load *)

(** A record with the dimensions of the configuration space and a hidden
    count, all of them and the counts values of [int]: [Load] runs [Init]
    on the members it read and then takes [a], [b] and [W] from the
    record, where the record has them. *)
Lemma Load_Ok h (pars : gmap string (json_value K)) m0 (n : Z) (ua ub : bool)
    (oa ob : option (list K)) (oW : option (list (list K))) :
  hilbert_ok h → dims_fit (Size h) (LocalSize h) n ua ub →
  pars !! "Name" = Some (JString "RbmMultival") →
  pars !! "Nvisible" = Some (JInt (Size h)) →
  pars !! "LocalSize" = Some (JInt (LocalSize h)) →
  pars !! "Nhidden" = Some (JInt n) → 0 ≤ n →
  to_bool (FieldOrDefaultVal pars "UseVisibleBias" (JBool true)) = Ok ua →
  to_bool (FieldOrDefaultVal pars "UseHiddenBias" (JBool true)) = Ok ub →
  pars !! "a" = JVec <$> oa → pars !! "b" = JVec <$> ob →
  pars !! "W" = JMat <$> oW →
  (∀ vW, oW = Some vW →
         Forall (λ r, length r = length (default [] (head vW))) vW) →
  ∃ m1,
    Init h (set_useb ub (set_usea ua (set_nh n
              (set_ls (LocalSize h) (set_nv (Size h) m0))))) = Ok m1
    ∧ Inv h m1
    ∧ Load h pars m0
      = (set_W (default (W_ m1) oW)
           (set_b (default (setZero (b_ m1)) ob)
              (set_a (default (setZero (a_ m1)) oa) m1)), Ok tt).
Proof.
  intros Hh (Hfnv & Hfls & Hfn & Hfrows & Hfcount)
         Hname Hnv Hls Hnh Hn Hua Hub Ha Hb HW Hrect.
  destruct (Init_Inv h (set_useb ub (set_usea ua (set_nh n
              (set_ls (LocalSize h) (set_nv (Size h) m0))))))
    as (m1 & Hinit & Hinv); try done.
  exists m1. do 2 (split; [done|]).
  unfold Load, bind, lift, json_at. rewrite Hname.
  rewrite decide_False by (by intros ?).
  rewrite (FieldExists_true _ _ _ Hnv), Hnv. simpl.
  rewrite decide_False by (by intros ?).
  rewrite (FieldExists_true _ _ _ Hls), Hls. simpl.
  rewrite decide_False by (by intros ?).
  rewrite (FieldExists_true _ _ _ Hnh). unfold FieldVal. rewrite Hnh. simpl.
  rewrite Hua, Hub. simpl. unfold run.
  rewrite (int_of_id _ Hfnv), (int_of_id _ Hfls), (int_of_id _ Hfn), Hinit.
  destruct oa as [va|], ob as [vb|], oW as [vW|]; simpl in Ha, Hb, HW;
    rewrite ?(FieldExists_true _ _ _ Ha), ?(FieldExists_true _ _ _ Hb),
      ?(FieldExists_true _ _ _ HW), ?(FieldExists_false _ _ Ha),
      ?(FieldExists_false _ _ Hb), ?(FieldExists_false _ _ HW),
      ?Ha, ?Hb, ?HW; simpl;
    rewrite ?decide_True by (by apply Hrect); done.
Qed.

Lemma Inv_set_members h m (a b : list K) (W : list (list K)) :
  Inv h m → length a = Z.to_nat (nv_ m * ls_ m) →
  length b = Z.to_nat (nh_ m) → length W = Z.to_nat (nv_ m * ls_ m) →
  Forall (λ r, length r = Z.to_nat (nh_ m)) W →
  Inv h (set_W W (set_b b (set_a a m))).
Proof. intros [? [] ? ? ? ? ?] Ha Hb HW HWr. by split; [|split|..]. Qed.

(** Rows of one length are rows of the length of the first. *)
Lemma rows_of_one_length (M : list (list K)) (c : nat) :
  Forall (λ r, length r = c) M →
  Forall (λ r, length r = length (default [] (head M))) M.
Proof.
  destruct M as [|r0 M]; [done|]. simpl. intros HM.
  pose proof (Forall_inv HM) as Hr0. simpl in Hr0.
  eapply Forall_impl; [exact HM|]. simpl. intros r Hr. congruence.
Qed.

(** X11.  [Load] of the record that [Save] wrote for an initialised
    machine [m] whose dimensions and counts are values of [int] (as the
    members of the code are), into any machine [m0] over the same
    configuration space, whatever [m0] held: it succeeds, the machine is
    initialised, it has the hidden count, the flags, [a_], [b_] and [W_]
    of [m], [GetParameters] returns what it returns on [m], and [Save]
    writes the same record. *)
Theorem Load_of_Save h m m0 :
  Inv h m → dims_fit (nv_ m) (ls_ m) (nh_ m) (usea_ m) (useb_ m) →
  ∃ m', Load h (Save m) m0 = (m', Ok tt)
        ∧ Inv h m'
        ∧ nh_ m' = nh_ m ∧ usea_ m' = usea_ m ∧ useb_ m' = useb_ m
        ∧ Npar m' = Npar m
        ∧ a_ m' = a_ m ∧ b_ m' = b_ m ∧ W_ m' = W_ m
        ∧ GetParameters m' = GetParameters m
        ∧ Save m' = Save m.
Proof.
  intros Hinv Hfit.
  pose proof Hinv as [Hh [Hr Hnh Hnp HW HWr Ha Hb] Hnv Hls _ _ _].
  destruct (Load_Ok h (Save m) m0 (nh_ m) (usea_ m) (useb_ m)
              (Some (a_ m)) (Some (b_ m)) (Some (W_ m)))
    as (m1 & Hinit & Hinv1 & Hload); try done;
    try (by rewrite <- ?Hnv, <- ?Hls).
  { intros vW [= <-]. by eapply rows_of_one_length. }
  apply Init_Ok in Hinit
    as (_ & _ & _ & _ & _ & _ & _ & _ & _ & _
        & Hnv1 & Hls1 & Hnh1 & Hua1 & Hub1 & _).
  simpl in *.
  assert (Inv h (set_W (W_ m) (set_b (b_ m) (set_a (a_ m) m1)))) as Hinv'
    by (apply Inv_set_members; try done;
        by rewrite ?Hnv1, ?Hls1, ?Hnh1, <- ?Hnv, <- ?Hls).
  eexists. split; [exact Hload|]. split; [done|]. simpl.
  do 3 (split; [done|]).
  assert (npar_ m1 = npar_ m) as Hnp1.
  { rewrite (sized_npar _ (inv_sized h _ Hinv1)), Hnp.
    by rewrite Hnv1, Hls1, Hnh1, Hua1, Hub1, <- Hnv, <- Hls. }
  split; [done|]. do 3 (split; [done|]). split.
  - rewrite !GetParameters_flatten by (done || apply (inv_sized h _ Hinv')).
    simpl. by rewrite Hua1, Hub1.
  - unfold Save. simpl. by rewrite Hnv1, Hls1, Hnh1, Hua1, Hub1, <- Hnv, <- Hls.
Qed.

(** X12.  [Load] of a record that holds the type tag, the dimensions of
    the configuration space and a hidden count [n], and none of the two
    flags, [a], [b] and [W], when the dimensions, [n], the rows and the
    count with both biases are values of [int] (a number of the record
    that is not is reduced to [int] when it is read): it succeeds with
    both biases switched on and
    [npar = nv*ls*n + nv*ls + n]; [a_] and [b_] are zero vectors of the
    sizes of the dimensions; and [W_] is what the machine held before when
    the shape did not change (an initialised machine with [n] hidden
    units). *)
Theorem Load_of_a_header_only h (pars : gmap string (json_value K)) m0
    (n : Z) :
  hilbert_ok h → dims_fit (Size h) (LocalSize h) n true true →
  pars !! "Name" = Some (JString "RbmMultival") →
  pars !! "Nvisible" = Some (JInt (Size h)) →
  pars !! "LocalSize" = Some (JInt (LocalSize h)) →
  pars !! "Nhidden" = Some (JInt n) → 0 ≤ n →
  pars !! "UseVisibleBias" = None → pars !! "UseHiddenBias" = None →
  pars !! "a" = None → pars !! "b" = None → pars !! "W" = None →
  ∃ m', Load h pars m0 = (m', Ok tt)
        ∧ Inv h m'
        ∧ nh_ m' = n ∧ usea_ m' = true ∧ useb_ m' = true
        ∧ Npar m' = Size h * LocalSize h * n + Size h * LocalSize h + n
        ∧ a_ m' = replicate (Z.to_nat (Size h * LocalSize h)) K0
        ∧ b_ m' = replicate (Z.to_nat n) K0
        ∧ (Inv h m0 → nh_ m0 = n → W_ m' = W_ m0).
Proof.
  intros Hh Hfit Hname Hnv Hls Hnh Hn Hua Hub Ha Hb HW.
  destruct (Load_Ok h pars m0 n true true None None None)
    as (m1 & Hinit & Hinv1 & Hload); try done;
    try (unfold FieldOrDefaultVal; by rewrite ?Hua, ?Hub).
  pose proof (inv_sized h _ Hinv1) as [_ _ Hnp1 HW1 HWr1 Ha1 Hb1].
  apply Init_Ok in Hinit
    as (_ & _ & HWres & _ & _ & _ & _ & _ & _ & _
        & Hnv1 & Hls1 & Hnh1 & Hua1 & Hub1 & _).
  simpl in *.
  rewrite (int_of_id _ (proj1 (proj2 (proj2 (proj2 Hfit))))) in HWres.
  eexists. split; [exact Hload|]. simpl.
  split; [by apply (Inv_set_members h m1); rewrite ?length_setZero|].
  do 3 (split; [done|]). split.
  { unfold Npar. simpl. rewrite Hnp1, Hnv1, Hls1, Hnh1, Hua1, Hub1.
    unfold npar_formula. lia. }
  split; [unfold setZero; by rewrite Ha1, Hnv1, Hls1|].
  split; [unfold setZero; by rewrite Hb1, Hnh1|].
  intros [_ [_ _ _ HW0 HWr0 _ _] Hnv0 Hls0 _ _ _] Hnh0.
  destruct Hh as (Hsz & Hlsz & _).
  unfold resize_mat in HWres. rewrite !size_of_Ok in HWres by nia.
  simpl in HWres. rewrite decide_True in HWres; [by injection HWres|].
  rewrite <- Hnv0, <- Hls0, <- Hnh0. done.
Qed.

End Properties.


(** * The scenario of spec.md, section 8 *)

Lemma Z_ring : ring_theory (K0 : Z) K1 Kadd Kmul Ksub Kopp eq.
Proof. constructor; intros; simpl; lia. Qed.

Lemma spin_half_ok : hilbert_ok spin_half.
Proof.
  repeat split; try done. simpl.
  apply NoDup_cons. split; [|apply NoDup_singleton].
  by intros [=]%list_elem_of_singleton.
Qed.

Lemma example_Sized : Sized example_machine.
Proof.
  split; try done. simpl. by repeat (apply Forall_cons; split; [done|]).
Qed.

Lemma example_Inv : Inv spin_half example_machine.
Proof.
  split; try done.
  - apply spin_half_ok.
  - apply example_Sized.
  - intros [|[|i]] x; simpl; intros [= <-]; by vm_compute.
Qed.

Lemma example_legal (x y : Z) :
  x ∈ [-1; 1] → y ∈ [-1; 1] → legal spin_half [x; y].
Proof.
  intros Hx Hy. split; [done|]. simpl.
  by repeat (apply Forall_cons; split; [done|]).
Qed.

Lemma minus_one_legal : (-1) ∈ LocalStates spin_half.
Proof. simpl. apply list_elem_of_here. Qed.
Lemma plus_one_legal : 1 ∈ LocalStates spin_half.
Proof. simpl. apply list_elem_of_further, list_elem_of_here. Qed.

Lemma valid_move_nil : valid_move spin_half [] [].
Proof. by repeat split. Qed.

Lemma valid_move_one (s x : Z) :
  0 ≤ s < 2 → x ∈ [-1; 1] → valid_move spin_half [s] [x].
Proof. intros Hs Hx. repeat split; try done; by apply Forall_singleton. Qed.

Lemma valid_move_two (s1 s2 x1 x2 : Z) :
  0 ≤ s1 < 2 → 0 ≤ s2 < 2 → x1 ∈ [-1; 1] → x2 ∈ [-1; 1] →
  valid_move spin_half [s1; s2] [x1; x2].
Proof.
  intros Hs1 Hs2 Hx1 Hx2.
  repeat split; try done;
    (apply Forall_cons; split; [done|by apply Forall_singleton]).
Qed.

(** The machine of the scenario is the one the constructor and
    [SetParameters] build. *)
Lemma example_machine_built :
  (let? m := RbmMultival spin_half 2 0 true true in
   SetParameters example_pars m) = Ok example_machine.
Proof. by vm_compute. Qed.

(** The scenario itself: the lookup after the flip of site 0 is the one
    of the flipped configuration, and the ratio is the difference of the
    two amplitudes. *)
Lemma scenario :
  (InitLookup [-1; 1] example_machine).2 = Ok (Some [31; 34])
  ∧ (UpdateLookup [-1; 1] [0] [1] (Some [31; 34]) example_machine).2
    = Ok (Some [33; 36])
  ∧ (InitLookup [1; 1] example_machine).2 = Ok (Some [33; 36])
  ∧ (LogValDiff [-1; 1] [[0]] [[1]] example_machine).2 = Ok [5]
  ∧ (LogValSingle [-1; 1] None example_machine).2 = Ok 70
  ∧ (LogValSingle [1; 1] None example_machine).2 = Ok 75.
Proof. by vm_compute. Qed.

(** Where a number leaves [int]: the product [alpha * nv_] of the
    constructor for [alpha = 2^30] on the two sites wraps to 0, which is
    then the hidden count; and [Load] reads the [Nvisible] [2^32 + 2] of a
    record as 2, the number of sites. *)
Lemma numbers_outside_int :
  (∃ m, RbmMultival spin_half 0 1073741824 true true = Ok m ∧ nh_ m = 0)
  ∧ (let pars := <["Nvisible" := JInt 4294967298]> (Save example_machine) in
     (Load spin_half pars example_machine).2 = Ok tt
     ∧ nv_ (Load spin_half pars example_machine).1 = 2).
Proof.
  split; [|by vm_compute].
  destruct (RbmMultival spin_half 0 1073741824 true true) as [m|e] eqn:Hm;
    [|by vm_compute in Hm].
  exists m. split; [done|]. vm_compute in Hm. by injection Hm as <-.
Qed.

(** C7.  [Load] on the machine of the scenario (2 sites) with its own
    record in which [Nvisible] is 3: the incompatibility error is thrown
    and [a_], [b_], [W_] are untouched, but the member [nv_] was assigned
    from the record before the check and is 3 after the call; the machine
    no longer has the sizes of its parameters, and [GetParameters] then
    reads [a_] outside its range. *)
Theorem C7_Load_mismatch_leaves_nv_changed :
  let pars := <["Nvisible" := JInt 3]> (Save example_machine) in
  let m' := (Load spin_half pars example_machine).1 in
  (Load spin_half pars example_machine).2 = Err incompatible
  ∧ nv_ example_machine = 2 ∧ nv_ m' = 3
  ∧ a_ m' = a_ example_machine ∧ b_ m' = b_ example_machine
  ∧ W_ m' = W_ example_machine
  ∧ GetParameters example_machine = Ok example_pars
  ∧ GetParameters m' = Err OutOfRange.
Proof. by vm_compute. Qed.

(** C9.  Whatever the change list of one call of [UpdateLookup] is (a
    site may occur in it several times), every change subtracts the row
    of the value that the argument [v] has at the site and adds the row of
    the listed new value: the result is [row_updates] against [v].  On the
    machine of the scenario, naming site 0 twice (to +1, then back to -1)
    gives [[33; 36]], while the two changes made one after the other, the
    configuration being updated in between, give the lookup [[31; 34]] of
    the configuration reached. *)
Theorem C9_repeated_site_reads_base_configuration :
  (∀ (K : Type) (KEq : EqDecision K) (KCount : Countable K)
     (KScalar : Scalar K) (h : Hilbert K) (m : Machine K)
     (v : list K) (tochange : list Z) (newconf th : list K),
     Inv h m → legal h v → valid_move h tochange newconf →
     length th = Z.to_nat (nh_ m) →
     UpdateLookup v tochange newconf (Some th) m
     = (m, Ok (Some (row_updates h (W_ m) v (zip tochange newconf) th))))
  ∧ (UpdateLookup [-1; 1] [0; 0] [1; -1] (Some [31; 34]) example_machine).2
    = Ok (Some [33; 36])
  ∧ (UpdateLookups [([0], [1]); ([0], [-1])] [-1; 1] (Some [31; 34])
                   example_machine).2
    = Ok ([-1; 1], Some [31; 34])
  ∧ (InitLookup [-1; 1] example_machine).2 = Ok (Some [31; 34]).
Proof.
  split; [|by vm_compute].
  intros K KEq KCount KScalar h m v tochange newconf th.
  apply UpdateLookup_rows.
Qed.

(** ** The properties at the scenario *)

Lemma C1_witness :
  (∀ s x, 0 ≤ s < 2 → x ∈ [-1; 1] →
     ∃ m1 m2 th,
       (let! lk := InitLookup [-1; 1] in UpdateLookup [-1; 1] [s] [x] lk)
         example_machine = (m1, Ok (Some th))
       ∧ InitLookup (<[Z.to_nat s := x]> [-1; 1]) example_machine
         = (m2, Ok (Some th)))
  ∧ (∀ moves,
       Forall (λ mv, valid_move spin_half mv.1 mv.2 ∧ NoDup mv.1) moves →
       ∃ m1 m2 th,
         (let! lk := InitLookup [-1; 1] in UpdateLookups moves [-1; 1] lk)
           example_machine = (m1, Ok (walk [-1; 1] moves, Some th))
         ∧ InitLookup (walk [-1; 1] moves) example_machine
           = (m2, Ok (Some th))).
Proof.
  apply (C1_lookup_incremental_consistency Z_ring spin_half example_machine
           [-1; 1] example_Inv).
  apply example_legal; [apply minus_one_legal | apply plus_one_legal].
Defined.

Lemma C2_witness :
  ∃ m' logvaldiffs,
    LogValDiff [-1; 1] [[0]; []; [0; 1]] [[1]; []; [1; -1]] example_machine
    = (m', Ok logvaldiffs)
    ∧ length logvaldiffs = 3%nat
    ∧ ∀ k mv, [([0], [1]); ([], []); ([0; 1], [1; -1])] !! k = Some mv →
        logvaldiffs !! k
        = Some (bias_delta spin_half (a_ example_machine) [-1; 1]
                           (zip mv.1 mv.2)
                ⊕ SumLogCosh (row_updates spin_half (W_ example_machine)
                                [-1; 1] (zip mv.1 mv.2)
                                (theta spin_half example_machine [-1; 1]))
                ⊖ SumLogCosh (theta spin_half example_machine [-1; 1])).
Proof.
  apply (C2_LogValDiff_one_ratio_per_move Z_ring spin_half example_machine
           [-1; 1] [([0], [1]); ([], []); ([0; 1], [1; -1])] example_Inv).
  - apply example_legal; [apply minus_one_legal | apply plus_one_legal].
  - apply Forall_cons. split.
    { apply valid_move_one; [lia | apply plus_one_legal]. }
    apply Forall_cons. split; [apply valid_move_nil|].
    apply Forall_singleton.
    apply valid_move_two; try lia;
      [apply plus_one_legal | apply minus_one_legal].
Defined.

Lemma C3_witness :
  Sized example_machine
  ∧ length [7; 7; 7; 7; 8; 8; 1; 2; 3; 4; 5; 6; 7; 8]
    = Z.to_nat (npar_ example_machine)
  ∧ ∃ m', SetParameters [7; 7; 7; 7; 8; 8; 1; 2; 3; 4; 5; 6; 7; 8]
                        example_machine = Ok m'
          ∧ GetParameters m' = Ok [7; 7; 7; 7; 8; 8; 1; 2; 3; 4; 5; 6; 7; 8].
Proof.
  split; [apply example_Sized|]. split; [reflexivity|].
  apply (C3_parameters_round_trip example_machine); [apply example_Sized|].
  reflexivity.
Defined.

Lemma C4_witness :
  ∃ m' der,
    DerLogSingle [-1; 1] None example_machine = (m', Ok der)
    ∧ der = [1; 0; 0; 1; 1; 1; 1; 1; 0; 0; 0; 0; 1; 1]
    ∧ Z.of_nat (length der) = Npar example_machine.
Proof.
  destruct (C4_gradient_layout_and_values Z_ring spin_half example_machine
              [-1; 1] None example_Inv eq_refl)
    as (m' & der & Hder & Hval & _ & Hlen & _); [done|].
  exists m', der. split; [exact Hder|]. split; [|exact Hlen].
  rewrite Hval. reflexivity.
Defined.

Lemma C5_witness :
  dims_fit 2 2 2 true true
  ∧ ∃ m, Init spin_half example_machine = Ok m
         ∧ Npar m = 14
         ∧ ∃ pars, GetParameters m = Ok pars
                   ∧ Z.of_nat (length pars) = Npar m.
Proof.
  assert (dims_fit 2 2 2 true true) as Hfit by (repeat split; by vm_compute).
  split; [exact Hfit|].
  destruct (C5_npar_is_dimension_of_parameters spin_half example_machine Hfit)
    as [Hruns Hcount].
  destruct (Hruns spin_half_ok eq_refl eq_refl) as [m Hm]; [done|].
  exists m. split; [exact Hm|].
  destruct (Hcount m Hm) as (_ & _ & _ & Hget).
  split; [|exact Hget].
  vm_compute in Hm. injection Hm as <-. reflexivity.
Defined.

Lemma C6_witness :
  (∃ m' logvaldiffs,
     LogValDiff [-1; 1] [[0]; []] [[1]; []] example_machine
     = (m', Ok logvaldiffs)
     ∧ ∀ k nc, [([0], [1]); ([], [])] !! k = Some ([], nc) →
         logvaldiffs !! k = Some 0)
  ∧ ∃ m', LogValDiff [-1; 1] [[]] [[]] example_machine = (m', Ok [0]).
Proof.
  apply (C6_empty_move_gives_zero spin_half example_machine [-1; 1]
           [([0], [1]); ([], [])] example_Inv).
  - apply example_legal; [apply minus_one_legal | apply plus_one_legal].
  - apply Forall_cons. split.
    { apply valid_move_one; [lia | apply plus_one_legal]. }
    apply Forall_singleton, valid_move_nil.
Defined.

Lemma C9_witness :
  UpdateLookup [-1; 1] [0; 0] [1; -1] (Some [31; 34]) example_machine
  = (example_machine,
     Ok (Some (row_updates spin_half (W_ example_machine) [-1; 1]
                           [(0, 1); (0, -1)] [31; 34]))).
Proof.
  apply (proj1 C9_repeated_site_reads_base_configuration Z _ _ _ spin_half
           example_machine [-1; 1] [0; 0] [1; -1] [31; 34] example_Inv).
  - apply example_legal; [apply minus_one_legal | apply plus_one_legal].
  - apply valid_move_two; try lia;
      [apply plus_one_legal | apply minus_one_legal].
  - reflexivity.
Defined.

Lemma C10_witness :
  is_Err (Load spin_half (delete "Nhidden" (Save example_machine))
               example_machine).2
  ∧ nh_ (Load spin_half (delete "Nhidden" (Save example_machine))
              example_machine).1 = nh_ example_machine
  ∧ (Load spin_half (delete "Nhidden" (Save example_machine))
          example_machine).2
    = Err (InvalidInputError "Field 'Alpha' is not defined in the input").
Proof.
  pose proof (C10_Load_without_Nhidden_and_Alpha_fails spin_half
                (delete "Nhidden" (Save example_machine)) example_machine
                eq_refl eq_refl eq_refl) as (Herr & Hnh & Halpha).
  split; [exact Herr|]. split; [exact Hnh|].
  apply Halpha; reflexivity.
Defined.

(** ** The further properties at the scenario *)

Lemma SetParameters_of_GetParameters_witness :
  ∃ pars, GetParameters example_machine = Ok pars
          ∧ SetParameters pars example_machine = Ok example_machine.
Proof.
  apply (SetParameters_of_GetParameters example_machine example_Sized).
Defined.

Lemma SetParameters_twice_witness :
  ∃ m1 m2,
    SetParameters [7; 7; 7; 7; 8; 8; 1; 2; 3; 4; 5; 6; 7; 8] example_machine
    = Ok m1
    ∧ SetParameters example_pars m1 = Ok m2
    ∧ SetParameters example_pars example_machine = Ok m2.
Proof.
  apply (SetParameters_twice example_machine
           [7; 7; 7; 7; 8; 8; 1; 2; 3; 4; 5; 6; 7; 8] example_pars
           example_Sized); reflexivity.
Defined.

Lemma disabled_bias_stays_zero_witness :
  ∃ m m',
    RbmMultival spin_half 2 0 false false = Ok m
    ∧ foldl (λ r pars, let? m := r in SetParameters pars m) (Ok m)
            [[1; 2; 3; 4; 5; 6; 7; 8]; [8; 7; 6; 5; 4; 3; 2; 1]] = Ok m'
    ∧ a_ m' = [0; 0; 0; 0] ∧ b_ m' = [0; 0].
Proof.
  destruct (RbmMultival spin_half 2 0 false false) as [m|e] eqn:Hm;
    [|by vm_compute in Hm].
  destruct (foldl (λ r pars, let? m := r in SetParameters pars m) (Ok m)
              [[1; 2; 3; 4; 5; 6; 7; 8]; [8; 7; 6; 5; 4; 3; 2; 1]])
    as [m'|e] eqn:Hw.
  - exists m, m'. split; [reflexivity|]. split; [exact Hw|].
    destruct (disabled_bias_stays_zero spin_half 2 0 false false m
                [[1; 2; 3; 4; 5; 6; 7; 8]; [8; 7; 6; 5; 4; 3; 2; 1]] m')
      as [Ha Hb]; [by vm_compute..|exact Hm|exact Hw|].
    split; [exact (Ha eq_refl)|exact (Hb eq_refl)].
  - exfalso. vm_compute in Hm. injection Hm as <-. by vm_compute in Hw.
Defined.

Lemma RbmMultival_builds_the_tables_witness :
  ∃ m, RbmMultival spin_half 2 0 true true = Ok m
       ∧ nh_ m = 2
       ∧ localconfs_ m = [-1; 1; -1; 1]
       ∧ mask_ m = [[1; 0]; [1; 0]; [0; 1]; [0; 1]]
       ∧ confindex_ m !! (-1) = Some 0 ∧ confindex_ m !! 1 = Some 1
       ∧ confindex_ m !! 0 = None
       ∧ ComputeVtilde m [-1; 1] = Ok [1; 0; 0; 1].
Proof.
  destruct (RbmMultival_builds_the_tables Z_ring spin_half 2 0 true true
              spin_half_ok)
    as (m & Hm & _ & _ & Hnh & _ & _ & _ & _ & _ & _ & Hlc & Hmk & Hci & Hno
        & Hvt); [by vm_compute..|done|by vm_compute
                |repeat split; by vm_compute|].
  exists m. split; [exact Hm|]. split; [exact Hnh|].
  split; [exact Hlc|]. split; [exact Hmk|].
  split; [exact (Hci 0%nat (-1) eq_refl)|].
  split; [exact (Hci 1%nat 1 eq_refl)|]. split.
  - apply Hno. simpl. intros [[=]|[[=]|[]%elem_of_nil]%elem_of_cons]%elem_of_cons.
  - exact (Hvt [-1; 1] eq_refl).
Defined.

Lemma LogValSingle_with_and_without_lookup_witness :
  (∃ m1 lookup m2 m3,
     InitLookup [-1; 1] example_machine = (m1, Ok lookup)
     ∧ LogValSingle [-1; 1] lookup m1 = (m2, Ok 70)
     ∧ LogValSingle [-1; 1] None example_machine = (m3, Ok 70))
  ∧ ∀ th, ∃ m1, LogValSingle [-1; 1] (Some th) example_machine
                = (m1, Ok (5 + SumLogCosh th)).
Proof.
  apply (LogValSingle_with_and_without_lookup Z_ring spin_half
           example_machine [-1; 1] example_Inv eq_refl).
Defined.

Lemma LogValDiff_is_a_difference_of_LogValSingle_witness :
  ∃ m0 base m' logvaldiffs,
    LogValSingle [-1; 1] None example_machine = (m0, Ok base)
    ∧ LogValDiff [-1; 1] [[0]; [0; 1]] [[1]; [1; -1]] example_machine
      = (m', Ok logvaldiffs)
    ∧ ∀ k mv, [([0], [1]); ([0; 1], [1; -1])] !! k = Some mv →
        ∃ mk moved,
          LogValSingle (apply_changes [-1; 1] (zip mv.1 mv.2)) None
                       example_machine = (mk, Ok moved)
          ∧ logvaldiffs !! k = Some (moved - base).
Proof.
  apply (LogValDiff_is_a_difference_of_LogValSingle Z_ring spin_half
           example_machine [-1; 1] [([0], [1]); ([0; 1], [1; -1])]
           example_Inv).
  - apply example_legal; [apply minus_one_legal | apply plus_one_legal].
  - apply Forall_cons. split.
    { split; [apply valid_move_one; [lia | apply plus_one_legal]|].
      apply NoDup_singleton. }
    apply Forall_singleton. split.
    + apply valid_move_two; try lia;
        [apply plus_one_legal | apply minus_one_legal].
    + apply NoDup_cons. split; [|apply NoDup_singleton].
      by intros [=]%list_elem_of_singleton.
Defined.

Lemma order_of_the_changes_of_a_move_witness :
  UpdateLookup [-1; 1] [0; 1] [1; -1] (Some [31; 34]) example_machine
  = UpdateLookup [-1; 1] [1; 0] [-1; 1] (Some [31; 34]) example_machine
  ∧ (LogValDiff [-1; 1] [[0; 1]] [[1; -1]] example_machine).2
    = (LogValDiff [-1; 1] [[1; 0]] [[-1; 1]] example_machine).2.
Proof.
  apply (order_of_the_changes_of_a_move Z_ring spin_half example_machine
           [-1; 1] [0; 1] [1; 0] [1; -1] [-1; 1] [31; 34] example_Inv).
  - apply example_legal; [apply minus_one_legal | apply plus_one_legal].
  - apply valid_move_two; try lia;
      [apply plus_one_legal | apply minus_one_legal].
  - apply valid_move_two; try lia;
      [apply minus_one_legal | apply plus_one_legal].
  - simpl. apply perm_swap.
  - reflexivity.
Defined.

Lemma UpdateLookup_there_and_back_witness :
  ∃ th1,
    UpdateLookup [-1; 1] [0] [1] (Some [31; 34]) example_machine
    = (example_machine, Ok (Some th1))
    ∧ UpdateLookup [1; 1] [0] [-1] (Some th1) example_machine
      = (example_machine, Ok (Some [31; 34])).
Proof.
  apply (UpdateLookup_there_and_back Z_ring spin_half example_machine
           [-1; 1] 0 1 [31; 34] example_Inv).
  - apply example_legal; [apply minus_one_legal | apply plus_one_legal].
  - simpl. lia.
  - apply plus_one_legal.
  - reflexivity.
Defined.

Lemma UpdateLookup_unknown_value_witness :
  UpdateLookup [-1; 1] [0] [5] (Some [31; 34]) example_machine
  = (set_confindex (<[5 := 0]> (confindex_ example_machine)) example_machine,
     Ok (Some (row_change spin_half (W_ example_machine) [-1; 1] [31; 34]
                          (0, -1))))
  ∧ UpdateLookup [-1; 1] [0] [-1] (Some [31; 34]) example_machine
    = (example_machine,
       Ok (Some (row_change spin_half (W_ example_machine) [-1; 1] [31; 34]
                            (0, -1)))).
Proof.
  apply (UpdateLookup_unknown_value spin_half example_machine [-1; 1] 0 5
           (-1) [31; 34] example_Inv).
  - apply example_legal; [apply minus_one_legal | apply plus_one_legal].
  - simpl. lia.
  - reflexivity.
  - reflexivity.
  - reflexivity.
Defined.

Lemma Load_of_Save_witness :
  ∃ m', Load spin_half (Save example_machine)
             (set_a [] (set_nh 5 example_machine)) = (m', Ok tt)
        ∧ nh_ m' = 2 ∧ a_ m' = [1; 2; 3; 4] ∧ b_ m' = [5; 6]
        ∧ W_ m' = [[10; 11]; [12; 13]; [14; 15]; [16; 17]]
        ∧ GetParameters m' = Ok example_pars
        ∧ Save m' = Save example_machine.
Proof.
  destruct (Load_of_Save spin_half example_machine
              (set_a [] (set_nh 5 example_machine)) example_Inv)
    as (m' & Hl & _ & Hnh & _ & _ & _ & Ha & Hb & HW & Hget & Hsave);
    [repeat split; by vm_compute|].
  exists m'. split; [exact Hl|]. split; [exact Hnh|].
  split; [exact Ha|]. split; [exact Hb|]. split; [exact HW|].
  split; [|exact Hsave]. rewrite Hget. reflexivity.
Defined.

Lemma Load_of_a_header_only_witness :
  ∃ m', Load spin_half
             (delete "W" (delete "b" (delete "a" (delete "UseHiddenBias" (
              delete "UseVisibleBias" (Save example_machine))))))
             example_machine = (m', Ok tt)
        ∧ usea_ m' = true ∧ useb_ m' = true ∧ Npar m' = 14
        ∧ a_ m' = [0; 0; 0; 0] ∧ b_ m' = [0; 0]
        ∧ W_ m' = [[10; 11]; [12; 13]; [14; 15]; [16; 17]].
Proof.
  destruct (Load_of_a_header_only spin_half
              (delete "W" (delete "b" (delete "a" (delete "UseHiddenBias" (
               delete "UseVisibleBias" (Save example_machine))))))
              example_machine 2 spin_half_ok)
    as (m' & Hl & _ & _ & Hua & Hub & Hnp & Ha & Hb & HW);
    [repeat split; by vm_compute|first [lia | vm_compute; reflexivity]..|].
  exists m'. split; [exact Hl|]. split; [exact Hua|]. split; [exact Hub|].
  split; [exact Hnp|]. split; [exact Ha|]. split; [exact Hb|].
  exact (HW example_Inv eq_refl).
Defined.
